(** * synthpops.base: age aggregation and contact-matrix construction

    A shallow embedding of [synthpops/base.py] and the properties of its
    functions.

    Modelling conventions, shared by every definition below.

    - Numbers.  The module computes with Python numbers and NumPy
      [float64] arrays.  They are embedded as the canonical rationals
      [Qc]: every law below is a law of exact arithmetic, and rounding,
      infinities and NaN are outside the model.  A divisor is never zero
      wherever a theorem speaks about a quotient.
    - Element types.  The arrays the functions create hold floats.  The
      one array that is a copy of an argument, in
      [get_asymmetric_matrix], has the element type of the argument, and
      an assignment to it converts: an [ndarray] carries its [dtype].
    - Dictionaries.  A Python [dict] keeps insertion order and has unique
      keys.  It is an association list; [dict_set] overwrites in place
      or appends, as [d[k] = v] does.  The inputs of a function are
      dictionaries, so their key lists are duplicate free ([NoDup]).
    - Ages, bracket identifiers and array indices are natural numbers.
    - Exceptions.  A function that may raise returns a [result]. *)

From Stdlib Require Import QArith Qcanon.
From stdpp Require Import base numbers list strings gmap.

(** ** Exceptions *)

Inductive exn : Set :=
  | KeyError
  | IndexError
  | ValueError
  | NotImplementedError
  | AttributeError.

Inductive result (A : Type) : Type :=
  | Ok (a : A)
  | Raise (e : exn).
Arguments Ok {A} a.
Arguments Raise {A} e.

#[global] Instance result_ret : MRet result := λ A a, Ok a.
#[global] Instance result_bind : MBind result := λ A B f m,
  match m with
  | Ok a => f a
  | Raise e => Raise e
  end.

Definition raises {A} (m : result A) : Prop := ∃ e, m = Raise e.

(** [for x in xs: s = body(x, s)], stopping at the first exception. *)
Fixpoint for_in {A S : Type} (xs : list A) (body : A → S → result S) (s : S)
    : result S :=
  match xs with
  | [] => Ok s
  | x :: xs' => s' ← body x s; for_in xs' body s'
  end.

(** The list comprehension [[f(x) for x in xs]]. *)
Fixpoint comprehension {A B : Type} (f : A → result B) (xs : list A)
    : result (list B) :=
  match xs with
  | [] => Ok []
  | x :: xs' => y ← f x; ys ← comprehension f xs'; Ok (y :: ys)
  end.

(** ** Numbers *)

Definition qc (z : Z) : Qc := Q2Qc (inject_Z z).

(** [np.sum] and the builtin [sum] over a sequence, in exact arithmetic. *)
Definition np_sum (l : list Qc) : Qc := foldr Qcplus 0%Qc l.

(** ** Dictionaries *)

Abbreviation dict K V := (list (K * V)).

Section dict.
Context {K : Type} `{!EqDecision K} {V : Type}.

Fixpoint dict_get (k : K) (d : dict K V) : option V :=
  match d with
  | [] => None
  | (k', v) :: d' => if decide (k = k') then Some v else dict_get k d'
  end.

(** [d[k] = v] *)
Fixpoint dict_set (k : K) (v : V) (d : dict K V) : dict K V :=
  match d with
  | [] => [(k, v)]
  | (k', v') :: d' =>
      if decide (k = k') then (k', v) :: d' else (k', v') :: dict_set k v d'
  end.

Definition dict_keys (d : dict K V) : list K := d.*1.
Definition dict_values (d : dict K V) : list V := d.*2.

(** [d[k]] *)
Definition getitem (k : K) (d : dict K V) : result V :=
  match dict_get k d with
  | Some v => Ok v
  | None => Raise KeyError
  end.

(** [dict.fromkeys(ks, v)] *)
Definition dict_fromkeys (ks : list K) (v : V) : dict K V :=
  foldl (λ d k, dict_set k v d) [] ks.
End dict.

(** ** [normalize_dictionary] *)

Section normalize.
Context {K : Type} `{!EqDecision K}.

Definition normalize_dictionary (d : dict K Qc) : result (dict K Qc) :=
  vals ← comprehension (λ i, getitem i d) (dict_keys d);
  let total := np_sum vals in
  if decide (total = 0%Qc) then Ok d
  else
    for_in (dict_keys d)
      (λ i new_dictonary, v ← getitem i d;
                          Ok (dict_set i (v / total)%Qc new_dictonary))
      [].
End normalize.

(** ** [get_aggregate_ages] *)

(** [set(d.values())], then [dict.fromkeys] over it.  The iteration order
    of a set is left to the implementation; [elements] fixes one. *)
Definition value_set (d : dict nat nat) : gset nat :=
  list_to_set (dict_values d).

Definition get_aggregate_ages (ages : dict nat Qc)
    (age_by_brackets_dictionary : dict nat nat) : result (dict nat Qc) :=
  let bracket_keys := value_set age_by_brackets_dictionary in
  let aggregate_ages := dict_fromkeys (elements bracket_keys) 0%Qc in
  for_in (dict_keys ages)
    (λ a aggregate_ages,
       b ← getitem a age_by_brackets_dictionary;
       old ← getitem b aggregate_ages;
       n ← getitem a ages;
       Ok (dict_set b (old + n)%Qc aggregate_ages))
    aggregate_ages.

(** ** [get_aggregate_age_dictionary_conversion] *)

(** [l[0]] *)
Definition first_item {A} (l : list A) : result A :=
  match l with
  | [] => Raise IndexError
  | x :: _ => Ok x
  end.

Definition get_aggregate_age_dictionary_conversion
    (larger_aggregate_ages : dict nat Qc)
    (larger_age_brackets smaller_age_brackets : dict nat (list nat))
    (age_by_brackets_dictionary_larger
       age_by_brackets_dictionary_smaller : dict nat nat)
    : result (dict nat Qc) :=
  if decide (length larger_age_brackets < length smaller_age_brackets)
  then Raise NotImplementedError
  else
    let smaller_aggregate_ages :=
      dict_fromkeys (dict_keys smaller_age_brackets) 0%Qc in
    for_in (dict_keys larger_age_brackets)
      (λ lb smaller_aggregate_ages,
         bracket ← getitem lb larger_age_brackets;
         a ← first_item bracket;
         sb ← getitem a age_by_brackets_dictionary_smaller;
         old ← getitem sb smaller_aggregate_ages;
         n ← getitem lb larger_aggregate_ages;
         Ok (dict_set sb (old + n)%Qc smaller_aggregate_ages))
      smaller_aggregate_ages.

(** The smaller bracket that holds the first age of the larger bracket
    [lb], and the total of the larger brackets attributed to the smaller
    bracket [sb] in that way: what the conversion is to compute. *)
Definition representative_bracket
    (larger_age_brackets : dict nat (list nat))
    (age_by_brackets_dictionary_smaller : dict nat nat) (lb : nat)
    : option nat :=
  bracket ← dict_get lb larger_age_brackets;
  a ← head bracket;
  dict_get a age_by_brackets_dictionary_smaller.

Definition attributed (larger_aggregate_ages : dict nat Qc)
    (larger_age_brackets : dict nat (list nat))
    (age_by_brackets_dictionary_smaller : dict nat nat) (sb : nat) : Qc :=
  np_sum
    ((λ lb, default 0%Qc (dict_get lb larger_aggregate_ages))
       <$> filter
             (λ lb, representative_bracket larger_age_brackets
                      age_by_brackets_dictionary_smaller lb = Some sb)
             (dict_keys larger_age_brackets)).

(** ** Arrays *)

(** A two-dimensional [np.ndarray], row by row. *)
Abbreviation matrix := (list (list Qc)).

Definition is_matrix (r c : nat) (M : matrix) : Prop :=
  length M = r ∧ Forall (λ row, length row = c) M.

(** The rows of an array have one length. *)
Definition rectangular (M : matrix) : Prop :=
  ∃ c, Forall (λ row, length row = c) M.

Definition shape (M : matrix) : nat * nat :=
  (length M, from_option length 0 (head M)).

Definition np_full (r c : nat) (x : Qc) : matrix :=
  replicate r (replicate c x).
Definition np_zeros (r c : nat) : matrix := np_full r c 0%Qc.
Definition np_ones (r c : nat) : matrix := np_full r c 1%Qc.

(** [v[i]] *)
Definition item {A} (i : nat) (v : list A) : result A :=
  match v !! i with
  | Some x => Ok x
  | None => Raise IndexError
  end.

(** [M[i][j]] *)
Definition item2 (i j : nat) (M : matrix) : result Qc :=
  row ← item i M; item j row.

(** [M[i][j] = x], for indices already read *)
Definition set_item2 (i j : nat) (x : Qc) (M : matrix) : matrix :=
  alter (λ row, <[j := x]> row) i M.

(** [M[:, a]] and [M[:, a] = col] *)
Definition column (a : nat) (M : matrix) : result (list Qc) :=
  comprehension (item a) M.
Definition set_column (a : nat) (col : list Qc) (M : matrix) : matrix :=
  zip_with (λ row x, <[a := x]> row) M col.

Definition scale (v : list Qc) (c : Qc) : list Qc := (λ x, x * c)%Qc <$> v.
Definition divide (v : list Qc) (c : Qc) : list Qc := (λ x, x / c)%Qc <$> v.

(** [M * c] and [M / c] *)
Definition scale_all (M : matrix) (c : Qc) : matrix :=
  (λ row, scale row c) <$> M.
Definition divide_all (M : matrix) (c : Qc) : matrix :=
  (λ row, divide row c) <$> M.

(** The sum of all cells, [np.sum(M)]. *)
Definition matrix_sum (M : matrix) : Qc := np_sum (np_sum <$> M).

(** The cell as an optional value, for statements. *)
Definition cell (i j : nat) (M : matrix) : option Qc :=
  M !! i ≫= λ row, row !! j.

(** [M] is an [r × c] array whose cell [(i, j)] is [g i j]. *)
Definition cells (r c : nat) (M : matrix) (g : nat → nat → Qc) : Prop :=
  is_matrix r c M ∧ ∀ i j, i < r → j < c → cell i j M = Some (g i j).

(** ** [get_aggregate_matrix] *)

Definition get_aggregate_matrix (M : matrix)
    (age_by_brackets_dictionary : dict nat nat) : result matrix :=
  let N := length M in
  let num_agebrackets := size (value_set age_by_brackets_dictionary) in
  let M_agg := np_zeros num_agebrackets num_agebrackets in
  for_in (seq 0 N)
    (λ i M_agg,
       bi ← getitem i age_by_brackets_dictionary;
       for_in (seq 0 N)
         (λ j M_agg,
            bj ← getitem j age_by_brackets_dictionary;
            old ← item2 bi bj M_agg;
            x ← item2 i j M;
            Ok (set_item2 bi bj (old + x)%Qc M_agg))
         M_agg)
    M_agg.

(** ** [get_asymmetric_matrix] *)

(** The other functions write into arrays they create with [np.zeros]
    and [np.ones], which hold floats whatever their arguments hold.
    This one writes into a copy of its argument, and the copy has the
    element type of the argument: an array carries its [dtype], and a
    value assigned to a cell is converted to it. *)
Inductive dtype := Int64 | Float64.

#[global] Instance dtype_eq_dec : EqDecision dtype.
Proof. solve_decision. Defined.

(** The conversion of a float to an integer drops the fraction (it
    rounds toward zero). *)
Definition truncate (x : Qc) : Qc := qc (Z.quot (Qnum x) (Z.pos (Qden x))).

(** A whole number, and one that a float holds exactly. *)
Definition whole (x : Qc) : Prop := Qden x = 1%positive.
Definition safe_integer (x : Qc) : Prop :=
  whole x ∧ (qc (- 2 ^ 53) < x)%Qc ∧ (x < qc (2 ^ 53))%Qc.

(** The quotients [x / n] whose conversion to the element type [t] the
    model describes.  A cell of integers and a size that are whole
    numbers below [2 ^ 53] have a float quotient with the whole part of
    the exact one, and the conversion stays in the range of the
    integers. *)
Definition converts (t : dtype) (x n : Qc) : Prop :=
  match t with
  | Int64 => safe_integer x ∧ safe_integer n
  | Float64 => True
  end.

(** The value a cell of element type [t] holds after [x] is assigned to
    it. *)
Definition cast (t : dtype) (x : Qc) : Qc :=
  match t with
  | Int64 => truncate x
  | Float64 => x
  end.

Record ndarray := { dtype_of : dtype; data : matrix }.

#[global] Instance ndarray_inhabited : Inhabited ndarray :=
  populate {| dtype_of := Float64; data := [] |}.

(** The function copies its argument and writes into the copy.  Arrays
    are objects: a heap holds them, a reference is an index into it. *)
Abbreviation heap := (list ndarray).

Definition deref (r : nat) (h : heap) : ndarray := h !!! r.

(** [copy.deepcopy]: a fresh object with the same element type and the
    same contents. *)
Definition deepcopy (r : nat) (h : heap) : nat * heap :=
  (length h, h ++ [deref r h]).

(** [M[a, :] = row]: the row is converted to the element type of [M]. *)
Definition set_row (a : nat) (row : list Qc) (M : ndarray) : ndarray :=
  {| dtype_of := dtype_of M;
     data := <[a := cast (dtype_of M) <$> row]> (data M) |}.

Definition get_asymmetric_matrix (symmetric_matrix : nat)
    (aggregate_ages : dict nat Qc) (h : heap) : result (nat * heap) :=
  let '(M, h) := deepcopy symmetric_matrix h in
  h ← for_in (dict_keys aggregate_ages)
        (λ a h,
           row ← item a (data (deref M h));
           n ← getitem a aggregate_ages;
           Ok (<[M := set_row a (divide row n) (deref M h)]> h))
        h;
  Ok (M, h).

(** ** [get_symmetric_community_matrix] *)

Definition get_symmetric_community_matrix (ages : dict nat Qc)
    : result matrix :=
  let N := length ages in
  let M := np_ones N N in
  M ← for_in (seq 0 N)
        (λ a M,
           row ← item a M;
           n ← getitem a ages;
           let M := <[a := scale row n]> M in
           col ← column a M;
           n ← getitem a ages;
           Ok (set_column a (scale col n) M))
        M;
  M ← for_in (seq 0 N)
        (λ a M,
           old ← item2 a a M;
           n ← getitem a ages;
           Ok (set_item2 a a (old - n)%Qc M))
        M;
  sizes ← comprehension (λ a, getitem a ages) (dict_keys ages);
  Ok (divide_all M (np_sum sizes - 1)%Qc).

(** ** [combine_matrices] *)

(** NumPy broadcasting of a two-dimensional operand to the shape of the
    target of an in-place operation: an axis of length one is repeated,
    any other length has to agree. *)
Definition broadcastable (target operand : nat * nat) : bool :=
  bool_decide ((operand.1 = target.1 ∨ operand.1 = 1)
               ∧ (operand.2 = target.2 ∨ operand.2 = 1)).

Definition stretch {A} (n : nat) (l : list A) : list A :=
  match l with
  | [x] => replicate n x
  | _ => l
  end.

Definition broadcast_to (target : nat * nat) (B : matrix) : result matrix :=
  if broadcastable target (shape B)
  then Ok (stretch target.1 (stretch target.2 <$> B))
  else Raise ValueError.

(** [M += B] *)
Definition iadd (M B : matrix) : result matrix :=
  B' ← broadcast_to (shape M) B;
  Ok (zip_with (zip_with Qcplus) M B').

(** The position that broadcasting reads on an axis of length [len] for
    the position [i] of the target: an axis of length one is repeated. *)
Definition broadcast_index (len i : nat) : nat :=
  if decide (len = 1) then 0 else i.

(** The cell [(i, j)] of [B] broadcast. *)
Definition broadcast_cell (i j : nat) (B : matrix) : option Qc :=
  cell (broadcast_index (shape B).1 i) (broadcast_index (shape B).2 j) B.

Section combine.
Context {S : Type} `{!EqDecision S}.

Definition combine_matrices (matrix_dictionary : dict S matrix)
    (weights_dictionary : dict S Qc) (num_agebrackets : nat)
    : result matrix :=
  let M := np_zeros num_agebrackets num_agebrackets in
  for_in (dict_keys weights_dictionary)
    (λ setting_code M,
       A ← getitem setting_code matrix_dictionary;
       w ← getitem setting_code weights_dictionary;
       iadd M (scale_all A w))
    M.

(** The cell [(i, j)] of the linear combination: the sum over the
    settings [s] of the weights of [matrix[s][i][j] * weight[s]]. *)
Definition weighted_cell (matrix_dictionary : dict S matrix)
    (weights_dictionary : dict S Qc) (i j : nat) (s : S) : Qc :=
  (default 0 (A ← dict_get s matrix_dictionary; cell i j A)
   * default 0 (dict_get s weights_dictionary))%Qc.

Definition linear_combination (matrix_dictionary : dict S matrix)
    (weights_dictionary : dict S Qc) (i j : nat) : Qc :=
  np_sum (weighted_cell matrix_dictionary weights_dictionary i j
            <$> dict_keys weights_dictionary).

(** The same sum for matrices that are broadcast: the setting [s]
    contributes the cell of its matrix that broadcasting reads at
    [(i, j)], times its weight. *)
Definition broadcast_weighted_cell (matrix_dictionary : dict S matrix)
    (weights_dictionary : dict S Qc) (i j : nat) (s : S) : Qc :=
  (default 0 (A ← dict_get s matrix_dictionary; broadcast_cell i j A)
   * default 0 (dict_get s weights_dictionary))%Qc.

Definition broadcast_combination (matrix_dictionary : dict S matrix)
    (weights_dictionary : dict S Qc) (i j : nat) : Qc :=
  np_sum (broadcast_weighted_cell matrix_dictionary weights_dictionary i j
            <$> dict_keys weights_dictionary).
End combine.

(** ** [get_ids_by_age_dictionary] *)

(** [max(l)] *)
Definition py_max (l : list nat) : result nat :=
  match l with
  | [] => Raise ValueError
  | x :: l' => Ok (foldl Nat.max x l')
  end.

Section ids_by_age.
Context {Id : Type} `{!EqDecision Id}.

(** A value of the index is [None] between [dict.fromkeys] and the loop
    that stores the empty lists, a list afterwards. *)
Definition get_ids_by_age_dictionary (age_by_id_dictionary : dict Id nat)
    : result (dict nat (option (list Id))) :=
  max_val ← py_max (dict_values age_by_id_dictionary);
  let ids_by_age_dictionary := dict_fromkeys (seq 0 (max_val + 1)) None in
  let ids_by_age_dictionary :=
    foldl (λ d i, dict_set i (Some []) d)
      ids_by_age_dictionary (dict_keys ids_by_age_dictionary) in
  for_in (dict_keys age_by_id_dictionary)
    (λ i ids_by_age_dictionary,
       a ← getitem i age_by_id_dictionary;
       l ← getitem a ids_by_age_dictionary;
       match l with
       | Some l => Ok (dict_set a (Some (l ++ [i])) ids_by_age_dictionary)
       | None => Raise AttributeError
       end)
    ids_by_age_dictionary.

(** The identifiers of age [a], in the iteration order of the dictionary:
    what the index is to hold at [a]. *)
Definition ids_of_age (a : nat) (age_by_id_dictionary : dict Id nat)
    : list Id :=
  filter (λ i, dict_get i age_by_id_dictionary = Some a)
    (dict_keys age_by_id_dictionary).
End ids_by_age.

(** ** [norm_age_group] *)

(** [range(lo, hi + 1)] *)
Definition range_inclusive (lo hi : nat) : list nat := seq lo (hi + 1 - lo).

Definition norm_age_group (age_dictionary : dict nat Qc)
    (age_min age_max : nat) : result (dict nat Qc) :=
  dictionary ← for_in (range_inclusive age_min age_max)
                 (λ a dictionary,
                    v ← getitem a age_dictionary;
                    Ok (dict_set a v dictionary))
                 [];
  normalize_dictionary dictionary.

(** ** [get_age_by_brackets_dictionary] *)

Definition get_age_by_brackets_dictionary (age_brackets : dict nat (list nat))
    : result (dict nat nat) :=
  for_in (dict_keys age_brackets)
    (λ b age_by_brackets_dictionary,
       ages ← getitem b age_brackets;
       Ok (foldl (λ d a, dict_set a b d) age_by_brackets_dictionary ages))
    [].

(** The writes [age_by_brackets_dictionary[a] = b] in the order in which
    the two loops make them. *)
Definition bracket_writes (age_brackets : dict nat (list nat))
    : list (nat * nat) :=
  age_brackets ≫= λ entry, (λ a, (a, entry.1)) <$> entry.2.

(** ** [get_uids_by_age_dictionary] *)

Section uids_by_age.
Context {Id : Type} `{!EqDecision Id} {V : Type} `{!EqDecision V}.

(** [d.setdefault(k, v)], for its effect on [d] *)
Definition setdefault {K W} `{!EqDecision K} (k : K) (v : W) (d : dict K W)
    : dict K W :=
  match dict_get k d with
  | Some _ => d
  | None => dict_set k v d
  end.

(** A person is a dictionary of attributes; only ['age'] is read. *)
Definition get_uids_by_age_dictionary (popdict : dict Id (dict string V))
    : result (dict V (list Id)) :=
  for_in (dict_keys popdict)
    (λ uid uids_by_age_dictionary,
       person ← getitem uid popdict;
       age ← getitem "age" person;
       let uids_by_age_dictionary :=
         setdefault age [] uids_by_age_dictionary in
       person ← getitem uid popdict;
       age ← getitem "age" person;
       uids ← getitem age uids_by_age_dictionary;
       Ok (dict_set age (uids ++ [uid]) uids_by_age_dictionary))
    [].

(** The age of a person, when the record has one. *)
Definition age_of (popdict : dict Id (dict string V)) (uid : Id) : option V :=
  person ← dict_get uid popdict; dict_get "age" person.

(** The identifiers of the persons of age [a], in iteration order. *)
Definition uids_of_age (a : V) (popdict : dict Id (dict string V)) : list Id :=
  filter (λ uid, age_of popdict uid = Some a) (dict_keys popdict).
End uids_by_age.

(** The sum of the cells [M[i][j]] over the indices [i] of bracket [bi]
    and [j] of bracket [bj]: what cell [(bi, bj)] of the aggregate is to
    hold. *)
Definition block_sum (M : matrix) (age_by_brackets_dictionary : dict nat nat)
    (bi bj : nat) : Qc :=
  np_sum
    ((λ i, np_sum
             ((λ j, default 0%Qc (cell i j M))
                <$> filter
                      (λ j, dict_get j age_by_brackets_dictionary = Some bj)
                      (seq 0 (length M))))
       <$> filter (λ i, dict_get i age_by_brackets_dictionary = Some bi)
             (seq 0 (length M))).

(** A count: a whole number that is not negative.  Sums of counts that
    stay below [2 ^ 53] do not depend on the order of their terms, in
    the floats of the program as in exact arithmetic. *)
Definition count (x : Qc) : Prop := whole x ∧ (0 ≤ Qnum x)%Z.

(** The distinct items of a list in the order of their first
    occurrences: the order of the keys of a dictionary that is filled
    item by item. *)
Definition first_seen {A} `{!EqDecision A} (l : list A) : list A :=
  foldl (λ acc a, if decide (a ∈ acc) then acc else acc ++ [a]) [] l.

(** * Properties *)

(** ** The error monad and loops *)

Lemma bind_Ok {A B} (m : result A) (f : A → result B) (b : B) :
  m ≫= f = Ok b ↔ ∃ a, m = Ok a ∧ f a = Ok b.
Proof.
  destruct m as [a|e]; simpl; split.
  - eauto.
  - by intros (a' & [= <-] & ?).
  - done.
  - by intros (? & ? & ?).
Qed.

Lemma for_in_app {A S} (xs ys : list A) (body : A → S → result S) (s : S) :
  for_in (xs ++ ys) body s = for_in xs body s ≫= for_in ys body.
Proof.
  revert s. induction xs as [|x xs IH]; intros s; simpl; [done|].
  destruct (body x s); simpl; auto.
Qed.

(** A loop invariant that every iteration keeps is kept by the loop,
    which then does not raise.  [done] are the items already visited. *)
Lemma for_in_invariant {A S} (I : list A → S → Prop) (xs : list A)
    (body : A → S → result S) (s : S) :
  I [] s →
  (∀ done x rest s, xs = done ++ x :: rest → I done s →
     ∃ s', body x s = Ok s' ∧ I (done ++ [x]) s') →
  ∃ s', for_in xs body s = Ok s' ∧ I xs s'.
Proof.
  revert I s. induction xs as [|x xs IH]; intros I s H0 Hstep; simpl.
  - eauto.
  - destruct (Hstep [] x xs s) as (s1 & -> & H1); [done..|]. simpl.
    destruct (IH (λ done, I (x :: done)) s1) as (s2 & -> & H2);
      [done | | eauto].
    intros done y rest t -> Ht.
    destruct (Hstep (x :: done) y rest t) as (t' & -> & Ht'); [done..|].
    eauto.
Qed.

Lemma comprehension_Ok {A B} (f : A → result B) (g : A → B) (xs : list A) :
  (∀ x, x ∈ xs → f x = Ok (g x)) → comprehension f xs = Ok (g <$> xs).
Proof.
  induction xs as [|x xs IH]; intros H; simpl; [done|].
  rewrite H by left. simpl. rewrite IH; [done|].
  intros y Hy. apply H. by right.
Qed.

(** ** Sums *)

(** Evaluates both sides of an equation between values that hold
    rationals and compares the rationals as fractions. *)
Ltac qc_eval :=
  vm_compute; repeat (first [apply Qc_is_canon; reflexivity | f_equal]).

Lemma np_sum_app (l1 l2 : list Qc) :
  np_sum (l1 ++ l2) = (np_sum l1 + np_sum l2)%Qc.
Proof.
  induction l1 as [|x l1 IH]; simpl.
  - by rewrite Qcplus_0_l.
  - rewrite IH. ring.
Qed.

Lemma np_sum_divide (l : list Qc) (c : Qc) :
  np_sum (divide l c) = (np_sum l / c)%Qc.
Proof.
  induction l as [|x l IH]; simpl.
  - unfold Qcdiv. ring.
  - fold (divide l c). rewrite IH. unfold Qcdiv. ring.
Qed.

Lemma np_sum_insert (l : list Qc) (i : nat) (old x : Qc) :
  l !! i = Some old →
  np_sum (<[i := x]> l) = (np_sum l - old + x)%Qc.
Proof.
  revert i. induction l as [|y l IH]; intros [|i] H; simplify_eq/=.
  - ring.
  - rewrite (IH i) by done. ring.
Qed.

(** ** Dictionaries *)

Section dict_facts.
Context {K : Type} `{!EqDecision K} {V : Type}.
Implicit Types (d : dict K V) (k : K) (v : V).

Lemma dict_get_Some_elem d k v : dict_get k d = Some v → (k, v) ∈ d.
Proof.
  induction d as [|[k' v'] d IH]; simpl; [done|].
  case_decide as Hk.
  - intros [= ->]. subst. left.
  - intros H. right. auto.
Qed.

Lemma dict_get_None d k : dict_get k d = None ↔ k ∉ dict_keys d.
Proof.
  unfold dict_keys. induction d as [|[k' v'] d IH]; simpl.
  - split; [intros _; apply not_elem_of_nil | done].
  - rewrite not_elem_of_cons.
    destruct (decide (k = k')) as [->|];
      [split; [done | by intros [? _]] | rewrite IH; tauto].
Qed.

Lemma dict_get_is_Some d k : is_Some (dict_get k d) ↔ k ∈ dict_keys d.
Proof.
  rewrite <-not_eq_None_Some, dict_get_None.
  destruct (decide (k ∈ dict_keys d)); naive_solver.
Qed.

Lemma dict_get_elem d k v :
  NoDup (dict_keys d) → (k, v) ∈ d → dict_get k d = Some v.
Proof.
  unfold dict_keys. induction d as [|[k' v'] d IH]; simpl.
  - by intros _ ?%elem_of_nil.
  - intros [Hk' Hd]%NoDup_cons [[= -> ->]|Hin]%elem_of_cons.
    + by rewrite decide_True.
    + rewrite decide_False; [auto|].
      intros ->. apply Hk'. apply list_elem_of_fmap. by exists (k', v).
Qed.

Lemma dict_get_set d k k' v :
  dict_get k' (dict_set k v d)
  = if decide (k' = k) then Some v else dict_get k' d.
Proof.
  induction d as [|[k0 v0] d IH]; simpl.
  - by repeat case_decide.
  - destruct (decide (k = k0)) as [Hk|Hk]; simpl;
      destruct (decide (k' = k0)) as [Hk'|Hk']; simpl;
      rewrite ?IH; destruct (decide (k' = k)); congruence.
Qed.

Lemma dict_set_fresh d k v :
  k ∉ dict_keys d → dict_set k v d = d ++ [(k, v)].
Proof.
  unfold dict_keys. induction d as [|[k0 v0] d IH]; simpl; [done|].
  intros [? ?]%not_elem_of_cons. rewrite decide_False by done.
  by rewrite IH.
Qed.

Lemma dict_set_keys d k v :
  k ∈ dict_keys d → dict_keys (dict_set k v d) = dict_keys d.
Proof.
  unfold dict_keys. induction d as [|[k0 v0] d IH]; simpl.
  - by intros ?%elem_of_nil.
  - intros Hin. case_decide; simpl; [done|].
    f_equal. apply IH. apply elem_of_cons in Hin as [?|?]; done.
Qed.

Lemma dict_fromkeys_NoDup (ks : list K) v :
  NoDup ks → dict_fromkeys ks v = (λ k, (k, v)) <$> ks.
Proof.
  unfold dict_fromkeys.
  enough (∀ acc : dict K V, NoDup (dict_keys acc ++ ks) →
            foldl (λ d k, dict_set k v d) acc ks
            = acc ++ ((λ k, (k, v)) <$> ks)) as H
    by (intros ?; by apply (H [])).
  induction ks as [|k ks IH]; intros acc Hnd; simpl.
  - by rewrite app_nil_r.
  - rewrite dict_set_fresh.
    + rewrite IH, <-app_assoc; [done|].
      unfold dict_keys. rewrite fmap_app, <-app_assoc. done.
    + apply NoDup_app in Hnd as (_ & Hnd & _).
      intros Hk. apply (Hnd k Hk). left.
Qed.

Lemma dict_fromkeys_keys (ks : list K) v :
  NoDup ks → dict_keys (dict_fromkeys ks v) = ks.
Proof.
  intros H. rewrite dict_fromkeys_NoDup by done.
  unfold dict_keys. rewrite <-list_fmap_compose. apply list_fmap_id.
Qed.

Lemma getitem_Ok d k v : getitem k d = Ok v ↔ dict_get k d = Some v.
Proof. unfold getitem. destruct (dict_get k d); naive_solver. Qed.

Lemma getitem_elem d k v :
  NoDup (dict_keys d) → (k, v) ∈ d → getitem k d = Ok v.
Proof. intros. by apply getitem_Ok, dict_get_elem. Qed.

(** [[d[i] for i in d]] is [d.values()]. *)
Lemma comprehension_getitem d :
  NoDup (dict_keys d) →
  comprehension (λ i, getitem i d) (dict_keys d) = Ok (dict_values d).
Proof.
  intros Hnd. unfold dict_keys, dict_values.
  enough (∀ l : dict K V, l ⊆ d →
            comprehension (λ i, getitem i d) (l.*1) = Ok (l.*2)) as H
    by (by apply H).
  induction l as [|[k v] l IH]; intros Hsub; [done|].
  rewrite !fmap_cons. cbn [comprehension fst snd].
  rewrite (getitem_elem d k v); [| done | apply Hsub; left].
  cbn [mbind result_bind]. rewrite IH; [done|].
  intros x ?. apply Hsub. by right.
Qed.
End dict_facts.

Section dict_sums.
Context {K : Type} `{!EqDecision K}.
Implicit Types s : dict K Qc.

(** [s[k] += n] adds [n] to the sum of the values. *)
Lemma dict_set_sum s k (old v : Qc) :
  dict_get k s = Some old →
  np_sum (dict_values (dict_set k v s))
  = (np_sum (dict_values s) - old + v)%Qc.
Proof.
  unfold dict_values. induction s as [|[k' v'] s IH]; [done|].
  cbn [dict_get dict_set].
  destruct (decide (k = k')) as [->|]; rewrite !fmap_cons; cbn [snd];
    unfold np_sum in *; cbn [foldr].
  - intros [= ->]. ring.
  - intros H. rewrite IH by done. ring.
Qed.

Lemma dict_values_lookup s :
  NoDup (dict_keys s) →
  (λ a, default 0%Qc (dict_get a s)) <$> dict_keys s = dict_values s.
Proof.
  unfold dict_keys, dict_values.
  induction s as [|[k v] s IH]; [done|].
  rewrite !fmap_cons. cbn [fst snd]. intros [Hk Hs]%NoDup_cons.
  cbn [dict_get]. rewrite decide_True by done. simpl. f_equal.
  rewrite <-IH by done. apply Forall_fmap_ext_1, Forall_forall.
  intros k' Hk'. rewrite decide_False; [done|]. by intros ->.
Qed.

Lemma dict_fromkeys_sum (ks : list K) :
  NoDup ks → np_sum (dict_values (dict_fromkeys ks 0%Qc)) = 0%Qc.
Proof.
  intros Hks. rewrite dict_fromkeys_NoDup by done. unfold dict_values.
  clear Hks. induction ks as [|k ks IH]; [done|].
  rewrite !fmap_cons. cbn [snd]. unfold np_sum in *. cbn [foldr].
  rewrite IH. ring.
Qed.

Lemma dict_fromkeys_get {V} (ks : list K) (v : V) k :
  NoDup ks → k ∈ ks → dict_get k (dict_fromkeys ks v) = Some v.
Proof.
  intros Hks Hk. apply dict_get_elem.
  - by rewrite dict_fromkeys_keys.
  - rewrite dict_fromkeys_NoDup by done. apply list_elem_of_fmap. eauto.
Qed.
End dict_sums.

(** ** [normalize_dictionary] *)

Section normalize_facts.
Context {K : Type} `{!EqDecision K}.
Implicit Types d : dict K Qc.

Lemma normalize_loop d (total : Qc) :
  NoDup (dict_keys d) →
  for_in (dict_keys d)
    (λ i new_dictonary, v ← getitem i d;
                        Ok (dict_set i (v / total)%Qc new_dictonary)) []
  = Ok (prod_map id (λ v, v / total)%Qc <$> d).
Proof.
  intros Hnd.
  enough (∀ (l acc : dict K Qc), l ⊆ d → NoDup (dict_keys acc ++ l.*1) →
            for_in (l.*1)
              (λ i new_dictonary, v ← getitem i d;
                 Ok (dict_set i (v / total)%Qc new_dictonary)) acc
            = Ok (acc ++ (prod_map id (λ v, v / total)%Qc <$> l))) as H
    by (by apply (H d [])).
  induction l as [|[k v] l IH]; intros acc Hsub Hacc.
  - by rewrite app_nil_r.
  - rewrite !fmap_cons. cbn [for_in fst snd].
    rewrite (getitem_elem d k v); [| done | apply Hsub; left].
    cbn [mbind result_bind]. rewrite fmap_cons in Hacc. simpl in Hacc.
    rewrite dict_set_fresh.
    + rewrite IH.
      * by rewrite <-app_assoc.
      * intros x ?. apply Hsub. by right.
      * unfold dict_keys. rewrite fmap_app, <-app_assoc. done.
    + apply NoDup_app in Hacc as (_ & Hacc & _).
      intros Hk. apply (Hacc k Hk). left.
Qed.

(** C4.  With a zero total the dictionary itself is returned; otherwise
    the result has the keys of [d], in the same order, every value is
    the value of [d] divided by the total, and the values sum to one. *)
Theorem normalize_dictionary_spec d :
  NoDup (dict_keys d) →
  let total := np_sum (dict_values d) in
  (total = 0%Qc → normalize_dictionary d = Ok d)
  ∧ (total ≠ 0%Qc →
     ∃ d', normalize_dictionary d = Ok d'
           ∧ dict_keys d' = dict_keys d
           ∧ (∀ k v, dict_get k d = Some v →
                     dict_get k d' = Some (v / total)%Qc)
           ∧ np_sum (dict_values d') = 1%Qc).
Proof.
  intros Hnd total. unfold normalize_dictionary.
  rewrite comprehension_getitem by done. cbn [mbind result_bind].
  fold total. split; intros Htotal.
  - by rewrite decide_True.
  - rewrite decide_False by done. rewrite normalize_loop by done.
    eexists; split; [done|].
    assert (dict_keys (prod_map id (λ v, v / total)%Qc <$> d)
            = dict_keys d) as Hkeys.
    { unfold dict_keys. rewrite <-list_fmap_compose.
      by apply list_fmap_ext; intros ? []. }
    split; [done|]. split.
    + intros k v Hk. apply dict_get_elem; [by rewrite Hkeys|].
      apply list_elem_of_fmap. exists (k, v).
      split; [done | by apply dict_get_Some_elem].
    + assert (dict_values (prod_map id (λ v, v / total)%Qc <$> d)
              = divide (dict_values d) total) as ->.
      { unfold dict_values, divide. rewrite <-!list_fmap_compose.
        by apply list_fmap_ext; intros ? []. }
      rewrite np_sum_divide. fold total.
      unfold Qcdiv. by apply Qcmult_inv_r.
Qed.
End normalize_facts.

Lemma normalize_dictionary_spec_witness :
  let d : dict nat Qc := [(0, qc 1); (1, qc 3)] in
  NoDup (dict_keys d)
  ∧ (np_sum (dict_values d) ≠ 0%Qc →
     ∃ d', normalize_dictionary d = Ok d'
           ∧ dict_keys d' = dict_keys d
           ∧ (∀ k v, dict_get k d = Some v →
                     dict_get k d' = Some (v / np_sum (dict_values d))%Qc)
           ∧ np_sum (dict_values d') = 1%Qc).
Proof.
  intros d.
  assert (NoDup (dict_keys d)) as Hnd
    by (apply (bool_decide_unpack _); vm_compute; reflexivity).
  split; [exact Hnd|].
  exact (proj2 (normalize_dictionary_spec d Hnd)).
Defined.


(** ** [get_ids_by_age_dictionary] *)

Lemma py_max_spec (l : list nat) :
  l ≠ [] → ∃ m, py_max l = Ok m ∧ m ∈ l ∧ ∀ v, v ∈ l → v ≤ m.
Proof.
  destruct l as [|x l]; [done|]. intros _. simpl.
  exists (foldl Nat.max x l). split; [done|].
  enough (∀ acc, (foldl Nat.max acc l = acc ∨ foldl Nat.max acc l ∈ l)
                 ∧ acc ≤ foldl Nat.max acc l
                 ∧ ∀ v, v ∈ l → v ≤ foldl Nat.max acc l) as H.
  { destruct (H x) as ([->|?] & ? & ?).
    - split; [left|]. intros v [->|?]%elem_of_cons; auto.
    - split; [by right|]. intros v [->|?]%elem_of_cons; auto. }
  induction l as [|y l IH]; intros acc; simpl.
  - split; [by left|]. split; [done|]. by intros v ?%elem_of_nil.
  - destruct (IH (acc `max` y)) as (Hin & Hge & Hall).
    split; [|split].
    + destruct Hin as [->|?]; [|by do 2 right].
      destruct (Nat.max_spec acc y) as [[_ ->]|[_ ->]]; [right; left | by left].
    + lia.
    + intros v [->|?]%elem_of_cons; [lia | auto].
Qed.

Section ids_by_age_facts.
Context {Id : Type} `{!EqDecision Id}.
Implicit Types d : dict Id nat.

Lemma foldl_dict_set_keys {K V} `{!EqDecision K} (v : V)
    (ks : list K) (s : dict K V) :
  (∀ k, k ∈ ks → k ∈ dict_keys s) →
  dict_keys (foldl (λ acc i, dict_set i v acc) s ks) = dict_keys s.
Proof.
  revert s. induction ks as [|k ks IH]; intros s Hks; simpl; [done|].
  rewrite IH.
  - apply dict_set_keys, Hks. left.
  - intros k' Hk'. rewrite dict_set_keys by (apply Hks; left).
    apply Hks. by right.
Qed.

Lemma foldl_dict_set_get {K V} `{!EqDecision K} (v : V)
    (ks : list K) (s : dict K V) (a : K) :
  a ∈ ks → dict_get a (foldl (λ acc i, dict_set i v acc) s ks) = Some v.
Proof.
  revert s. induction ks as [|k ks IH]; intros s; simpl.
  - by intros ?%elem_of_nil.
  - intros Ha. destruct (decide (a ∈ ks)) as [|Hn]; [by apply IH|].
    apply elem_of_cons in Ha as [->|]; [|done].
    clear IH. revert s. induction ks as [|k' ks IH]; intros s; simpl.
    + rewrite dict_get_set. by rewrite decide_True.
    + apply not_elem_of_cons in Hn as [Hne Hn].
      specialize (IH Hn).
      assert (∀ s', dict_get k s' = Some v →
                dict_get k (foldl (λ acc i, dict_set i v acc) s' ks) = Some v)
        as Hkeep.
      { clear -Hn. revert Hn. induction ks as [|k'' ks IH]; intros Hn s' Hs';
          simpl; [done|].
        apply not_elem_of_cons in Hn as [? ?]. apply IH; [done|].
        rewrite dict_get_set. by rewrite decide_False. }
      apply Hkeep. rewrite dict_get_set, decide_False by done.
      rewrite dict_get_set. by rewrite decide_True.
Qed.

(** C9.  For a non-empty dictionary from identifiers to ages the index
    has exactly the ages from zero to the largest age as keys, in that
    order, and the list of an age holds the identifiers of that age in
    the iteration order of the input; the example of the specification
    evaluates as stated. *)
Theorem get_ids_by_age_dictionary_spec d :
  d ≠ [] →
  NoDup (dict_keys d) →
  ∃ max_val ids,
    max_val ∈ dict_values d
    ∧ (∀ v, v ∈ dict_values d → v ≤ max_val)
    ∧ get_ids_by_age_dictionary d = Ok ids
    ∧ dict_keys ids = seq 0 (max_val + 1)
    ∧ ∀ a, a ≤ max_val → dict_get a ids = Some (Some (ids_of_age a d)).
Proof.
  intros Hne Hnd. unfold get_ids_by_age_dictionary.
  destruct (py_max_spec (dict_values d)) as (m & -> & Hm & Hmax).
  { unfold dict_values. by destruct d. }
  cbn [mbind result_bind]. exists m.
  set (ids0 := dict_fromkeys (seq 0 (m + 1)) (None : option (list Id))).
  set (ids1 := foldl _ ids0 _).
  assert (dict_keys ids0 = seq 0 (m + 1)) as Hk0
    by apply dict_fromkeys_keys, NoDup_seq.
  assert (dict_keys ids1 = seq 0 (m + 1)) as Hk1.
  { unfold ids1. rewrite foldl_dict_set_keys; done. }
  assert (∀ a, a ≤ m → dict_get a ids1 = Some (Some [])) as Hg1.
  { intros a Ha. unfold ids1. apply foldl_dict_set_get.
    rewrite Hk0. apply elem_of_seq. lia. }
  destruct (for_in_invariant
    (λ done ids, dict_keys ids = seq 0 (m + 1)
       ∧ ∀ a, a ≤ m →
           dict_get a ids
           = Some (Some (filter (λ i, dict_get i d = Some a) done)))
    (dict_keys d)
    (λ i ids, a ← getitem i d; l ← getitem a ids;
       match l with
       | Some l => Ok (dict_set a (Some (l ++ [i])) ids)
       | None => Raise AttributeError
       end) ids1) as (ids & Hids & Hkeys & Hget).
  - split; [done|]. intros a Ha. by rewrite Hg1.
  - intros done i rest ids Hi [Hkeys Hget].
    assert (i ∈ dict_keys d) as [a' Ha']%dict_get_is_Some
      by (rewrite Hi; apply elem_of_app; right; left).
    assert (a' ≤ m) as Hle.
    { apply Hmax. apply list_elem_of_fmap. exists (i, a').
      split; [done | by apply dict_get_Some_elem]. }
    rewrite (proj2 (getitem_Ok d i a') Ha'). cbn [mbind result_bind].
    rewrite (proj2 (getitem_Ok ids a' _) (Hget a' Hle)).
    cbn [mbind result_bind].
    eexists; split; [done|]. split.
    + rewrite dict_set_keys; [done|]. apply dict_get_is_Some.
      by rewrite (Hget a' Hle).
    + intros a Ha. rewrite dict_get_set, filter_app.
      destruct (decide (a = a')) as [->|Hne'].
      * rewrite filter_cons_True by done. done.
      * rewrite Hget by done. rewrite filter_cons_False by congruence.
        by rewrite filter_nil, app_nil_r.
  - eauto 10.
Qed.

(** C10.  On the empty dictionary the maximum of no ages is asked for and
    the function raises [ValueError]; it returns no index. *)
Theorem get_ids_by_age_dictionary_empty :
  get_ids_by_age_dictionary ([] : dict Id nat) = Raise ValueError.
Proof. reflexivity. Qed.
End ids_by_age_facts.

Lemma get_ids_by_age_dictionary_spec_witness :
  let d : dict nat nat := [(0, 0); (1, 0); (2, 1)] in
  get_ids_by_age_dictionary d = Ok [(0, Some [0; 1]); (1, Some [2])]
  ∧ ∃ max_val ids,
      max_val ∈ dict_values d
      ∧ (∀ v, v ∈ dict_values d → v ≤ max_val)
      ∧ get_ids_by_age_dictionary d = Ok ids
      ∧ dict_keys ids = seq 0 (max_val + 1)
      ∧ ∀ a, a ≤ max_val → dict_get a ids = Some (Some (ids_of_age a d)).
Proof.
  intros d. split; [reflexivity|].
  apply (get_ids_by_age_dictionary_spec d).
  - discriminate.
  - apply (bool_decide_unpack _). vm_compute. reflexivity.
Defined.


(** ** [get_aggregate_ages] *)

Lemma elem_of_value_set (d : dict nat nat) (b : nat) :
  b ∈ elements (value_set d) ↔ b ∈ dict_values d.
Proof. unfold value_set. by rewrite elem_of_elements, elem_of_list_to_set. Qed.

(** C3.  When every age of [ages] has a bracket, the result has exactly
    the bracket identifiers that occur as values of the age-to-bracket
    dictionary as keys, each once; a bracket that no age of [ages] falls
    in holds zero; and the values sum to the sum of the values of
    [ages]. *)
Theorem get_aggregate_ages_spec (ages : dict nat Qc)
    (age_by_brackets_dictionary : dict nat nat) :
  NoDup (dict_keys ages) →
  (∀ a, a ∈ dict_keys ages → a ∈ dict_keys age_by_brackets_dictionary) →
  ∃ aggregate_ages,
    get_aggregate_ages ages age_by_brackets_dictionary = Ok aggregate_ages
    ∧ NoDup (dict_keys aggregate_ages)
    ∧ (∀ b, b ∈ dict_keys aggregate_ages
            ↔ b ∈ dict_values age_by_brackets_dictionary)
    ∧ (∀ b, b ∈ dict_keys aggregate_ages →
            (∀ a, a ∈ dict_keys ages →
                  dict_get a age_by_brackets_dictionary ≠ Some b) →
            dict_get b aggregate_ages = Some 0%Qc)
    ∧ np_sum (dict_values aggregate_ages) = np_sum (dict_values ages).
Proof.
  intros Hnd Hcover. unfold get_aggregate_ages.
  set (abd := age_by_brackets_dictionary) in *.
  set (ks := elements (value_set abd)).
  assert (NoDup ks) as Hks by apply NoDup_elements.
  destruct (for_in_invariant
    (λ done agg,
       dict_keys agg = ks
       ∧ np_sum (dict_values agg)
         = np_sum ((λ a, default 0%Qc (dict_get a ages)) <$> done)
       ∧ ∀ b, b ∈ ks →
              (∀ a, a ∈ done → dict_get a abd ≠ Some b) →
              dict_get b agg = Some 0%Qc)
    (dict_keys ages)
    (λ a agg, b ← getitem a abd; old ← getitem b agg; n ← getitem a ages;
       Ok (dict_set b (old + n)%Qc agg))
    (dict_fromkeys ks 0%Qc)) as (agg & Hagg & Hkeys & Hsum & Hzero).
  - split; [by apply dict_fromkeys_keys|]. split.
    + by rewrite dict_fromkeys_sum.
    + intros b Hb _. by apply dict_fromkeys_get.
  - intros done a rest agg Hsplit (Hkeys & Hsum & Hzero).
    assert (a ∈ dict_keys ages) as Ha
      by (rewrite Hsplit; apply elem_of_app; right; left).
    destruct (proj2 (dict_get_is_Some abd a) (Hcover a Ha)) as [b Hb].
    destruct (proj2 (dict_get_is_Some ages a) Ha) as [n Hn].
    assert (b ∈ ks) as Hbk.
    { apply elem_of_value_set, list_elem_of_fmap. exists (a, b).
      split; [done | by apply dict_get_Some_elem]. }
    destruct (proj2 (dict_get_is_Some agg b)) as [old Hold];
      [by rewrite Hkeys|].
    rewrite (proj2 (getitem_Ok abd a b) Hb). cbn [mbind result_bind].
    rewrite (proj2 (getitem_Ok agg b old) Hold). cbn [mbind result_bind].
    rewrite (proj2 (getitem_Ok ages a n) Hn). cbn [mbind result_bind].
    eexists; split; [done|]. split; [|split].
    + rewrite dict_set_keys; [done | by rewrite Hkeys].
    + rewrite (dict_set_sum agg b old) by done.
      rewrite fmap_app, np_sum_app, Hsum. simpl. rewrite Hn. simpl. ring.
    + intros b' Hb' Hnone. rewrite dict_get_set.
      rewrite decide_False.
      * apply Hzero; [done|]. intros a' Ha'. apply Hnone.
        apply elem_of_app. by left.
      * intros ->. apply (Hnone a); [|done]. apply elem_of_app. right. left.
  - exists agg. split; [done|]. rewrite Hkeys. split; [done|].
    split; [intros b; apply elem_of_value_set|]. split.
    + intros b Hb Hnone. by apply Hzero.
    + by rewrite Hsum, dict_values_lookup.
Qed.

Lemma get_aggregate_ages_spec_witness :
  let ages : dict nat Qc := [(0, qc 10); (1, qc 20); (2, qc 30)] in
  let age_by_brackets_dictionary : dict nat nat := [(0, 0); (1, 0); (2, 1)] in
  ∃ aggregate_ages,
    get_aggregate_ages ages age_by_brackets_dictionary = Ok aggregate_ages
    ∧ NoDup (dict_keys aggregate_ages)
    ∧ (∀ b, b ∈ dict_keys aggregate_ages
            ↔ b ∈ dict_values age_by_brackets_dictionary)
    ∧ (∀ b, b ∈ dict_keys aggregate_ages →
            (∀ a, a ∈ dict_keys ages →
                  dict_get a age_by_brackets_dictionary ≠ Some b) →
            dict_get b aggregate_ages = Some 0%Qc)
    ∧ np_sum (dict_values aggregate_ages) = np_sum (dict_values ages).
Proof.
  intros ages abd. apply (get_aggregate_ages_spec ages abd).
  - apply (bool_decide_unpack _). vm_compute. reflexivity.
  - apply Forall_forall. apply (bool_decide_unpack _). vm_compute.
    reflexivity.
Defined.


(** ** [get_aggregate_age_dictionary_conversion] *)

(** An exception of a loop is an exception of its body. *)
Lemma for_in_Raise {A S} (xs : list A) (body : A → S → result S) (s : S)
    (e : exn) :
  for_in xs body s = Raise e → ∃ x s', x ∈ xs ∧ body x s' = Raise e.
Proof.
  revert s. induction xs as [|x xs IH]; intros s; simpl; [done|].
  destruct (body x s) as [s1|e1] eqn:Hb; simpl.
  - intros (y & s' & ? & ?)%IH. exists y, s'. split; [by right | done].
  - intros [= ->]. exists x, s. split; [left | done].
Qed.

Lemma getitem_Raise {K V} `{!EqDecision K} (k : K) (d : dict K V) (e : exn) :
  getitem k d = Raise e → e = KeyError.
Proof. unfold getitem. destruct (dict_get k d); congruence. Qed.

(** C5.  With fewer larger brackets than smaller ones the conversion
    raises [NotImplementedError].  Otherwise it does not raise that
    exception; and when every larger bracket has a first age, that age
    has a smaller bracket and the bracket has a count, the result has
    the smaller brackets as keys and each holds the total of the larger
    brackets whose first age falls in it. *)
Theorem get_aggregate_age_dictionary_conversion_spec
    (larger_aggregate_ages : dict nat Qc)
    (larger_age_brackets smaller_age_brackets : dict nat (list nat))
    (age_by_larger age_by_smaller : dict nat nat) :
  let conversion :=
    get_aggregate_age_dictionary_conversion larger_aggregate_ages
      larger_age_brackets smaller_age_brackets age_by_larger age_by_smaller in
  (length larger_age_brackets < length smaller_age_brackets →
   conversion = Raise NotImplementedError)
  ∧ (length smaller_age_brackets ≤ length larger_age_brackets →
     conversion ≠ Raise NotImplementedError
     ∧ (NoDup (dict_keys smaller_age_brackets) →
        (∀ lb, lb ∈ dict_keys larger_age_brackets →
           lb ∈ dict_keys larger_aggregate_ages
           ∧ ∃ sb, representative_bracket larger_age_brackets
                     age_by_smaller lb = Some sb
                   ∧ sb ∈ dict_keys smaller_age_brackets) →
        ∃ smaller_aggregate_ages,
          conversion = Ok smaller_aggregate_ages
          ∧ dict_keys smaller_aggregate_ages
            = dict_keys smaller_age_brackets
          ∧ ∀ sb, sb ∈ dict_keys smaller_age_brackets →
              dict_get sb smaller_aggregate_ages
              = Some (attributed larger_aggregate_ages larger_age_brackets
                        age_by_smaller sb))).
Proof.
  intros conversion. subst conversion.
  unfold get_aggregate_age_dictionary_conversion.
  set (lagg := larger_aggregate_ages). set (lbr := larger_age_brackets).
  set (sbr := smaller_age_brackets). split.
  - intros Hlt. by rewrite decide_True.
  - intros Hle. rewrite decide_False by lia. split.
    + intros (lb & s' & _ & Hbody)%for_in_Raise. revert Hbody.
      destruct (getitem lb lbr) as [bracket|] eqn:E1;
        [|apply getitem_Raise in E1; by subst].
      cbn [mbind result_bind]. destruct bracket as [|a bracket]; [done|].
      cbn [first_item mbind result_bind].
      destruct (getitem a age_by_smaller) as [sb|] eqn:E2;
        [|apply getitem_Raise in E2; by subst].
      cbn [mbind result_bind].
      destruct (getitem sb s') as [old|] eqn:E3;
        [|apply getitem_Raise in E3; by subst].
      cbn [mbind result_bind].
      destruct (getitem lb lagg) as [n|] eqn:E4;
        [|apply getitem_Raise in E4; by subst].
      done.
    + intros Hnd Hwf.
      destruct (for_in_invariant
        (λ done agg,
           dict_keys agg = dict_keys sbr
           ∧ ∀ sb, sb ∈ dict_keys sbr →
               dict_get sb agg
               = Some (np_sum
                   ((λ lb, default 0%Qc (dict_get lb lagg))
                      <$> filter
                            (λ lb, representative_bracket lbr
                                     age_by_smaller lb = Some sb)
                            done)))
        (dict_keys lbr)
        (λ lb agg,
           bracket ← getitem lb lbr;
           a ← first_item bracket;
           sb ← getitem a age_by_smaller;
           old ← getitem sb agg;
           n ← getitem lb lagg;
           Ok (dict_set sb (old + n)%Qc agg))
        (dict_fromkeys (dict_keys sbr) 0%Qc)) as (agg & Hagg & Hkeys & Hget).
      * split; [by apply dict_fromkeys_keys|].
        intros sb Hsb. by apply dict_fromkeys_get.
      * intros done lb rest agg Hsplit [Hkeys Hget].
        assert (lb ∈ dict_keys lbr) as Hlb
          by (rewrite Hsplit; apply elem_of_app; right; left).
        destruct (Hwf lb Hlb) as ([n Hn]%dict_get_is_Some & sb & Hrep & Hsb).
        pose proof Hrep as Hrep'. unfold representative_bracket in Hrep'.
        destruct (dict_get lb lbr) as [bracket|] eqn:E1; [|done].
        destruct bracket as [|a bracket]; [done|]. simpl in Hrep'.
        rewrite (proj2 (getitem_Ok lbr lb _) E1).
        cbn [mbind result_bind first_item].
        rewrite (proj2 (getitem_Ok age_by_smaller a sb) Hrep').
        cbn [mbind result_bind].
        rewrite (proj2 (getitem_Ok agg sb _) (Hget sb Hsb)).
        cbn [mbind result_bind].
        rewrite (proj2 (getitem_Ok lagg lb n) Hn). cbn [mbind result_bind].
        eexists; split; [done|]. split.
        -- rewrite dict_set_keys; [done | by rewrite Hkeys].
        -- intros sb' Hsb'. rewrite dict_get_set, filter_app, fmap_app.
           rewrite np_sum_app. destruct (decide (sb' = sb)) as [->|Hne].
           ++ rewrite filter_cons_True by done. simpl. rewrite Hn. simpl.
              do 2 f_equal. ring.
           ++ rewrite filter_cons_False by congruence.
              rewrite Hget by done. simpl. do 2 f_equal. ring.
      * eauto.
Qed.

Lemma get_aggregate_age_dictionary_conversion_spec_witness :
  let larger_aggregate_ages : dict nat Qc :=
    [(0, qc 1); (1, qc 2); (2, qc 3)] in
  let larger_age_brackets : dict nat (list nat) :=
    [(0, [0; 1]); (1, [2; 3]); (2, [4])] in
  let smaller_age_brackets : dict nat (list nat) :=
    [(0, [0; 1; 2; 3]); (1, [4])] in
  let age_by_smaller : dict nat nat :=
    [(0, 0); (1, 0); (2, 0); (3, 0); (4, 1)] in
  ∃ smaller_aggregate_ages,
    get_aggregate_age_dictionary_conversion larger_aggregate_ages
      larger_age_brackets smaller_age_brackets [] age_by_smaller
    = Ok smaller_aggregate_ages
    ∧ dict_keys smaller_aggregate_ages = dict_keys smaller_age_brackets
    ∧ ∀ sb, sb ∈ dict_keys smaller_age_brackets →
        dict_get sb smaller_aggregate_ages
        = Some (attributed larger_aggregate_ages larger_age_brackets
                  age_by_smaller sb).
Proof.
  intros lagg lbr sbr abs.
  apply (get_aggregate_age_dictionary_conversion_spec lagg lbr sbr [] abs).
  - vm_compute. lia.
  - apply (bool_decide_unpack _). vm_compute. reflexivity.
  - apply Forall_forall. change (dict_keys lbr) with [0; 1; 2].
    constructor; [|constructor; [|constructor; [|constructor]]];
      (split; [apply (bool_decide_unpack _); vm_compute; reflexivity|]).
    + exists 0. split; [reflexivity|].
      apply (bool_decide_unpack _). vm_compute. reflexivity.
    + exists 0. split; [reflexivity|].
      apply (bool_decide_unpack _). vm_compute. reflexivity.
    + exists 1. split; [reflexivity|].
      apply (bool_decide_unpack _). vm_compute. reflexivity.
Defined.

(** ** Arrays *)

Lemma item_Ok {A} (i : nat) (v : list A) (x : A) :
  v !! i = Some x → item i v = Ok x.
Proof. unfold item. by intros ->. Qed.

Lemma item2_Ok (i j : nat) (M : matrix) (x : Qc) :
  cell i j M = Some x → item2 i j M = Ok x.
Proof.
  unfold cell, item2, item. destruct (M !! i) as [row|]; [|done]. simpl.
  by intros ->.
Qed.

Lemma alter_insert {A} (f : A → A) (i : nat) (l : list A) (x : A) :
  l !! i = Some x → alter f i l = <[i := f x]> l.
Proof.
  revert i. induction l as [|y l IH]; intros [|i] H; simplify_eq/=; [done|].
  f_equal. by apply IH.
Qed.

Lemma is_matrix_lookup (r c : nat) (M : matrix) (i : nat) (row : list Qc) :
  is_matrix r c M → M !! i = Some row → length row = c.
Proof. intros [_ H] Hi. by apply (Forall_lookup_1 _ _ _ _ H Hi). Qed.

Lemma is_matrix_cell (r c : nat) (M : matrix) (i j : nat) :
  is_matrix r c M → i < r → j < c → is_Some (cell i j M).
Proof.
  intros HM Hi Hj. unfold cell.
  destruct (lookup_lt_is_Some_2 M i) as [row Hrow]; [destruct HM; lia|].
  rewrite Hrow. simpl. apply lookup_lt_is_Some_2.
  by rewrite (is_matrix_lookup r c M i row).
Qed.

Lemma is_matrix_np_full (r c : nat) (x : Qc) : is_matrix r c (np_full r c x).
Proof.
  split; [apply length_replicate|].
  apply Forall_replicate, length_replicate.
Qed.

Lemma matrix_sum_np_zeros (r c : nat) : matrix_sum (np_zeros r c) = 0%Qc.
Proof.
  unfold matrix_sum, np_zeros, np_full.
  assert (np_sum (replicate c 0%Qc) = 0%Qc) as Hrow.
  { induction c as [|c IH]; [done|]. cbn [replicate]. unfold np_sum in *.
    cbn [foldr]. rewrite IH. ring. }
  induction r as [|r IH]; [done|]. cbn [replicate]. rewrite fmap_cons.
  unfold np_sum in *. cbn [foldr]. rewrite IH, Hrow. ring.
Qed.

(** [M[i][j] = v] keeps the shape and moves the sum by [v - M[i][j]]. *)
Lemma set_item2_spec (r c : nat) (M : matrix) (i j : nat) (old v : Qc) :
  is_matrix r c M → cell i j M = Some old →
  is_matrix r c (set_item2 i j v M)
  ∧ matrix_sum (set_item2 i j v M) = (matrix_sum M - old + v)%Qc.
Proof.
  intros HM Hc. unfold cell in Hc.
  destruct (M !! i) as [row|] eqn:Hrow; [|done]. simpl in Hc.
  unfold set_item2. rewrite (alter_insert _ i M row) by done. split.
  - destruct HM as [Hlen Hrows]. split; [by rewrite length_insert|].
    apply Forall_insert; [done|]. rewrite length_insert.
    by apply (Forall_lookup_1 _ _ _ _ Hrows Hrow).
  - unfold matrix_sum. rewrite list_fmap_insert.
    rewrite (np_sum_insert _ i (np_sum row)) by (by rewrite list_lookup_fmap, Hrow).
    rewrite (np_sum_insert row j old) by done. ring.
Qed.

Lemma seq_split (n : nat) (done : list nat) (x : nat) (rest : list nat) :
  seq 0 n = done ++ x :: rest → x = length done ∧ x < n.
Proof.
  intros H.
  assert (seq 0 n !! length done = Some x) as Hx
    by (rewrite H; apply list_lookup_middle; done).
  apply lookup_seq in Hx. lia.
Qed.

Lemma np_sum_take_S (l : list Qc) (i : nat) (x : Qc) :
  l !! i = Some x → np_sum (take (S i) l) = (np_sum (take i l) + x)%Qc.
Proof.
  intros H. rewrite (take_S_r l i x) by done. rewrite np_sum_app.
  unfold np_sum. cbn [foldr]. ring.
Qed.

(** ** [get_aggregate_matrix] *)

Lemma size_value_set (d : dict nat nat) (k : nat) :
  (∀ b, b ∈ dict_values d ↔ b < k) → size (value_set d) = k.
Proof.
  intros Hk.
  assert (value_set d = list_to_set (seq 0 k)) as ->.
  { apply set_eq. intros b. unfold value_set.
    rewrite !elem_of_list_to_set, Hk, elem_of_seq. lia. }
  rewrite size_list_to_set by apply NoDup_seq. apply length_seq.
Qed.

(** C2.  For a square matrix whose indices all have a bracket, the
    bracket identifiers in use being [0 .. k-1], the aggregate is a
    [k × k] matrix with the same sum of cells. *)
Theorem get_aggregate_matrix_sum (N k : nat) (M : matrix)
    (age_by_brackets_dictionary : dict nat nat) :
  is_matrix N N M →
  (∀ i, i < N → i ∈ dict_keys age_by_brackets_dictionary) →
  (∀ b, b ∈ dict_values age_by_brackets_dictionary ↔ b < k) →
  ∃ M_agg,
    get_aggregate_matrix M age_by_brackets_dictionary = Ok M_agg
    ∧ is_matrix k k M_agg
    ∧ matrix_sum M_agg = matrix_sum M.
Proof.
  intros HM Hkeys Hvals. unfold get_aggregate_matrix.
  set (abd := age_by_brackets_dictionary) in *.
  rewrite (size_value_set abd k) by done.
  destruct HM as [HN Hrows]. rewrite HN.
  assert (∀ i, i < N → ∃ b, getitem i abd = Ok b ∧ b < k) as Hbr.
  { intros i Hi. destruct (proj2 (dict_get_is_Some abd i) (Hkeys i Hi))
      as [b Hb].
    exists b. split; [by apply getitem_Ok|]. apply Hvals.
    apply list_elem_of_fmap. exists (i, b).
    split; [done | by apply dict_get_Some_elem]. }
  destruct (for_in_invariant
    (λ done M_agg,
       is_matrix k k M_agg
       ∧ matrix_sum M_agg = np_sum (np_sum <$> take (length done) M))
    (seq 0 N)
    (λ i M_agg,
       bi ← getitem i abd;
       for_in (seq 0 N)
         (λ j M_agg,
            bj ← getitem j abd;
            old ← item2 bi bj M_agg;
            x ← item2 i j M;
            Ok (set_item2 bi bj (old + x)%Qc M_agg))
         M_agg)
    (np_zeros k k)) as (M_agg & Hres & Hshape & Hsum).
  - split; [apply is_matrix_np_full | apply matrix_sum_np_zeros].
  - intros done i rest M_agg [-> Hi]%seq_split [Hshape Hsum].
    destruct (Hbr _ Hi) as (bi & -> & Hbi). cbn [mbind result_bind].
    destruct (lookup_lt_is_Some_2 M (length done)) as [row Hrow]; [lia|].
    assert (length row = N) as Hlen
      by apply (Forall_lookup_1 _ _ _ _ Hrows Hrow).
    destruct (for_in_invariant
      (λ done' M_agg',
         is_matrix k k M_agg'
         ∧ matrix_sum M_agg'
           = (matrix_sum M_agg + np_sum (take (length done') row))%Qc)
      (seq 0 N)
      (λ j M_agg,
         bj ← getitem j abd;
         old ← item2 bi bj M_agg;
         x ← item2 (length done) j M;
         Ok (set_item2 bi bj (old + x)%Qc M_agg))
      M_agg) as (M_agg' & Hres' & Hshape' & Hsum').
    + split; [done|]. simpl. ring.
    + intros done' j rest' M1 [-> Hj]%seq_split [Hshape1 Hsum1].
      destruct (Hbr _ Hj) as (bj & -> & Hbj). cbn [mbind result_bind].
      destruct (is_matrix_cell k k M1 bi bj) as [old Hold]; [done..|].
      rewrite (item2_Ok _ _ _ _ Hold). cbn [mbind result_bind].
      destruct (lookup_lt_is_Some_2 row (length done')) as [x Hx]; [lia|].
      rewrite (item2_Ok (length done) (length done') M x)
        by (unfold cell; by rewrite Hrow).
      cbn [mbind result_bind]. eexists; split; [done|].
      destruct (set_item2_spec k k M1 bi bj old (old + x)%Qc) as [? ->];
        [done..|].
      split; [done|]. rewrite length_app. simpl.
      rewrite Nat.add_1_r, (np_sum_take_S row _ x), Hsum1 by done. ring.
    + exists M_agg'. split; [done|]. split; [done|].
      rewrite Hsum', length_seq, take_ge, Hsum, length_app by lia.
      simpl. rewrite Nat.add_1_r.
      rewrite (take_S_r M _ row), fmap_app, np_sum_app by done.
      unfold np_sum. cbn [foldr fmap list_fmap]. ring.
  - exists M_agg. split; [done|]. split; [done|].
    rewrite Hsum, length_seq, take_ge by lia. done.
Qed.

Lemma get_aggregate_matrix_sum_witness :
  let M : matrix :=
    [[qc 1; qc 2; qc 3]; [qc 2; qc 5; qc 6]; [qc 3; qc 6; qc 9]] in
  let age_by_brackets_dictionary : dict nat nat := [(0, 0); (1, 0); (2, 1)] in
  ∃ M_agg,
    get_aggregate_matrix M age_by_brackets_dictionary = Ok M_agg
    ∧ is_matrix 2 2 M_agg
    ∧ matrix_sum M_agg = matrix_sum M.
Proof.
  intros M abd. apply (get_aggregate_matrix_sum 3 2 M abd).
  - split; [reflexivity|]. apply (bool_decide_unpack _). vm_compute.
    reflexivity.
  - intros i Hi. apply (bool_decide_unpack _).
    destruct i as [|[|[|i]]]; [vm_compute; reflexivity..|lia].
  - intros b. split.
    + intros Hb. apply (bool_decide_pack _) in Hb. vm_compute in Hb.
      destruct b as [|[|b]]; [lia..|]. simpl in Hb. done.
    + intros Hb. apply (bool_decide_unpack _).
      destruct b as [|[|b]]; [vm_compute; reflexivity..|lia].
Defined.


(** ** Arrays, cell by cell *)

Lemma length_lookup_eq {A B} (l : list A) (k : list B) :
  (∀ i, is_Some (l !! i) ↔ is_Some (k !! i)) → length l = length k.
Proof.
  intros H. destruct (Nat.lt_trichotomy (length l) (length k)) as [?|[?|?]];
    [|done|].
  - destruct (lookup_lt_is_Some_2 k (length l)) as [x Hx]; [done|].
    assert (is_Some (l !! length l)) as ?%lookup_lt_is_Some by (apply H; eauto).
    lia.
  - destruct (lookup_lt_is_Some_2 l (length k)) as [x Hx]; [done|].
    assert (is_Some (k !! length k)) as ?%lookup_lt_is_Some by (apply H; eauto).
    lia.
Qed.

Lemma cells_row (r c : nat) (M : matrix) g (i : nat) (row : list Qc) :
  cells r c M g → M !! i = Some row →
  length row = c ∧ ∀ j, j < c → row !! j = Some (g i j).
Proof.
  intros [HM Hg] Hrow. split; [by apply (is_matrix_lookup r c M i)|].
  intros j Hj. assert (i < r) as Hi.
  { destruct HM as [<- _]. by apply lookup_lt_is_Some. }
  specialize (Hg i j Hi Hj). unfold cell in Hg. by rewrite Hrow in Hg.
Qed.

(** An array obtained row by row from another one. *)
Lemma cells_rowwise (r c : nat) (M M' : matrix) g g'
    (h : nat → list Qc → list Qc) :
  cells r c M g →
  (∀ i, M' !! i = h i <$> M !! i) →
  (∀ i row, i < r → length row = c →
     (∀ j, j < c → row !! j = Some (g i j)) →
     length (h i row) = c ∧ ∀ j, j < c → h i row !! j = Some (g' i j)) →
  cells r c M' g'.
Proof.
  intros HMg HM' Hh. pose proof HMg as [[Hlen Hrows] Hg].
  assert (length M' = r) as Hlen'.
  { rewrite <-Hlen. apply length_lookup_eq. intros i. rewrite HM'.
    by rewrite fmap_is_Some. }
  assert (∀ i row', M' !! i = Some row' →
            ∃ row, M !! i = Some row ∧ row' = h i row ∧ i < r) as Hinv.
  { intros i row' Hi. rewrite HM' in Hi.
    destruct (M !! i) as [row|] eqn:Hrow; [|done].
    simpl in Hi. exists row. split; [done|]. split; [congruence|].
    rewrite <-Hlen. apply lookup_lt_is_Some. eauto. }
  split; [split; [done|] |].
  - apply Forall_lookup. intros i row' (row & Hrow & -> & Hi)%Hinv.
    destruct (cells_row r c M g i row HMg Hrow) as [Hl Hc].
    by destruct (Hh i row Hi Hl Hc).
  - intros i j Hi Hj. unfold cell.
    destruct (lookup_lt_is_Some_2 M' i) as [row' Hrow']; [lia|].
    rewrite Hrow'. simpl.
    destruct (Hinv i row' Hrow') as (row & Hrow & -> & _).
    destruct (cells_row r c M g i row HMg Hrow) as [Hl Hc].
    destruct (Hh i row Hi Hl Hc) as [_ Hc']. by apply Hc'.
Qed.

Lemma cells_ext (r c : nat) (M : matrix) g g' :
  cells r c M g → (∀ i j, i < r → j < c → g i j = g' i j) → cells r c M g'.
Proof.
  intros [HM Hg] Heq. split; [done|]. intros i j Hi Hj.
  rewrite <-Heq by done. by apply Hg.
Qed.

Lemma cells_np_full (r c : nat) (x : Qc) : cells r c (np_full r c x) (λ _ _, x).
Proof.
  split; [apply is_matrix_np_full|]. intros i j Hi Hj. unfold cell, np_full.
  rewrite lookup_replicate_2 by done. simpl. by apply lookup_replicate_2.
Qed.

(** [M[a, :] = M[a, :] * n] *)
Lemma cells_scale_row (r c : nat) (M : matrix) g (a : nat) (n : Qc) :
  cells r c M g → a < r →
  ∃ row, item a M = Ok row
         ∧ cells r c (<[a := scale row n]> M)
             (λ i j, if decide (i = a) then g i j * n else g i j)%Qc.
Proof.
  intros HMg Ha. pose proof HMg as [[Hlen _] _].
  destruct (lookup_lt_is_Some_2 M a) as [row Hrow]; [lia|].
  exists row. split; [by apply item_Ok|].
  apply (cells_rowwise r c M _ g _
           (λ i row', if decide (i = a) then scale row' n else row'));
    [done | |].
  - intros i. rewrite list_lookup_insert.
    destruct (decide (i = a)) as [->|].
    + rewrite decide_True by (split; [done | lia]). by rewrite Hrow.
    + rewrite decide_False by (intros [? _]; done). by destruct (M !! i).
  - intros i row' Hi Hl Hc. destruct (decide (i = a)) as [->|]; [|done].
    unfold scale. split; [by rewrite length_fmap|].
    intros j Hj. by rewrite list_lookup_fmap, Hc.
Qed.

(** [M[:, a] = M[:, a] * n] *)
Lemma cells_scale_column (r c : nat) (M : matrix) g (a : nat) (n : Qc) :
  cells r c M g → a < c →
  ∃ col, column a M = Ok col
         ∧ cells r c (set_column a (scale col n) M)
             (λ i j, if decide (j = a) then g i j * n else g i j)%Qc.
Proof.
  intros HMg Ha. pose proof HMg as [[Hlen Hrows] _].
  exists ((λ row, default 0%Qc (row !! a)) <$> M). split.
  { apply comprehension_Ok. intros row [i Hi]%list_elem_of_lookup.
    destruct (cells_row r c M g i row HMg Hi) as [_ Hc].
    apply item_Ok. by rewrite (Hc a Ha). }
  apply (cells_rowwise r c M _ g _
           (λ i row, <[a := (default 0 (row !! a) * n)%Qc]> row)); [done | |].
  - intros i. unfold set_column, scale.
    rewrite lookup_zip_with, !list_lookup_fmap. by destruct (M !! i).
  - intros i row Hi Hl Hc. split; [by rewrite length_insert|].
    intros j Hj. rewrite list_lookup_insert.
    destruct (decide (j = a)) as [->|].
    + rewrite decide_True by (split; [done | lia]). by rewrite Hc.
    + rewrite decide_False by (intros [? _]; done). by apply Hc.
Qed.

(** [M[a][b] = v] *)
Lemma cells_set_item2 (r c : nat) (M : matrix) g (a b : nat) (v : Qc) :
  cells r c M g → a < r → b < c →
  item2 a b M = Ok (g a b)
  ∧ cells r c (set_item2 a b v M)
      (λ i j, if decide (i = a ∧ j = b) then v else g i j).
Proof.
  intros HMg Ha Hb. pose proof HMg as [_ Hg]. split.
  { apply item2_Ok. by apply Hg. }
  apply (cells_rowwise r c M _ g _
           (λ i row, if decide (i = a) then <[b := v]> row else row));
    [done | |].
  - intros i. unfold set_item2. rewrite list_lookup_alter.
    destruct (decide (a = i)) as [Heq|Hne], (decide (i = a)) as [Heq'|Hne'];
      try congruence; by destruct (M !! i).
  - intros i row Hi Hl Hc. destruct (decide (i = a)) as [->|].
    + split; [by rewrite length_insert|]. intros j Hj.
      rewrite list_lookup_insert. destruct (decide (j = b)) as [->|].
      * by rewrite !decide_True by (split; [done | lia]).
      * rewrite !decide_False by (intros [? ?]; done). by apply Hc.
    + split; [done|]. intros j Hj. rewrite decide_False by (intros [? ?]; done).
      by apply Hc.
Qed.

(** [M / d] *)
Lemma cells_divide_all (r c : nat) (M : matrix) g (d : Qc) :
  cells r c M g → cells r c (divide_all M d) (λ i j, g i j / d)%Qc.
Proof.
  intros HMg.
  apply (cells_rowwise r c M _ g _ (λ _ row, divide row d)); [done | |].
  - intros i. unfold divide_all. by rewrite list_lookup_fmap.
  - intros i row Hi Hl Hc. unfold divide. split; [by rewrite length_fmap|].
    intros j Hj. by rewrite list_lookup_fmap, Hc.
Qed.

Lemma cell_outside (r c : nat) (M : matrix) (i j : nat) :
  is_matrix r c M → r ≤ i ∨ c ≤ j → cell i j M = None.
Proof.
  intros HM Hout. unfold cell. destruct (M !! i) as [row|] eqn:Hrow; [|done].
  simpl. apply lookup_ge_None. rewrite (is_matrix_lookup r c M i row) by done.
  destruct Hout as [Hi|Hj]; [|done].
  apply lookup_lt_Some in Hrow. destruct HM as [HM _]. lia.
Qed.

(** ** [get_symmetric_community_matrix] *)

Section community.
Variable ages : dict nat Qc.

(** The size of cohort [i]. *)
Let size (i : nat) : Qc := default 0%Qc (dict_get i ages).
(** The factor of index [i] once the rows and columns below [a] are scaled. *)
Let weight (a i : nat) : Qc := if decide (i < a) then size i else 1%Qc.

Hypothesis ages_keys : ∀ a, a ∈ dict_keys ages ↔ a < length ages.

Lemma getitem_size (a : nat) : a < length ages → getitem a ages = Ok (size a).
Proof.
  intros Ha. apply getitem_Ok. unfold size.
  destruct (proj2 (dict_get_is_Some ages a)) as [n ->]; [by apply ages_keys|].
  done.
Qed.

Lemma community_outer_product :
  ∃ M, for_in (seq 0 (length ages))
         (λ a M,
            row ← item a M;
            n ← getitem a ages;
            let M := <[a := scale row n]> M in
            col ← column a M;
            n ← getitem a ages;
            Ok (set_column a (scale col n) M))
         (np_ones (length ages) (length ages)) = Ok M
       ∧ cells (length ages) (length ages) M (λ i j, size i * size j)%Qc.
Proof.
  set (N := length ages).
  destruct (for_in_invariant
    (λ done M,
       cells N N M (λ i j, weight (length done) i * weight (length done) j)%Qc)
    (seq 0 N)
    (λ a M,
       row ← item a M;
       n ← getitem a ages;
       let M := <[a := scale row n]> M in
       col ← column a M;
       n ← getitem a ages;
       Ok (set_column a (scale col n) M))
    (np_ones N N)) as (M & HM & Hcells).
  - apply (cells_ext N N _ (λ _ _, 1%Qc)); [apply cells_np_full|].
    intros i j _ _. unfold weight. simpl. ring.
  - intros done a rest M [-> Ha]%seq_split HMg.
    destruct (cells_scale_row N N M _ (length done) (size (length done))
                HMg Ha) as (row & -> & HM1).
    cbn [mbind result_bind]. rewrite getitem_size by done.
    cbn [mbind result_bind].
    destruct (cells_scale_column N N _ _ (length done) (size (length done))
                HM1 Ha) as (col & -> & HM2).
    cbn [mbind result_bind]. eexists; split; [done|].
    eapply cells_ext; [exact HM2|].
    intros i j _ _. rewrite length_app. simpl. unfold weight.
    repeat case_decide; try lia; subst; ring.
  - exists M. split; [done|]. eapply cells_ext; [exact Hcells|].
    intros i j Hi Hj. simpl. rewrite length_seq. unfold weight.
    by rewrite !decide_True by done.
Qed.

Lemma community_self_exclusion (M : matrix) :
  cells (length ages) (length ages) M (λ i j, size i * size j)%Qc →
  ∃ M', for_in (seq 0 (length ages))
          (λ a M,
             old ← item2 a a M;
             n ← getitem a ages;
             Ok (set_item2 a a (old - n)%Qc M))
          M = Ok M'
        ∧ cells (length ages) (length ages) M'
            (λ i j, if decide (i = j) then (size i * size i - size i)%Qc
                    else (size i * size j)%Qc).
Proof.
  set (N := length ages). intros HM.
  destruct (for_in_invariant
    (λ done M,
       cells N N M
         (λ i j, if decide (i = j ∧ i < length done)
                 then (size i * size i - size i)%Qc
                 else (size i * size j)%Qc))
    (seq 0 N)
    (λ a M,
       old ← item2 a a M;
       n ← getitem a ages;
       Ok (set_item2 a a (old - n)%Qc M))
    M) as (M' & HM' & Hcells).
  - eapply cells_ext; [exact HM|]. intros i j _ _. simpl.
    by rewrite decide_False by lia.
  - intros done a rest M1 [-> Ha]%seq_split HMg.
    destruct (cells_set_item2 N N M1 _ (length done) (length done)
                (size (length done) * size (length done)
                 - size (length done))%Qc HMg Ha Ha) as [Hold HM2].
    rewrite Hold. cbn [mbind result_bind]. rewrite getitem_size by done.
    cbn [mbind result_bind]. rewrite decide_False by lia.
    eexists; split; [done|]. eapply cells_ext; [exact HM2|].
    intros i j _ _. rewrite length_app. simpl.
    repeat case_decide; try lia; destruct_and?; subst; try done; lia.
  - exists M'. split; [done|]. eapply cells_ext; [exact Hcells|].
    intros i j Hi Hj. simpl. rewrite length_seq.
    repeat case_decide; try lia; destruct_and?; subst; try done.
Qed.
End community.

(** C1.  For a population with the keys [0 .. N-1], sizes that are not
    negative and a total above one, the community matrix is an [N × N]
    array; the cell [(i, j)] off the diagonal is [n_i * n_j / (T - 1)],
    the cell [(i, i)] is [(n_i * n_i - n_i) / (T - 1)]; and the array is
    symmetric. *)
Theorem get_symmetric_community_matrix_spec (ages : dict nat Qc) :
  let N := length ages in
  let T := np_sum (dict_values ages) in
  NoDup (dict_keys ages) →
  (∀ a, a ∈ dict_keys ages ↔ a < N) →
  Forall (λ n, 0 ≤ n)%Qc (dict_values ages) →
  (1 < T)%Qc →
  ∃ M, get_symmetric_community_matrix ages = Ok M
       ∧ is_matrix N N M
       ∧ (∀ i j n_i n_j,
            dict_get i ages = Some n_i → dict_get j ages = Some n_j →
            cell i j M
            = Some (if decide (i = j) then ((n_i * n_i - n_i) / (T - 1))%Qc
                    else (n_i * n_j / (T - 1))%Qc))
       ∧ ∀ i j, cell i j M = cell j i M.
Proof.
  intros N T Hnd Hkeys Hpos HT. unfold get_symmetric_community_matrix.
  cbv zeta.
  pose proof (community_outer_product ages Hkeys) as Houter.
  cbv zeta in Houter. destruct Houter as (M1 & -> & HM1).
  cbn [mbind result_bind].
  pose proof (community_self_exclusion ages Hkeys M1 HM1) as Hself.
  cbv zeta in Hself. destruct Hself as (M2 & -> & HM2).
  cbn [mbind result_bind]. rewrite comprehension_getitem by done.
  cbn [mbind result_bind]. fold T. eexists; split; [done|].
  pose proof (cells_divide_all _ _ _ _ (T - 1)%Qc HM2) as [HM3 Hcell].
  fold N in HM3, Hcell. split; [done|]. split.
  - intros i j n_i n_j Hi Hj.
    assert (i < N) as Hi' by (apply Hkeys, dict_get_is_Some; eauto).
    assert (j < N) as Hj' by (apply Hkeys, dict_get_is_Some; eauto).
    rewrite (Hcell i j Hi' Hj'), Hi, Hj. simpl.
    destruct (decide (i = j)) as [->|]; [|done]. congruence.
  - intros i j. destruct (decide (i < N)) as [Hi|Hi];
      destruct (decide (j < N)) as [Hj|Hj].
    + rewrite (Hcell i j), (Hcell j i) by done.
      destruct (decide (i = j)) as [Heq|Hne], (decide (j = i)) as [Heq'|Hne'];
        try congruence.
      f_equal. unfold Qcdiv. ring.
    + rewrite !(cell_outside N N) by (done || lia). done.
    + rewrite !(cell_outside N N) by (done || lia). done.
    + rewrite !(cell_outside N N) by (done || lia). done.
Qed.

Lemma get_symmetric_community_matrix_spec_witness :
  let ages : dict nat Qc := [(0, qc 2); (1, qc 3)] in
  get_symmetric_community_matrix ages
  = Ok [[(1 / 2)%Qc; (qc 3 / 2)%Qc]; [(qc 3 / 2)%Qc; (qc 3 / 2)%Qc]]
  ∧ ∃ M, get_symmetric_community_matrix ages = Ok M
         ∧ is_matrix 2 2 M
         ∧ (∀ i j n_i n_j,
              dict_get i ages = Some n_i → dict_get j ages = Some n_j →
              cell i j M
              = Some (if decide (i = j)
                      then ((n_i * n_i - n_i)
                            / (np_sum (dict_values ages) - 1))%Qc
                      else (n_i * n_j / (np_sum (dict_values ages) - 1))%Qc))
         ∧ ∀ i j, cell i j M = cell j i M.
Proof.
  intros ages. split.
  { qc_eval. }
  apply (get_symmetric_community_matrix_spec ages).
  - apply (bool_decide_unpack _). vm_compute. reflexivity.
  - intros a. split.
    + intros Ha. apply (bool_decide_pack _) in Ha.
      destruct a as [|[|a]]; [simpl; lia..|]. vm_compute in Ha. done.
    + intros Ha. apply (bool_decide_unpack _).
      destruct a as [|[|a]]; [vm_compute; reflexivity..|simpl in Ha; lia].
  - repeat constructor; vm_compute; discriminate.
  - vm_compute. reflexivity.
Defined.

(** ** [get_asymmetric_matrix] *)

(** [M[a, :] = M[a, :] / n], the quotients converted by [f] *)
Lemma cells_divide_row (r c : nat) (M : matrix) g (a : nat) (n : Qc)
    (f : Qc → Qc) :
  cells r c M g → a < r →
  ∃ row, item a M = Ok row
         ∧ cells r c (<[a := f <$> divide row n]> M)
             (λ i j, if decide (i = a) then f (g i j / n)%Qc else g i j).
Proof.
  intros HMg Ha. pose proof HMg as [[Hlen _] _].
  destruct (lookup_lt_is_Some_2 M a) as [row Hrow]; [lia|].
  exists row. split; [by apply item_Ok|].
  apply (cells_rowwise r c M _ g _
           (λ i row', if decide (i = a) then f <$> divide row' n else row'));
    [done | |].
  - intros i. rewrite list_lookup_insert.
    destruct (decide (i = a)) as [->|].
    + rewrite decide_True by (split; [done | lia]). by rewrite Hrow.
    + rewrite decide_False by (intros [? _]; done). by destruct (M !! i).
  - intros i row' Hi Hl Hc. destruct (decide (i = a)) as [->|]; [|done].
    unfold divide. split; [by rewrite !length_fmap|].
    intros j Hj. by rewrite !list_lookup_fmap, Hc.
Qed.

(** Every array has its cells. *)
Lemma cells_default (r c : nat) (M : matrix) :
  is_matrix r c M → cells r c M (λ i j, default 0%Qc (cell i j M)).
Proof.
  intros HM. split; [done|]. intros i j Hi Hj.
  by destruct (is_matrix_cell r c M i j HM Hi Hj) as [x ->].
Qed.

Lemma matrix_ext (r c : nat) (A B : matrix) :
  is_matrix r c A → is_matrix r c B →
  (∀ i j, i < r → j < c → cell i j A = cell i j B) → A = B.
Proof.
  intros HA HB Hcell. apply list_eq. intros i.
  destruct (decide (i < r)) as [Hi|Hi].
  - destruct (lookup_lt_is_Some_2 A i) as [ra Hra]; [destruct HA; lia|].
    destruct (lookup_lt_is_Some_2 B i) as [rb Hrb]; [destruct HB; lia|].
    rewrite Hra, Hrb. f_equal. apply list_eq. intros j.
    destruct (decide (j < c)) as [Hj|Hj].
    + specialize (Hcell i j Hi Hj). unfold cell in Hcell.
      by rewrite Hra, Hrb in Hcell.
    + rewrite !(proj2 (lookup_ge_None _ _)); [done | |].
      * rewrite (is_matrix_lookup r c B i rb) by done. lia.
      * rewrite (is_matrix_lookup r c A i ra) by done. lia.
  - rewrite !(proj2 (lookup_ge_None _ _)); [done | |].
    + destruct HB. lia.
    + destruct HA. lia.
Qed.

(** C6.  The quotients are not what the result holds when the argument
    is an array of integers: the copy has the element type of the
    argument, and the assignment of a row converts the quotients to it.
    For the symmetric matrix [[1, 2], [2, 1]] of integers and two
    cohorts of size 2 the function returns a fresh array, leaves the
    argument as it was, and the result is [[0, 1], [1, 0]]: the cell
    [(0, 0)] is [0], not [1 / 2], and the result is not the argument
    divided by 2. *)
Theorem get_asymmetric_matrix_int_truncates :
  let Sym := {| dtype_of := Int64; data := [[qc 1; qc 2]; [qc 2; qc 1]] |} in
  let aggregate_ages : dict nat Qc := [(0, qc 2); (1, qc 2)] in
  let A := {| dtype_of := Int64; data := [[qc 0; qc 1]; [qc 1; qc 0]] |} in
  is_matrix 2 2 (data Sym)
  ∧ get_asymmetric_matrix 0 aggregate_ages [Sym] = Ok (1, [Sym; A])
  ∧ cell 0 0 (data Sym) = Some (qc 1)
  ∧ dict_get 0 aggregate_ages = Some (qc 2)
  ∧ cell 0 0 (data A) = Some (qc 0)
  ∧ (qc 1 / qc 2)%Qc ≠ qc 0
  ∧ divide_all (data Sym) (qc 2)
    = [[(1 / 2)%Qc; qc 1]; [qc 1; (1 / 2)%Qc]]
  ∧ data A ≠ divide_all (data Sym) (qc 2).
Proof.
  intros Sym aggregate_ages A.
  split; [split; [reflexivity | by repeat constructor]|].
  split; [qc_eval|]. split; [reflexivity|]. split; [reflexivity|].
  split; [reflexivity|]. split; [discriminate|]. split; [qc_eval|].
  discriminate.
Qed.

(** ** [combine_matrices] *)

Lemma for_in_ext {A S} (xs : list A) (body body' : A → S → result S) (s : S) :
  (∀ x s, x ∈ xs → body x s = body' x s) →
  for_in xs body s = for_in xs body' s.
Proof.
  revert s. induction xs as [|x xs IH]; intros s H; simpl; [done|].
  rewrite H by left. destruct (body' x s); simpl; [|done].
  apply IH. intros y t Hy. apply H. by right.
Qed.

Lemma shape_is_matrix (n : nat) (M : matrix) :
  is_matrix n n M → shape M = (n, n).
Proof.
  intros [Hlen Hrows]. unfold shape. rewrite Hlen. f_equal.
  destruct M as [|row M]; simpl in *; [done|].
  by apply Forall_cons in Hrows as [? _].
Qed.

Lemma shape_scale_all (A : matrix) (w : Qc) : shape (scale_all A w) = shape A.
Proof.
  unfold shape, scale_all, scale. rewrite length_fmap. f_equal.
  destruct A as [|row A]; simpl; [done|]. by rewrite length_fmap.
Qed.

Lemma rectangular_scale_all (A : matrix) (w : Qc) :
  rectangular A → rectangular (scale_all A w).
Proof.
  intros [c Hc]. exists c. unfold scale_all, scale. apply Forall_fmap.
  eapply Forall_impl; [exact Hc|]. intros row Hrow. simpl.
  by rewrite length_fmap.
Qed.

Lemma stretch_length {A} (n : nat) (l : list A) :
  length l = n ∨ length l = 1 → length (stretch n l) = n.
Proof.
  destruct l as [|x [|y l]]; simpl; intros [?|?]; try done.
  - by rewrite length_replicate.
  - by rewrite length_replicate.
Qed.

Lemma stretch_same {A} (n : nat) (l : list A) : length l = n → stretch n l = l.
Proof. destruct l as [|x [|y l]]; simpl; intros <-; done. Qed.

Lemma stretch_Forall {A} (P : A → Prop) (n : nat) (l : list A) :
  Forall P l → Forall P (stretch n l).
Proof.
  destruct l as [|x [|y l]]; simpl; try done.
  intros [Hx _]%Forall_cons. by apply Forall_replicate.
Qed.

Lemma broadcastable_true (n : nat) (B : matrix) :
  broadcastable (n, n) (shape B) = true ↔
  (length B = n ∨ length B = 1)
  ∧ (from_option length 0 (head B) = n ∨ from_option length 0 (head B) = 1).
Proof. unfold broadcastable, shape. simpl. apply bool_decide_eq_true. Qed.

(** The operand of an accepted in-place operation is stretched to the
    shape of the target. *)
Lemma broadcast_is_matrix (n : nat) (B : matrix) :
  rectangular B → broadcastable (n, n) (shape B) = true →
  is_matrix n n (stretch n (stretch n <$> B)).
Proof.
  intros [c Hc] [Hr Hcol]%broadcastable_true. split.
  - apply stretch_length. by rewrite length_fmap.
  - apply stretch_Forall, Forall_fmap.
    destruct B as [|row B]; [done|]. simpl in Hcol.
    pose proof Hc as [Hrow _]%Forall_cons.
    eapply Forall_impl; [exact Hc|]. intros row' Hrow'. simpl in *.
    apply stretch_length. lia.
Qed.

Lemma is_matrix_zip_with (n : nat) (M B : matrix) :
  is_matrix n n M → is_matrix n n B →
  is_matrix n n (zip_with (zip_with Qcplus) M B).
Proof.
  intros [HM HMr] [HB HBr]. split.
  - rewrite length_zip_with. lia.
  - apply Forall_lookup. intros i row Hi.
    apply lookup_zip_with_Some in Hi as (rm & rb & -> & Hrm & Hrb).
    rewrite length_zip_with.
    rewrite (Forall_lookup_1 _ _ _ _ HMr Hrm).
    rewrite (Forall_lookup_1 _ _ _ _ HBr Hrb). lia.
Qed.

(** [M += B], by the shape of [B]. *)
Lemma iadd_spec (n : nat) (M B : matrix) :
  is_matrix n n M → rectangular B →
  if broadcastable (n, n) (shape B)
  then ∃ M', iadd M B = Ok M' ∧ is_matrix n n M'
  else iadd M B = Raise ValueError.
Proof.
  intros HM HB. unfold iadd, broadcast_to.
  rewrite (shape_is_matrix n M HM).
  destruct (broadcastable (n, n) (shape B)) eqn:Hb; [|done].
  cbn [mbind result_bind fst snd]. eexists; split; [done|].
  apply is_matrix_zip_with; [done|]. by apply broadcast_is_matrix.
Qed.

(** [M += B] for operands of one shape. *)
Lemma iadd_cells (n : nat) (M B : matrix) gM gB :
  cells n n M gM → cells n n B gB →
  ∃ M', iadd M B = Ok M' ∧ cells n n M' (λ i j, gM i j + gB i j)%Qc.
Proof.
  intros HMg HBg. pose proof HMg as [HM _]. pose proof HBg as [HB _].
  unfold iadd, broadcast_to. rewrite (shape_is_matrix n M HM).
  assert (broadcastable (n, n) (shape B) = true) as ->.
  { rewrite (shape_is_matrix n B HB). unfold broadcastable. simpl.
    apply bool_decide_eq_true. auto. }
  cbn [mbind result_bind fst snd].
  assert (stretch n (stretch n <$> B) = B) as ->.
  { destruct HB as [HBlen HBrows]. rewrite stretch_same.
    - rewrite <-(list_fmap_id B) at 2. apply Forall_fmap_ext_1.
      eapply Forall_impl; [exact HBrows|]. intros row Hrow. simpl.
      by apply stretch_same.
    - by rewrite length_fmap. }
  eexists; split; [done|].
  apply (cells_rowwise n n M _ gM _
           (λ i row, zip_with Qcplus row (default [] (B !! i)))); [done | |].
  - intros i. rewrite lookup_zip_with.
    destruct (M !! i) as [row|] eqn:Hrow; [|done]. simpl.
    destruct (lookup_lt_is_Some_2 B i) as [rb ->]; [|done].
    destruct HM as [HM _], HB as [HB _]. apply lookup_lt_Some in Hrow. lia.
  - intros i row Hi Hl Hc.
    destruct (lookup_lt_is_Some_2 B i) as [rb Hrb]; [destruct HB; lia|].
    rewrite Hrb. simpl.
    destruct (cells_row n n B gB i rb HBg Hrb) as [Hlb Hcb]. split.
    + rewrite length_zip_with. lia.
    + intros j Hj. by rewrite lookup_zip_with, Hc, Hcb.
Qed.

Lemma cells_scale_all (r c : nat) (M : matrix) g (w : Qc) :
  cells r c M g → cells r c (scale_all M w) (λ i j, g i j * w)%Qc.
Proof.
  intros HMg.
  apply (cells_rowwise r c M _ g _ (λ _ row, scale row w)); [done | |].
  - intros i. unfold scale_all. by rewrite list_lookup_fmap.
  - intros i row Hi Hl Hc. unfold scale. split; [by rewrite length_fmap|].
    intros j Hj. by rewrite list_lookup_fmap, Hc.
Qed.

Section combine_facts.
Context {S : Type} `{!EqDecision S}.
Implicit Types (md : dict S matrix) (wd : dict S Qc).

Lemma combine_matrices_linear md wd (n : nat) :
  (∀ s, s ∈ dict_keys wd → ∃ A, dict_get s md = Some A ∧ is_matrix n n A) →
  ∃ M, combine_matrices md wd n = Ok M
       ∧ cells n n M (linear_combination md wd).
Proof.
  intros Hmd. unfold combine_matrices, linear_combination.
  apply (for_in_invariant
    (λ done M, cells n n M
                 (λ i j, np_sum (weighted_cell md wd i j <$> done)))).
  - apply cells_np_full.
  - intros done s rest M Hsplit HM.
    assert (s ∈ dict_keys wd) as Hs
      by (rewrite Hsplit; apply elem_of_app; right; left).
    destruct (Hmd s Hs) as (A & HA & HAshape).
    destruct (proj2 (dict_get_is_Some wd s) Hs) as [w Hw].
    rewrite (proj2 (getitem_Ok md s A) HA). cbn [mbind result_bind].
    rewrite (proj2 (getitem_Ok wd s w) Hw). cbn [mbind result_bind].
    destruct (iadd_cells n M (scale_all A w) _ _ HM
                (cells_scale_all n n A _ w (cells_default n n A HAshape)))
      as (M' & -> & HM').
    eexists; split; [done|]. eapply cells_ext; [exact HM'|].
    intros i j _ _. cbv beta. rewrite fmap_app, np_sum_app.
    f_equal. cbn [fmap list_fmap]. unfold np_sum, weighted_cell.
    cbn [foldr]. rewrite HA, Hw. simpl. ring.
Qed.

Lemma combine_matrices_unweighted md wd (n : nat) (s : S) (A : matrix) :
  s ∉ dict_keys wd →
  combine_matrices (dict_set s A md) wd n = combine_matrices md wd n.
Proof.
  intros Hs. unfold combine_matrices. apply for_in_ext.
  intros s' M Hs'. cbv beta. unfold getitem. rewrite dict_get_set.
  rewrite decide_False; [done|]. by intros ->.
Qed.
End combine_facts.

(** C7.  When every weighted setting has an [n × n] matrix the result is
    the [n × n] array whose cells are the sums over the weighted
    settings of [weight[s] * matrix[s]]; a matrix of a setting without a
    weight does not change the result; and the example of the
    specification evaluates as stated. *)
Theorem combine_matrices_spec :
  (∀ (S : Type) `{!EqDecision S} (md : dict S matrix) (wd : dict S Qc)
     (n : nat),
     (∀ s, s ∈ dict_keys wd →
           ∃ A, dict_get s md = Some A ∧ is_matrix n n A) →
     ∃ M, combine_matrices md wd n = Ok M
          ∧ is_matrix n n M
          ∧ ∀ i j, i < n → j < n →
                   cell i j M = Some (linear_combination md wd i j))
  ∧ (∀ (S : Type) `{!EqDecision S} (md : dict S matrix) (wd : dict S Qc)
       (n : nat) s A,
       s ∉ dict_keys wd →
       combine_matrices (dict_set s A md) wd n = combine_matrices md wd n)
  ∧ combine_matrices
      [("a", [[qc 1; qc 2]; [qc 2; qc 1]]);
       ("b", [[qc 3; qc 0]; [qc 0; qc 3]])]
      [("a", (1 / 2)%Qc); ("b", (1 / 2)%Qc)] 2
    = Ok [[qc 2; qc 1]; [qc 1; qc 2]].
Proof.
  split; [|split].
  - intros S ? md wd n Hmd.
    destruct (combine_matrices_linear md wd n Hmd) as (M & HM & Hshape & Hc).
    eauto.
  - intros S ? md wd n s A. apply combine_matrices_unweighted.
  - qc_eval.
Qed.

Lemma combine_matrices_spec_witness :
  let md : dict string matrix :=
    [("a", [[qc 1; qc 2]; [qc 2; qc 1]]);
     ("b", [[qc 3; qc 0]; [qc 0; qc 3]]);
     ("c", [[qc 7; qc 7]; [qc 7; qc 7]])] in
  let wd : dict string Qc := [("a", (1 / 2)%Qc); ("b", (1 / 2)%Qc)] in
  ∃ M, combine_matrices md wd 2 = Ok M
       ∧ is_matrix 2 2 M
       ∧ ∀ i j, i < 2 → j < 2 →
                cell i j M = Some (linear_combination md wd i j).
Proof.
  intros md wd. apply (proj1 combine_matrices_spec string _ md wd 2).
  apply Forall_forall. change (dict_keys wd) with ["a"; "b"].
  constructor; [|constructor; [|constructor]]; eexists;
    (split; [reflexivity|]);
    (split; [reflexivity|]); apply (bool_decide_unpack _); vm_compute;
    reflexivity.
Defined.


(** A matrix of one row is broadcast to two rows and accepted: the
    weighted setting ["a"] has a matrix of shape [1 × 2], not [2 × 2],
    and [combine_matrices] returns a result. *)
Lemma combine_matrices_broadcast_accepted :
  let A : matrix := [[qc 1; qc 2]] in
  let md : dict string matrix := [("a", A)] in
  let wd : dict string Qc := [("a", (1 / 2)%Qc)] in
  "a" ∈ dict_keys wd
  ∧ dict_get "a" md = Some A
  ∧ shape A = (1, 2)
  ∧ ¬ is_matrix 2 2 A
  ∧ combine_matrices md wd 2
    = Ok [[(1 / 2)%Qc; qc 1]; [(1 / 2)%Qc; qc 1]].
Proof.
  intros A md wd. split; [left|]. split; [reflexivity|].
  split; [reflexivity|]. split.
  - intros [Hlen _]. discriminate Hlen.
  - qc_eval.
Qed.

(** What the stretched operand holds. *)
Lemma stretch_lookup {A} (n : nat) (l : list A) (i : nat) :
  i < n → stretch n l !! i = l !! broadcast_index (length l) i.
Proof.
  intros Hi. unfold broadcast_index.
  destruct l as [|x [|y l]]; simpl; [done | | done].
  by apply lookup_replicate_2.
Qed.

Lemma broadcast_cells (n : nat) (B : matrix) :
  rectangular B → broadcastable (n, n) (shape B) = true →
  cells n n (stretch n (stretch n <$> B))
    (λ i j, default 0%Qc (broadcast_cell i j B)).
Proof.
  intros HB Hb. split; [by apply broadcast_is_matrix|].
  intros i j Hi Hj. destruct HB as [c Hc].
  apply broadcastable_true in Hb as [Hr Hcol].
  unfold broadcast_cell, cell, shape. cbn [fst snd].
  rewrite stretch_lookup, length_fmap, list_lookup_fmap by done.
  assert (broadcast_index (length B) i < length B) as Hbi.
  { unfold broadcast_index. destruct (decide (length B = 1)); lia. }
  destruct (lookup_lt_is_Some_2 B _ Hbi) as [row Hrow]. rewrite Hrow.
  cbn [fmap option_fmap option_map mbind option_bind].
  assert (from_option length 0 (head B) = length row) as Hhead.
  { destruct B as [|row0 B]; [simpl in Hbi; lia|]. simpl.
    apply Forall_cons in Hc as [Hrow0 Hc'].
    rewrite (Forall_lookup_1 _ _ _ _ (Forall_cons_2 _ _ _ Hrow0 Hc') Hrow).
    done. }
  rewrite Hhead in *. rewrite stretch_lookup by done.
  assert (broadcast_index (length row) j < length row) as Hbj.
  { unfold broadcast_index. destruct (decide (length row = 1)); lia. }
  by destruct (lookup_lt_is_Some_2 row _ Hbj) as [x ->].
Qed.

Lemma cells_zip_with (n : nat) (M B : matrix) gM gB :
  cells n n M gM → cells n n B gB →
  cells n n (zip_with (zip_with Qcplus) M B) (λ i j, gM i j + gB i j)%Qc.
Proof.
  intros HMg HBg. pose proof HMg as [HM _]. pose proof HBg as [HB _].
  apply (cells_rowwise n n M _ gM _
           (λ i row, zip_with Qcplus row (default [] (B !! i)))); [done | |].
  - intros i. rewrite lookup_zip_with.
    destruct (M !! i) as [row|] eqn:Hrow; [|done]. simpl.
    destruct (lookup_lt_is_Some_2 B i) as [rb ->]; [|done].
    destruct HM as [HM _], HB as [HB _]. apply lookup_lt_Some in Hrow. lia.
  - intros i row Hi Hl Hc.
    destruct (lookup_lt_is_Some_2 B i) as [rb Hrb]; [destruct HB; lia|].
    rewrite Hrb. simpl.
    destruct (cells_row n n B gB i rb HBg Hrb) as [Hlb Hcb]. split.
    + rewrite length_zip_with. lia.
    + intros j Hj. by rewrite lookup_zip_with, Hc, Hcb.
Qed.

(** [M += B] for an operand that is broadcast. *)
Lemma iadd_broadcast_cells (n : nat) (M B : matrix) gM :
  cells n n M gM → rectangular B →
  broadcastable (n, n) (shape B) = true →
  ∃ M', iadd M B = Ok M'
        ∧ cells n n M'
            (λ i j, gM i j + default 0 (broadcast_cell i j B))%Qc.
Proof.
  intros HMg HB Hb. pose proof HMg as [HM _].
  unfold iadd, broadcast_to. rewrite (shape_is_matrix n M HM), Hb.
  cbn [mbind result_bind fst snd]. eexists; split; [done|].
  apply cells_zip_with; [done|]. by apply broadcast_cells.
Qed.

Lemma cell_scale_all (i j : nat) (A : matrix) (w : Qc) :
  cell i j (scale_all A w) = (λ x, x * w)%Qc <$> cell i j A.
Proof.
  unfold cell, scale_all, scale. rewrite list_lookup_fmap.
  destruct (A !! i) as [row|]; [|done]. simpl.
  by rewrite list_lookup_fmap.
Qed.

Lemma broadcast_cell_scale_all (i j : nat) (A : matrix) (w : Qc) :
  default 0%Qc (broadcast_cell i j (scale_all A w))
  = (default 0 (broadcast_cell i j A) * w)%Qc.
Proof.
  unfold broadcast_cell. rewrite shape_scale_all, cell_scale_all.
  destruct (cell _ _ A); simpl; [done | ring].
Qed.

Section combine_shape.
Context {S : Type} `{!EqDecision S}.
Implicit Types (md : dict S matrix) (wd : dict S Qc).

(** The loop of [combine_matrices] from an accumulator of the right
    shape, when a later operand cannot be broadcast. *)
Lemma combine_loop_raises md wd (n : nat) (ks : list S) (M : matrix) :
  is_matrix n n M →
  (∀ s A, dict_get s md = Some A → rectangular A) →
  (∀ s, s ∈ ks → s ∈ dict_keys wd) →
  (∃ s A, s ∈ ks ∧ dict_get s md = Some A
          ∧ broadcastable (n, n) (shape A) = false) →
  raises (for_in ks
            (λ setting_code M,
               A ← getitem setting_code md;
               w ← getitem setting_code wd;
               iadd M (scale_all A w)) M)
  ∧ ((∀ s, s ∈ ks → s ∈ dict_keys md) →
     for_in ks
       (λ setting_code M,
          A ← getitem setting_code md;
          w ← getitem setting_code wd;
          iadd M (scale_all A w)) M = Raise ValueError).
Proof.
  intros HM Hrect. revert M HM.
  induction ks as [|k ks IH]; intros M HM Hwd (s & A & Hs & HA & Hbad).
  { by apply elem_of_nil in Hs. }
  cbn [for_in].
  destruct (proj2 (dict_get_is_Some wd k)) as [w Hw]; [apply Hwd; left|].
  destruct (dict_get k md) as [Ak|] eqn:HAk.
  - rewrite (proj2 (getitem_Ok md k Ak) HAk). cbn [mbind result_bind].
    rewrite (proj2 (getitem_Ok wd k w) Hw). cbn [mbind result_bind].
    pose proof (iadd_spec n M (scale_all Ak w) HM
                  (rectangular_scale_all Ak w (Hrect k Ak HAk))) as Hadd.
    rewrite shape_scale_all in Hadd.
    destruct (broadcastable (n, n) (shape Ak)) eqn:Hb.
    + destruct Hadd as (M' & -> & HM'). cbn [mbind result_bind].
      destruct (IH M' HM') as [Hraise Hvalue].
      * intros s' Hs'. apply Hwd. by right.
      * exists s, A. split; [|done].
        apply elem_of_cons in Hs as [->|Hs]; [congruence | done].
      * split; [done|]. intros Hmd. apply Hvalue.
        intros s' Hs'. apply Hmd. by right.
    + rewrite Hadd. cbn [mbind result_bind]. split; [by eexists | done].
  - assert (getitem k md = Raise KeyError) as ->
      by (unfold getitem; by rewrite HAk).
    cbn [mbind result_bind]. split; [by eexists|]. intros Hmd.
    assert (k ∈ dict_keys md) as Hk by (apply Hmd; left).
    apply dict_get_is_Some in Hk as [? Hk]. congruence.
Qed.

(** The loop of [combine_matrices] when every operand can be
    broadcast. *)
Lemma combine_matrices_broadcast md wd (n : nat) :
  (∀ s A, dict_get s md = Some A → rectangular A) →
  (∀ s, s ∈ dict_keys wd →
        ∃ A, dict_get s md = Some A
             ∧ broadcastable (n, n) (shape A) = true) →
  ∃ M, combine_matrices md wd n = Ok M
       ∧ cells n n M (broadcast_combination md wd).
Proof.
  intros Hrect Hmd. unfold combine_matrices, broadcast_combination.
  apply (for_in_invariant
    (λ done M, cells n n M
                 (λ i j, np_sum (broadcast_weighted_cell md wd i j <$> done)))).
  - apply cells_np_full.
  - intros done s rest M Hsplit HM.
    assert (s ∈ dict_keys wd) as Hs
      by (rewrite Hsplit; apply elem_of_app; right; left).
    destruct (Hmd s Hs) as (A & HA & Hb).
    destruct (proj2 (dict_get_is_Some wd s) Hs) as [w Hw].
    rewrite (proj2 (getitem_Ok md s A) HA). cbn [mbind result_bind].
    rewrite (proj2 (getitem_Ok wd s w) Hw). cbn [mbind result_bind].
    destruct (iadd_broadcast_cells n M (scale_all A w) _ HM
                (rectangular_scale_all A w (Hrect s A HA)))
      as (M' & -> & HM'); [by rewrite shape_scale_all|].
    eexists; split; [done|]. eapply cells_ext; [exact HM'|].
    intros i j _ _. cbv beta. rewrite fmap_app, np_sum_app.
    f_equal. cbn [fmap list_fmap]. rewrite broadcast_cell_scale_all.
    unfold np_sum, broadcast_weighted_cell. cbn [foldr].
    rewrite HA, Hw. simpl. ring.
Qed.

(** C8, as the code has it.  [combine_matrices] checks no shape; the
    in-place addition broadcasts its operand.  For two-dimensional
    matrices: when some weighted setting has a matrix whose shape cannot
    be broadcast to [n × n] (its number of rows is neither [n] nor one,
    or its number of columns is neither [n] nor one),
    [combine_matrices] returns no result, and when every weighted
    setting has a matrix the exception is the shape error.  When every
    weighted setting has a matrix whose shape can be broadcast to
    [n × n], it returns an [n × n] array whose cell [(i, j)] is the sum
    over the weighted settings of the weight times the cell of the
    matrix that broadcasting reads at [(i, j)]: a matrix of one row, of
    one column or of one cell is repeated and contributes to the
    result. *)
Theorem combine_matrices_shape_error md wd (n : nat) :
  (∀ s A, dict_get s md = Some A → rectangular A) →
  ((∃ s A, s ∈ dict_keys wd ∧ dict_get s md = Some A
           ∧ broadcastable (n, n) (shape A) = false) →
   raises (combine_matrices md wd n)
   ∧ ((∀ s, s ∈ dict_keys wd → s ∈ dict_keys md) →
      combine_matrices md wd n = Raise ValueError))
  ∧ ((∀ s, s ∈ dict_keys wd →
           ∃ A, dict_get s md = Some A
                ∧ broadcastable (n, n) (shape A) = true) →
     ∃ M, combine_matrices md wd n = Ok M
          ∧ is_matrix n n M
          ∧ ∀ i j, i < n → j < n →
                   cell i j M = Some (broadcast_combination md wd i j)).
Proof.
  intros Hrect. split.
  - intros Hbad. unfold combine_matrices.
    apply (combine_loop_raises md wd n); [apply is_matrix_np_full | done.. ].
  - intros Hgood.
    destruct (combine_matrices_broadcast md wd n Hrect Hgood)
      as (M & HM & Hshape & Hcell).
    eauto.
Qed.
End combine_shape.

Lemma combine_matrices_shape_error_witness :
  let bad : dict string matrix := [("a", [[qc 1; qc 2; qc 3]])] in
  let md : dict string matrix :=
    [("a", [[qc 1; qc 2]]); ("b", [[qc 3]; [qc 5]]); ("c", [[qc 4]]);
     ("d", [[qc 1; qc 0]; [qc 0; qc 1]])] in
  let wd : dict string Qc := [("a", (1 / 2)%Qc)] in
  let wd4 : dict string Qc :=
    [("a", (1 / 2)%Qc); ("b", qc 1); ("c", qc 2); ("d", qc 1)] in
  (raises (combine_matrices bad wd 2)
   ∧ ((∀ s, s ∈ dict_keys wd → s ∈ dict_keys bad) →
      combine_matrices bad wd 2 = Raise ValueError))
  ∧ (∃ M, combine_matrices md wd4 2 = Ok M
          ∧ is_matrix 2 2 M
          ∧ ∀ i j, i < 2 → j < 2 →
                   cell i j M = Some (broadcast_combination md wd4 i j)).
Proof.
  intros bad md wd wd4. split.
  - apply (combine_matrices_shape_error bad wd 2).
    + intros s A HA. exists 3. simpl in HA.
      destruct (decide (s = "a")); [|done]. injection HA as <-.
      by repeat constructor.
    + exists "a", [[qc 1; qc 2; qc 3]]. split; [left|].
      split; reflexivity.
  - apply (combine_matrices_shape_error md wd4 2).
    + intros s A HA. simpl in HA.
      destruct (decide (s = "a")); [injection HA as <-; exists 2;
                                     by repeat constructor|].
      destruct (decide (s = "b")); [injection HA as <-; exists 1;
                                     by repeat constructor|].
      destruct (decide (s = "c")); [injection HA as <-; exists 1;
                                     by repeat constructor|].
      destruct (decide (s = "d")); [injection HA as <-; exists 2;
                                     by repeat constructor|].
      done.
    + apply Forall_forall. change (dict_keys wd4) with ["a"; "b"; "c"; "d"].
      repeat constructor; eexists; (split; reflexivity).
Defined.

(** * Further properties *)

(** The first exception of a loop whose body raises nothing but [e]. *)
Lemma for_in_first_raise {A S} (xs : list A) (body : A → S → result S)
    (s : S) (e : exn) :
  (∀ x s, x ∈ xs → (∃ s', body x s = Ok s') ∨ body x s = Raise e) →
  (∃ x, x ∈ xs ∧ ∀ s, body x s = Raise e) →
  for_in xs body s = Raise e.
Proof.
  revert s. induction xs as [|x xs IH]; intros s Hbody (y & Hy & Hraise).
  { by apply elem_of_nil in Hy. }
  cbn [for_in]. destruct (Hbody x s) as [[s' Hs']|Hs']; [left | | by rewrite Hs'].
  rewrite Hs'. cbn [mbind result_bind]. apply elem_of_cons in Hy as [->|Hy].
  - rewrite Hraise in Hs'. done.
  - apply IH; [|eauto]. intros z t Hz. apply Hbody. by right.
Qed.

Lemma getitem_cases {K V} `{!EqDecision K} (k : K) (d : dict K V) :
  (∃ v, getitem k d = Ok v ∧ dict_get k d = Some v)
  ∨ (getitem k d = Raise KeyError ∧ k ∉ dict_keys d).
Proof.
  unfold getitem. destruct (dict_get k d) as [v|] eqn:H; [left; eauto|].
  right. split; [done|]. by apply dict_get_None.
Qed.

(** ** [normalize_dictionary], as a value *)

Lemma normalize_dictionary_value {K} `{!EqDecision K} (d : dict K Qc) :
  NoDup (dict_keys d) →
  normalize_dictionary d
  = Ok (if decide (np_sum (dict_values d) = 0%Qc) then d
        else prod_map id (λ v, v / np_sum (dict_values d))%Qc <$> d).
Proof.
  intros Hnd. unfold normalize_dictionary.
  rewrite comprehension_getitem by done. cbn [mbind result_bind].
  destruct (decide (np_sum (dict_values d) = 0%Qc)); [done|].
  by apply normalize_loop.
Qed.

Lemma normalized_keys {K} (d : dict K Qc) (t : Qc) :
  dict_keys (prod_map id (λ v, v / t)%Qc <$> d) = dict_keys d.
Proof.
  unfold dict_keys. rewrite <-list_fmap_compose.
  by apply list_fmap_ext; intros ? [].
Qed.

Lemma normalized_values {K} (d : dict K Qc) (t : Qc) :
  dict_values (prod_map id (λ v, v / t)%Qc <$> d) = divide (dict_values d) t.
Proof.
  unfold dict_values, divide. rewrite <-!list_fmap_compose.
  by apply list_fmap_ext; intros ? [].
Qed.

Lemma normalized_sum {K} (d : dict K Qc) :
  np_sum (dict_values d) ≠ 0%Qc →
  np_sum (dict_values
            (prod_map id (λ v, v / np_sum (dict_values d))%Qc <$> d))
  = 1%Qc.
Proof.
  intros Ht. rewrite normalized_values, np_sum_divide.
  unfold Qcdiv. by apply Qcmult_inv_r.
Qed.

(** ** [norm_age_group] *)

(** The dictionary of the range, before it is normalized. *)
Lemma norm_age_group_restrict (age_dictionary : dict nat Qc) (ks : list nat) :
  NoDup ks →
  (∀ a, a ∈ ks → a ∈ dict_keys age_dictionary) →
  for_in ks
    (λ a dictionary, v ← getitem a age_dictionary;
                     Ok (dict_set a v dictionary)) []
  = Ok ((λ a, (a, default 0%Qc (dict_get a age_dictionary))) <$> ks).
Proof.
  intros Hnd Hin.
  destruct (for_in_invariant
    (λ done dictionary,
       dictionary
       = (λ a, (a, default 0%Qc (dict_get a age_dictionary))) <$> done)
    ks
    (λ a dictionary, v ← getitem a age_dictionary;
                     Ok (dict_set a v dictionary)) [])
    as (d & -> & ->); [done | | done].
  intros done a rest d Hsplit ->.
  assert (a ∈ ks) as Ha by (rewrite Hsplit; apply elem_of_app; right; left).
  destruct (proj2 (dict_get_is_Some age_dictionary a) (Hin a Ha)) as [v Hv].
  rewrite (proj2 (getitem_Ok age_dictionary a v) Hv). cbn [mbind result_bind].
  eexists; split; [done|]. rewrite dict_set_fresh.
  - rewrite fmap_app. simpl. by rewrite Hv.
  - unfold dict_keys. rewrite <-list_fmap_compose, list_fmap_id.
    rewrite Hsplit in Hnd. apply NoDup_app in Hnd as (_ & Hnd & _).
    intros Hd. apply (Hnd a Hd). left.
Qed.

Lemma range_inclusive_elem (lo hi a : nat) :
  a ∈ range_inclusive lo hi ↔ lo ≤ a ≤ hi.
Proof. unfold range_inclusive. rewrite elem_of_seq. lia. Qed.

(** X1.  An age of the range that the source dictionary lacks makes
    [norm_age_group] raise [KeyError]. *)
Theorem norm_age_group_missing_key (age_dictionary : dict nat Qc)
    (age_min age_max a : nat) :
  age_min ≤ a ≤ age_max →
  a ∉ dict_keys age_dictionary →
  norm_age_group age_dictionary age_min age_max = Raise KeyError.
Proof.
  intros Ha Hmiss. unfold norm_age_group.
  rewrite (for_in_first_raise _ _ _ KeyError); [done | |].
  - intros x d _. destruct (getitem_cases x age_dictionary)
      as [(v & -> & _)|[-> _]]; [left; eauto | by right].
  - exists a. split; [by apply range_inclusive_elem|]. intros d.
    destruct (getitem_cases a age_dictionary) as [(v & _ & Hv)|[-> _]];
      [|done].
    exfalso. apply Hmiss, dict_get_is_Some. eauto.
Qed.

Lemma norm_age_group_missing_key_witness :
  norm_age_group [(0, qc 1); (2, qc 3)] 0 2 = Raise KeyError.
Proof.
  apply (norm_age_group_missing_key _ 0 2 1); [lia|].
  apply (bool_decide_unpack _). vm_compute. reflexivity.
Defined.

(** X2.  When the source dictionary has every age of the range and the
    counts of the range do not sum to zero, the result has the ages of
    the range as keys, in increasing order; each value is the count of
    the age divided by the total of the range; the values sum to one. *)
Theorem norm_age_group_normalized (age_dictionary : dict nat Qc)
    (age_min age_max : nat) :
  let ages := range_inclusive age_min age_max in
  let total :=
    np_sum ((λ a, default 0%Qc (dict_get a age_dictionary)) <$> ages) in
  (∀ a, a ∈ ages → a ∈ dict_keys age_dictionary) →
  total ≠ 0%Qc →
  ∃ d, norm_age_group age_dictionary age_min age_max = Ok d
       ∧ dict_keys d = ages
       ∧ (∀ a v, a ∈ ages → dict_get a age_dictionary = Some v →
                 dict_get a d = Some (v / total)%Qc)
       ∧ np_sum (dict_values d) = 1%Qc.
Proof.
  intros ages total Hin Htotal. unfold norm_age_group. fold ages.
  rewrite norm_age_group_restrict by (done || apply NoDup_seq).
  cbn [mbind result_bind].
  set (restricted :=
         (λ a, (a, default 0%Qc (dict_get a age_dictionary))) <$> ages).
  assert (dict_keys restricted = ages) as Hkeys.
  { unfold dict_keys, restricted. by rewrite <-list_fmap_compose, list_fmap_id. }
  assert (dict_values restricted
          = (λ a, default 0%Qc (dict_get a age_dictionary)) <$> ages)
    as Hvalues.
  { unfold dict_values, restricted. by rewrite <-list_fmap_compose. }
  assert (NoDup (dict_keys restricted)) as Hnd
    by (rewrite Hkeys; apply NoDup_seq).
  rewrite normalize_dictionary_value by done. rewrite Hvalues. fold total.
  rewrite decide_False by done. eexists; split; [done|].
  rewrite normalized_keys. split; [done|]. split.
  - intros a v Ha Hv. apply dict_get_elem; [by rewrite normalized_keys|].
    apply list_elem_of_fmap. exists (a, v). split; [done|].
    apply list_elem_of_fmap. exists a. by rewrite Hv.
  - rewrite normalized_values, np_sum_divide, Hvalues. fold total.
    unfold Qcdiv. by apply Qcmult_inv_r.
Qed.

Lemma norm_age_group_normalized_witness :
  ∃ d, norm_age_group [(0, qc 4); (1, qc 1); (2, qc 3); (3, qc 9)] 1 2 = Ok d
       ∧ dict_keys d = [1; 2]
       ∧ (∀ a v, a ∈ [1; 2] →
                 dict_get a [(0, qc 4); (1, qc 1); (2, qc 3); (3, qc 9)]
                 = Some v →
                 dict_get a d = Some (v / (qc 1 + (qc 3 + 0)))%Qc)
       ∧ np_sum (dict_values d) = 1%Qc.
Proof.
  apply (norm_age_group_normalized
           [(0, qc 4); (1, qc 1); (2, qc 3); (3, qc 9)] 1 2).
  - apply Forall_forall. apply (bool_decide_unpack _). vm_compute.
    reflexivity.
  - vm_compute. discriminate.
Defined.

(** X3.  When the counts of the range sum to zero, an empty range
    ([age_max < age_min]) included, the restricted dictionary is returned
    as it is: the ages of the range with their counts, not normalized. *)
Theorem norm_age_group_zero_total (age_dictionary : dict nat Qc)
    (age_min age_max : nat) :
  let ages := range_inclusive age_min age_max in
  (∀ a, a ∈ ages → a ∈ dict_keys age_dictionary) →
  np_sum ((λ a, default 0%Qc (dict_get a age_dictionary)) <$> ages) = 0%Qc →
  norm_age_group age_dictionary age_min age_max
  = Ok ((λ a, (a, default 0%Qc (dict_get a age_dictionary))) <$> ages)
  ∧ (age_max < age_min →
     norm_age_group age_dictionary age_min age_max = Ok []).
Proof.
  intros ages Hin Htotal.
  assert (norm_age_group age_dictionary age_min age_max
          = Ok ((λ a, (a, default 0%Qc (dict_get a age_dictionary)))
                  <$> ages)) as Hres.
  { unfold norm_age_group. fold ages.
    rewrite norm_age_group_restrict by (done || apply NoDup_seq).
    cbn [mbind result_bind].
    set (restricted :=
           (λ a, (a, default 0%Qc (dict_get a age_dictionary))) <$> ages).
    assert (dict_keys restricted = ages) as Hkeys.
    { unfold dict_keys, restricted.
      by rewrite <-list_fmap_compose, list_fmap_id. }
    rewrite normalize_dictionary_value
      by (rewrite Hkeys; apply NoDup_seq).
    rewrite decide_True; [done|].
    unfold dict_values, restricted. by rewrite <-list_fmap_compose. }
  split; [done|]. intros Hlt. rewrite Hres. unfold ages, range_inclusive.
  by replace (age_max + 1 - age_min) with 0 by lia.
Qed.

Lemma norm_age_group_zero_total_witness :
  norm_age_group [(0, qc 4); (1, qc 0); (2, qc 0)] 1 2
  = Ok [(1, qc 0); (2, qc 0)].
Proof.
  refine (proj1 (norm_age_group_zero_total
                   [(0, qc 4); (1, qc 0); (2, qc 0)] 1 2 _ _)).
  - apply Forall_forall. apply (bool_decide_unpack _). vm_compute.
    reflexivity.
  - qc_eval.
Defined.

(** ** [get_age_by_brackets_dictionary] *)

(** Writes into a dictionary: the last write to a key is what a lookup
    finds. *)
Lemma dict_get_writes {K V} `{!EqDecision K} (ws : list (K * V))
    (d : dict K V) (k : K) :
  dict_get k (foldl (λ d p, dict_set p.1 p.2 d) d ws)
  = match last (filter (λ p, p.1 = k) ws) with
    | Some p => Some p.2
    | None => dict_get k d
    end.
Proof.
  induction ws as [|p ws IH] using rev_ind; [done|].
  rewrite foldl_snoc, dict_get_set, filter_app.
  destruct (decide (k = p.1)) as [->|Hne].
  - rewrite filter_cons_True, filter_nil by done. by rewrite last_snoc.
  - rewrite filter_cons_False by congruence.
    by rewrite filter_nil, app_nil_r.
Qed.

Lemma elem_of_bracket_writes (age_brackets : dict nat (list nat)) (a b : nat) :
  (a, b) ∈ bracket_writes age_brackets
  ↔ ∃ ages, (b, ages) ∈ age_brackets ∧ a ∈ ages.
Proof.
  unfold bracket_writes. rewrite list_elem_of_bind. split.
  - intros ([b' ages] & Hin & Hbr). simpl in Hin.
    apply list_elem_of_fmap in Hin as (a' & [= -> ->] & Ha'). eauto.
  - intros (ages & Hbr & Ha). exists (b, ages). split; [|done].
    simpl. apply list_elem_of_fmap. eauto.
Qed.

(** The function does not raise: it makes the writes of the brackets in
    order. *)
Lemma get_age_by_brackets_dictionary_value
    (age_brackets : dict nat (list nat)) :
  NoDup (dict_keys age_brackets) →
  get_age_by_brackets_dictionary age_brackets
  = Ok (foldl (λ d p, dict_set p.1 p.2 d) [] (bracket_writes age_brackets)).
Proof.
  intros Hnd. unfold get_age_by_brackets_dictionary, dict_keys.
  enough (∀ (l : dict nat (list nat)) acc, l ⊆ age_brackets →
            for_in (l.*1)
              (λ b abd, ages ← getitem b age_brackets;
                        Ok (foldl (λ d a, dict_set a b d) abd ages)) acc
            = Ok (foldl (λ d p, dict_set p.1 p.2 d) acc (bracket_writes l)))
    as H by (by apply H).
  induction l as [|[b ages] l IH]; intros acc Hsub; [done|].
  rewrite fmap_cons. cbn [for_in fst].
  rewrite (getitem_elem age_brackets b ages); [| done | apply Hsub; left].
  cbn [mbind result_bind]. rewrite IH by (intros x ?; apply Hsub; by right).
  unfold bracket_writes. rewrite bind_cons, foldl_app. simpl.
  by rewrite foldl_fmap.
Qed.

Lemma filter_nil_intro {A} (P : A → Prop) `{!∀ x, Decision (P x)}
    (l : list A) :
  (∀ x, x ∈ l → ¬ P x) → filter P l = [].
Proof.
  induction l as [|x l IH]; intros Hnone; [done|].
  rewrite filter_cons_False by (apply Hnone; left).
  apply IH. intros y Hy. apply Hnone. by right.
Qed.

(** X4.  Where brackets overlap, the last bracket that lists an age wins:
    the age is mapped to the bracket after which no bracket lists it. *)
Theorem get_age_by_brackets_dictionary_last_wins
    (pre post : dict nat (list nat)) (b : nat) (ages : list nat) (a : nat) :
  NoDup (dict_keys (pre ++ (b, ages) :: post)) →
  a ∈ ages →
  (∀ b' ages', (b', ages') ∈ post → a ∉ ages') →
  ∃ abd, get_age_by_brackets_dictionary (pre ++ (b, ages) :: post) = Ok abd
         ∧ dict_get a abd = Some b.
Proof.
  intros Hnd Ha Hpost. rewrite get_age_by_brackets_dictionary_value by done.
  eexists; split; [done|]. rewrite dict_get_writes.
  change (bracket_writes (pre ++ (b, ages) :: post))
    with ((pre ++ (b, ages) :: post)
            ≫= λ entry : nat * list nat, (λ a, (a, entry.1)) <$> entry.2).
  rewrite bind_app, bind_cons, !filter_app. cbn [fst snd].
  fold (bracket_writes post).
  rewrite (filter_nil_intro _ (bracket_writes post)), app_nil_r.
  - rewrite last_app.
    assert (last (filter (λ p : nat * nat, p.1 = a)
                    ((λ a0, (a0, b)) <$> ages)) = Some (a, b)) as ->; [|done].
    destruct (last _) as [p|] eqn:Hlast.
    + apply last_Some_elem_of, list_elem_of_filter in Hlast as [Hp Hin].
      apply list_elem_of_fmap in Hin as (a' & -> & _). simpl in Hp.
      by subst.
    + apply last_None in Hlast.
      assert ((a, b) ∈ filter (λ p : nat * nat, p.1 = a)
                         ((λ a0, (a0, b)) <$> ages)) as Hin.
      { apply list_elem_of_filter. split; [done|].
        apply list_elem_of_fmap. eauto. }
      rewrite Hlast in Hin. by apply elem_of_nil in Hin.
  - intros [a' b'] [ages' [Hbr Hin]]%elem_of_bracket_writes Heq.
    simpl in Heq. subst. by apply (Hpost b' ages').
Qed.

Lemma get_age_by_brackets_dictionary_last_wins_witness :
  ∃ abd, get_age_by_brackets_dictionary [(0, [0; 1; 2]); (1, [2; 3])] = Ok abd
         ∧ dict_get 2 abd = Some 1.
Proof.
  apply (get_age_by_brackets_dictionary_last_wins [(0, [0; 1; 2])] [] 1 [2; 3] 2).
  - apply (bool_decide_unpack _). vm_compute. reflexivity.
  - apply (bool_decide_unpack _). vm_compute. reflexivity.
  - intros b' ages' Hin. by apply elem_of_nil in Hin.
Defined.

Lemma dict_set_NoDup {K V} `{!EqDecision K} (k : K) (v : V) (d : dict K V) :
  NoDup (dict_keys d) → NoDup (dict_keys (dict_set k v d)).
Proof.
  intros Hnd. destruct (decide (k ∈ dict_keys d)) as [Hin|Hin].
  - by rewrite dict_set_keys.
  - rewrite dict_set_fresh by done. unfold dict_keys in *.
    rewrite fmap_app. apply NoDup_app. split; [done|]. split.
    + intros x Hx [->|[]%elem_of_nil]%elem_of_cons. done.
    + apply NoDup_singleton.
Qed.

Lemma writes_NoDup {K V} `{!EqDecision K} (ws : list (K * V)) (d : dict K V) :
  NoDup (dict_keys d) →
  NoDup (dict_keys (foldl (λ d p, dict_set p.1 p.2 d) d ws)).
Proof.
  revert d. induction ws as [|p ws IH]; intros d Hd; [done|].
  simpl. by apply IH, dict_set_NoDup.
Qed.

Lemma elem_of_dict_values {K V} `{!EqDecision K} (d : dict K V) (v : V) :
  NoDup (dict_keys d) →
  v ∈ dict_values d ↔ ∃ k, dict_get k d = Some v.
Proof.
  intros Hnd. unfold dict_values. rewrite list_elem_of_fmap. split.
  - intros ([k v'] & -> & Hin). exists k. by apply dict_get_elem.
  - intros [k Hk]. exists (k, v). split; [done|].
    by apply dict_get_Some_elem.
Qed.

(** The lookups of the dictionary that the writes of a scheme without
    overlap build. *)
Lemma bracket_writes_lookup (age_brackets : dict nat (list nat)) (a b : nat) :
  (∀ b b' ages ages' a,
     (b, ages) ∈ age_brackets → (b', ages') ∈ age_brackets →
     a ∈ ages → a ∈ ages' → b = b') →
  dict_get a (foldl (λ d p, dict_set p.1 p.2 d) []
                (bracket_writes age_brackets)) = Some b
  ↔ ∃ ages, (b, ages) ∈ age_brackets ∧ a ∈ ages.
Proof.
  intros Hdisjoint. rewrite dict_get_writes. split.
  - destruct (last _) as [[a' b']|] eqn:Hlast; [|done].
    intros [= <-].
    apply last_Some_elem_of, list_elem_of_filter in Hlast as [Hp Hin].
    simpl in Hp. subst. by apply elem_of_bracket_writes.
  - intros (ages & Hbr & Ha).
    destruct (last _) as [[a' b']|] eqn:Hlast.
    + apply last_Some_elem_of, list_elem_of_filter in Hlast as [Hp Hin].
      simpl in Hp. subst.
      apply elem_of_bracket_writes in Hin as (ages' & Hbr' & Ha').
      simpl. f_equal. by apply (Hdisjoint b' b ages' ages a).
    + apply last_None in Hlast.
      assert ((a, b) ∈ filter (λ p : nat * nat, p.1 = a)
                         (bracket_writes age_brackets)) as Hin.
      { apply list_elem_of_filter. split; [done|].
        apply elem_of_bracket_writes. eauto. }
      rewrite Hlast in Hin. by apply elem_of_nil in Hin.
Qed.

(** X5.  For brackets that do not overlap the function returns the
    inverse of the scheme: an age is mapped to a bracket exactly when
    the bracket lists the age, and an age that no bracket lists has no
    entry. *)
Theorem get_age_by_brackets_dictionary_inverse
    (age_brackets : dict nat (list nat)) :
  NoDup (dict_keys age_brackets) →
  (∀ b b' ages ages' a,
     (b, ages) ∈ age_brackets → (b', ages') ∈ age_brackets →
     a ∈ ages → a ∈ ages' → b = b') →
  ∃ abd, get_age_by_brackets_dictionary age_brackets = Ok abd
         ∧ (∀ a b, dict_get a abd = Some b
                   ↔ ∃ ages, (b, ages) ∈ age_brackets ∧ a ∈ ages)
         ∧ (∀ a, a ∈ dict_keys abd
                 ↔ ∃ b ages, (b, ages) ∈ age_brackets ∧ a ∈ ages).
Proof.
  intros Hnd Hdisjoint. rewrite get_age_by_brackets_dictionary_value by done.
  eexists; split; [done|].
  split; [intros a b; by apply bracket_writes_lookup|].
  intros a. rewrite <-dict_get_is_Some. split.
  - intros [b Hb]. exists b. by apply bracket_writes_lookup.
  - intros (b & ages & H). exists b. apply bracket_writes_lookup; eauto.
Qed.

Lemma get_age_by_brackets_dictionary_inverse_witness :
  ∃ abd, get_age_by_brackets_dictionary [(0, [0; 1]); (1, [2])] = Ok abd
         ∧ (∀ a b, dict_get a abd = Some b
                   ↔ ∃ ages, (b, ages) ∈ [(0, [0; 1]); (1, [2])] ∧ a ∈ ages)
         ∧ (∀ a, a ∈ dict_keys abd
                 ↔ ∃ b ages, (b, ages) ∈ [(0, [0; 1]); (1, [2])] ∧ a ∈ ages).
Proof.
  apply (get_age_by_brackets_dictionary_inverse [(0, [0; 1]); (1, [2])]).
  - apply (bool_decide_unpack _). vm_compute. reflexivity.
  - intros b b' ages ages' a Hb Hb' Ha Ha'.
    apply elem_of_cons in Hb as [[= -> ->]|Hb];
      [|apply list_elem_of_singleton in Hb as [= -> ->]];
      (apply elem_of_cons in Hb' as [[= -> ->]|Hb'];
       [|apply list_elem_of_singleton in Hb' as [= -> ->]]); try done;
      exfalso; revert Ha Ha'; rewrite !elem_of_cons, !elem_of_nil; lia.
Defined.


(** ** [get_aggregate_ages], bracket by bracket *)

Lemma get_aggregate_ages_value (ages : dict nat Qc) (abd : dict nat nat) :
  (∀ a, a ∈ dict_keys ages → a ∈ dict_keys abd) →
  ∃ agg, get_aggregate_ages ages abd = Ok agg
         ∧ dict_keys agg = elements (value_set abd)
         ∧ ∀ b, b ∈ dict_values abd →
             dict_get b agg
             = Some (np_sum
                 ((λ a, default 0%Qc (dict_get a ages))
                    <$> filter (λ a, dict_get a abd = Some b)
                          (dict_keys ages))).
Proof.
  intros Hcover. unfold get_aggregate_ages.
  set (ks := elements (value_set abd)).
  assert (NoDup ks) as Hks by apply NoDup_elements.
  apply (for_in_invariant
    (λ done agg,
       dict_keys agg = ks
       ∧ ∀ b, b ∈ dict_values abd →
           dict_get b agg
           = Some (np_sum
               ((λ a, default 0%Qc (dict_get a ages))
                  <$> filter (λ a, dict_get a abd = Some b) done)))).
  - split; [by apply dict_fromkeys_keys|]. intros b Hb.
    apply dict_fromkeys_get; [done | by apply elem_of_value_set].
  - intros done a rest agg Hsplit [Hkeys Hget].
    assert (a ∈ dict_keys ages) as Ha
      by (rewrite Hsplit; apply elem_of_app; right; left).
    destruct (proj2 (dict_get_is_Some abd a) (Hcover a Ha)) as [b Hb].
    destruct (proj2 (dict_get_is_Some ages a) Ha) as [n Hn].
    assert (b ∈ dict_values abd) as Hbv.
    { apply list_elem_of_fmap. exists (a, b).
      split; [done | by apply dict_get_Some_elem]. }
    rewrite (proj2 (getitem_Ok abd a b) Hb). cbn [mbind result_bind].
    rewrite (proj2 (getitem_Ok agg b _) (Hget b Hbv)).
    cbn [mbind result_bind].
    rewrite (proj2 (getitem_Ok ages a n) Hn). cbn [mbind result_bind].
    eexists; split; [done|]. split.
    + rewrite dict_set_keys; [done|]. rewrite Hkeys.
      by apply elem_of_value_set.
    + intros b' Hb'. rewrite dict_get_set, filter_app, fmap_app, np_sum_app.
      destruct (decide (b' = b)) as [->|Hne].
      * rewrite filter_cons_True by done. simpl. rewrite Hn. simpl.
        do 2 f_equal. ring.
      * rewrite filter_cons_False by congruence.
        rewrite Hget by done. simpl. do 2 f_equal. ring.
Qed.

(** X6.  An age of [ages] that the age-to-bracket dictionary lacks makes
    [get_aggregate_ages] raise [KeyError]. *)
Theorem get_aggregate_ages_missing_key (ages : dict nat Qc)
    (abd : dict nat nat) (a : nat) :
  a ∈ dict_keys ages → a ∉ dict_keys abd →
  get_aggregate_ages ages abd = Raise KeyError.
Proof.
  intros Ha Hmiss. unfold get_aggregate_ages.
  apply for_in_first_raise.
  - intros x agg _.
    destruct (getitem_cases x abd) as [(b & -> & _)|[-> _]]; [|by right].
    cbn [mbind result_bind].
    destruct (getitem_cases b agg) as [(old & -> & _)|[-> _]]; [|by right].
    cbn [mbind result_bind].
    destruct (getitem_cases x ages) as [(n & -> & _)|[-> _]]; [|by right].
    left. eauto.
  - exists a. split; [done|]. intros agg.
    destruct (getitem_cases a abd) as [(b & _ & Hb)|[-> _]]; [|done].
    exfalso. apply Hmiss, dict_get_is_Some. eauto.
Qed.

Lemma get_aggregate_ages_missing_key_witness :
  get_aggregate_ages [(0, qc 10); (5, qc 20)] [(0, 0); (1, 0)]
  = Raise KeyError.
Proof.
  apply (get_aggregate_ages_missing_key _ _ 5);
    apply (bool_decide_unpack _); vm_compute; reflexivity.
Defined.

(** X7.  When every age of [ages] has a bracket, each bracket of the
    result holds the sum of the counts of the ages of [ages] that the
    dictionary maps to it. *)
Theorem get_aggregate_ages_bracket_sums (ages : dict nat Qc)
    (abd : dict nat nat) :
  (∀ a, a ∈ dict_keys ages → a ∈ dict_keys abd) →
  ∃ agg, get_aggregate_ages ages abd = Ok agg
         ∧ ∀ b, b ∈ dict_values abd →
             dict_get b agg
             = Some (np_sum
                 ((λ a, default 0%Qc (dict_get a ages))
                    <$> filter (λ a, dict_get a abd = Some b)
                          (dict_keys ages))).
Proof.
  intros Hcover.
  destruct (get_aggregate_ages_value ages abd Hcover) as (agg & ? & _ & ?).
  eauto.
Qed.

Lemma get_aggregate_ages_bracket_sums_witness :
  let ages : dict nat Qc := [(0, qc 10); (1, qc 20); (2, qc 30)] in
  let abd : dict nat nat := [(0, 0); (1, 0); (2, 1)] in
  ∃ agg, get_aggregate_ages ages abd = Ok agg
         ∧ ∀ b, b ∈ dict_values abd →
             dict_get b agg
             = Some (np_sum
                 ((λ a, default 0%Qc (dict_get a ages))
                    <$> filter (λ a, dict_get a abd = Some b)
                          (dict_keys ages))).
Proof.
  intros ages abd. apply (get_aggregate_ages_bracket_sums ages abd).
  apply Forall_forall. apply (bool_decide_unpack _). vm_compute. reflexivity.
Defined.

(** X8.  [get_age_by_brackets_dictionary] composed with
    [get_aggregate_ages]: for a scheme without overlap that lists every
    age of [ages], neither function raises; the result has the brackets
    that list at least one age as keys, and each holds the sum of the
    counts of the ages of [ages] that the bracket lists. *)
Theorem aggregate_ages_by_scheme (ages : dict nat Qc)
    (age_brackets : dict nat (list nat)) :
  NoDup (dict_keys age_brackets) →
  (∀ b b' l l' a,
     (b, l) ∈ age_brackets → (b', l') ∈ age_brackets →
     a ∈ l → a ∈ l' → b = b') →
  (∀ a, a ∈ dict_keys ages → ∃ b l, (b, l) ∈ age_brackets ∧ a ∈ l) →
  ∃ abd agg,
    get_age_by_brackets_dictionary age_brackets = Ok abd
    ∧ get_aggregate_ages ages abd = Ok agg
    ∧ (∀ b, b ∈ dict_keys agg ↔ ∃ l, (b, l) ∈ age_brackets ∧ l ≠ [])
    ∧ ∀ b l, (b, l) ∈ age_brackets → l ≠ [] →
        dict_get b agg
        = Some (np_sum ((λ a, default 0%Qc (dict_get a ages))
                          <$> filter (λ a, a ∈ l) (dict_keys ages))).
Proof.
  intros Hnd Hdisjoint Hlisted.
  rewrite get_age_by_brackets_dictionary_value by done.
  set (abd := foldl _ _ _).
  assert (∀ a b, dict_get a abd = Some b
                 ↔ ∃ l, (b, l) ∈ age_brackets ∧ a ∈ l) as Hget
    by (intros a b; by apply bracket_writes_lookup).
  assert (NoDup (dict_keys abd)) as Hndabd
    by (apply writes_NoDup; constructor).
  assert (∀ b, b ∈ dict_values abd ↔ ∃ l, (b, l) ∈ age_brackets ∧ l ≠ [])
    as Hvalues.
  { intros b. rewrite elem_of_dict_values by done. split.
    - intros [a (l & Hl & Ha)%Hget]. exists l. split; [done|].
      intros ->. by apply elem_of_nil in Ha.
    - intros (l & Hl & Hne). destruct l as [|a l]; [done|].
      exists a. apply Hget. exists (a :: l). split; [done | left]. }
  destruct (get_aggregate_ages_value ages abd) as (agg & Hagg & Hkeys & Hsum).
  { intros a (b & l & Hl & Ha)%Hlisted. apply dict_get_is_Some.
    exists b. apply Hget. eauto. }
  exists abd, agg. split; [done|]. split; [done|]. split.
  - intros b. by rewrite Hkeys, elem_of_value_set.
  - intros b l Hl Hne. rewrite Hsum by (apply Hvalues; eauto).
    do 3 f_equal. apply list_filter_iff. intros a. rewrite Hget. split.
    + intros (l' & Hl' & Ha).
      assert (Some l' = Some l) as [= ->]; [|done].
      by rewrite <-(dict_get_elem age_brackets b l'),
                 <-(dict_get_elem age_brackets b l).
    + eauto.
Qed.

Lemma aggregate_ages_by_scheme_witness :
  let ages : dict nat Qc := [(0, qc 10); (1, qc 20); (2, qc 30)] in
  let age_brackets : dict nat (list nat) := [(0, [0; 1]); (1, [2])] in
  ∃ abd agg,
    get_age_by_brackets_dictionary age_brackets = Ok abd
    ∧ get_aggregate_ages ages abd = Ok agg
    ∧ (∀ b, b ∈ dict_keys agg ↔ ∃ l, (b, l) ∈ age_brackets ∧ l ≠ [])
    ∧ ∀ b l, (b, l) ∈ age_brackets → l ≠ [] →
        dict_get b agg
        = Some (np_sum ((λ a, default 0%Qc (dict_get a ages))
                          <$> filter (λ a, a ∈ l) (dict_keys ages))).
Proof.
  intros ages br. apply (aggregate_ages_by_scheme ages br).
  - apply (bool_decide_unpack _). vm_compute. reflexivity.
  - intros b b' l l' a Hb Hb' Ha Ha'.
    apply elem_of_cons in Hb as [[= -> ->]|Hb];
      [|apply list_elem_of_singleton in Hb as [= -> ->]];
      (apply elem_of_cons in Hb' as [[= -> ->]|Hb'];
       [|apply list_elem_of_singleton in Hb' as [= -> ->]]); try done;
      exfalso; revert Ha Ha'; rewrite !elem_of_cons, !elem_of_nil; lia.
  - apply Forall_forall. change (dict_keys ages) with [0; 1; 2].
    constructor; [|constructor; [|constructor; [|constructor]]].
    + exists 0, [0; 1]. split; [left | left].
    + exists 0, [0; 1]. split; [left | right; left].
    + exists 1, [2]. split; [right; left | left].
Defined.


Lemma np_sum_nil : np_sum [] = 0%Qc.
Proof. done. Qed.

Lemma np_sum_singleton (x : Qc) : np_sum [x] = x.
Proof. unfold np_sum. simpl. ring. Qed.

(** ** Loops that raise *)

(** The first exception of a loop that keeps an invariant and whose body
    raises nothing but [e] on the states of the invariant. *)
Lemma for_in_first_raise_inv {A S} (I : S → Prop) (xs : list A)
    (body : A → S → result S) (s : S) (e : exn) :
  I s →
  (∀ x s, x ∈ xs → I s →
     (∃ s', body x s = Ok s' ∧ I s') ∨ body x s = Raise e) →
  (∃ x, x ∈ xs ∧ ∀ s, I s → body x s = Raise e) →
  for_in xs body s = Raise e.
Proof.
  revert s. induction xs as [|x xs IH]; intros s Hs Hbody (y & Hy & Hraise).
  { by apply elem_of_nil in Hy. }
  cbn [for_in].
  destruct (Hbody x s) as [(s' & Hs' & HI)|Hs']; [left | done | | by rewrite Hs'].
  rewrite Hs'. cbn [mbind result_bind]. apply elem_of_cons in Hy as [->|Hy].
  - rewrite Hraise in Hs' by done. done.
  - apply IH; [done | | eauto]. intros z t Hz. apply Hbody. by right.
Qed.

(** ** [get_aggregate_matrix], cell by cell *)

Section aggregate_matrix_cells.
Variables (N k : nat) (M : matrix) (abd : dict nat nat).
Hypothesis M_shape : is_matrix N N M.
Hypothesis abd_values : ∀ b, b ∈ dict_values abd ↔ b < k.

(** The cells of row [i] of [M] that fall in bracket [q], summed over the
    columns [js]. *)
Let row_sum (i : nat) (js : list nat) (q : nat) : Qc :=
  np_sum ((λ j, default 0%Qc (cell i j M))
            <$> filter (λ j, dict_get j abd = Some q) js).

Lemma bracket_of_index (i : nat) :
  i ∈ dict_keys abd → ∃ b, dict_get i abd = Some b ∧ b < k.
Proof.
  intros [b Hb]%dict_get_is_Some. exists b. split; [done|].
  apply abd_values, list_elem_of_fmap. exists (i, b).
  split; [done | by apply dict_get_Some_elem].
Qed.

(** One step of the inner loop. *)
Lemma aggregate_step (M_agg : matrix) g (i j bi bj : nat) :
  cells k k M_agg g → i < N → j < N → bi < k → bj < k →
  ∃ M_agg',
    (old ← item2 bi bj M_agg; x ← item2 i j M;
     Ok (set_item2 bi bj (old + x)%Qc M_agg)) = Ok M_agg'
    ∧ cells k k M_agg'
        (λ p q, if decide (p = bi ∧ q = bj)
                then (g p q + default 0 (cell i j M))%Qc else g p q).
Proof.
  intros Hg Hi Hj Hbi Hbj.
  destruct (cells_set_item2 k k M_agg g bi bj
              (g bi bj + default 0 (cell i j M))%Qc Hg Hbi Hbj) as [-> Hset].
  cbn [mbind result_bind].
  destruct (is_matrix_cell N N M i j M_shape Hi Hj) as [x Hx].
  rewrite (item2_Ok i j M x Hx). cbn [mbind result_bind].
  rewrite Hx in *. simpl in *.
  eexists; split; [done|]. eapply cells_ext; [exact Hset|].
  intros p q _ _. cbv beta.
  destruct (decide (p = bi ∧ q = bj)) as [[-> ->]|]; done.
Qed.

(** The inner loop adds row [i] of [M], bracket by bracket, to row [bi]
    of the aggregate. *)
Lemma aggregate_inner_loop (M_agg : matrix) g (i bi : nat) :
  (∀ j, j < N → j ∈ dict_keys abd) →
  cells k k M_agg g → i < N → bi < k →
  ∃ M_agg',
    for_in (seq 0 N)
      (λ j M_agg,
         bj ← getitem j abd;
         old ← item2 bi bj M_agg;
         x ← item2 i j M;
         Ok (set_item2 bi bj (old + x)%Qc M_agg)) M_agg = Ok M_agg'
    ∧ cells k k M_agg'
        (λ p q, if decide (p = bi)
                then (g p q + row_sum i (seq 0 N) q)%Qc else g p q).
Proof.
  intros Hkeys Hg Hi Hbi.
  apply (for_in_invariant
    (λ done M_agg',
       cells k k M_agg'
         (λ p q, if decide (p = bi)
                 then (g p q + row_sum i done q)%Qc else g p q))).
  - eapply cells_ext; [exact Hg|]. intros p q _ _. cbv beta.
    destruct (decide (p = bi)); [|done]. unfold row_sum, np_sum. simpl. ring.
  - intros done j rest M1 [-> Hj]%seq_split HM1.
    destruct (bracket_of_index (length done) (Hkeys _ Hj)) as (bj & Hbj & Hlt).
    rewrite (proj2 (getitem_Ok abd _ bj) Hbj). cbn [mbind result_bind].
    destruct (aggregate_step M1 _ i (length done) bi bj HM1 Hi Hj Hbi Hlt)
      as (M2 & -> & HM2).
    eexists; split; [done|]. eapply cells_ext; [exact HM2|].
    intros p q _ _. cbv beta. unfold row_sum.
    rewrite filter_app, fmap_app, np_sum_app.
    destruct (decide (p = bi)) as [->|Hp].
    + destruct (decide (q = bj)) as [->|Hq].
      * rewrite decide_True by done. rewrite filter_cons_True by done.
        unfold np_sum. simpl. ring.
      * rewrite decide_False by (intros [_ ?]; done).
        rewrite filter_cons_False by congruence.
        unfold np_sum. simpl. ring.
    + by rewrite decide_False by (intros [? _]; done).
Qed.

Lemma get_aggregate_matrix_value :
  (∀ i, i < N → i ∈ dict_keys abd) →
  ∃ M_agg, get_aggregate_matrix M abd = Ok M_agg
           ∧ cells k k M_agg (block_sum M abd).
Proof.
  intros Hkeys. unfold get_aggregate_matrix.
  rewrite (size_value_set abd k) by done.
  pose proof M_shape as [HN _]. rewrite HN.
  destruct (for_in_invariant
    (λ done M_agg,
       cells k k M_agg
         (λ p q, np_sum ((λ i, row_sum i (seq 0 N) q)
                           <$> filter (λ i, dict_get i abd = Some p) done)))
    (seq 0 N)
    (λ i M_agg,
       bi ← getitem i abd;
       for_in (seq 0 N)
         (λ j M_agg,
            bj ← getitem j abd;
            old ← item2 bi bj M_agg;
            x ← item2 i j M;
            Ok (set_item2 bi bj (old + x)%Qc M_agg))
         M_agg)
    (np_zeros k k)) as (M_agg & Hres & Hcells).
  - apply cells_np_full.
  - intros done i rest M1 [-> Hi]%seq_split HM1.
    destruct (bracket_of_index (length done) (Hkeys _ Hi)) as (bi & Hbi & Hlt).
    rewrite (proj2 (getitem_Ok abd _ bi) Hbi). cbn [mbind result_bind].
    destruct (aggregate_inner_loop M1 _ (length done) bi Hkeys HM1 Hi Hlt)
      as (M2 & -> & HM2).
    eexists; split; [done|]. eapply cells_ext; [exact HM2|].
    intros p q _ _. cbv beta. rewrite filter_app, fmap_app, np_sum_app.
    destruct (decide (p = bi)) as [->|Hp].
    + rewrite filter_cons_True, filter_nil by done.
      rewrite fmap_cons, fmap_nil, np_sum_singleton. ring.
    + rewrite filter_cons_False, filter_nil by congruence.
      rewrite fmap_nil, np_sum_nil. ring.
  - exists M_agg. split; [done|]. eapply cells_ext; [exact Hcells|].
    intros p q _ _. unfold block_sum, row_sum. by rewrite HN.
Qed.
End aggregate_matrix_cells.

Lemma np_sum_plus {A} (g h : A → Qc) (l : list A) :
  np_sum ((λ x, g x + h x)%Qc <$> l)
  = (np_sum (g <$> l) + np_sum (h <$> l))%Qc.
Proof.
  induction l as [|x l IH]; [by rewrite !fmap_nil, np_sum_nil|].
  rewrite !fmap_cons. unfold np_sum in *. cbn [foldr]. rewrite IH. ring.
Qed.

Lemma np_sum_cons (x : Qc) (l : list Qc) :
  np_sum (x :: l) = (x + np_sum l)%Qc.
Proof. done. Qed.

Lemma np_sum_swap {A B} (f : A → B → Qc) (la : list A) (lb : list B) :
  np_sum ((λ a, np_sum (f a <$> lb)) <$> la)
  = np_sum ((λ b, np_sum ((λ a, f a b) <$> la)) <$> lb).
Proof.
  induction la as [|a la IH].
  - rewrite fmap_nil, np_sum_nil.
    induction lb as [|b lb IHb]; [done|].
    rewrite fmap_cons, fmap_nil, np_sum_cons, np_sum_nil, <-IHb. ring.
  - rewrite fmap_cons, np_sum_cons, IH, <-np_sum_plus. done.
Qed.

Lemma block_sum_symmetric (M : matrix) (abd : dict nat nat) (p q : nat) :
  (∀ i j, cell i j M = cell j i M) →
  block_sum M abd p q = block_sum M abd q p.
Proof.
  intros Hsym. unfold block_sum.
  rewrite (np_sum_swap (λ i j, default 0%Qc (cell i j M))).
  f_equal. apply list_fmap_ext. intros _ j _. f_equal.
  apply list_fmap_ext. intros _ i _. by rewrite Hsym.
Qed.

(** X9.  Under the conditions of the sum law, cell [(bi, bj)] of the
    aggregate is the sum of the cells [M[i][j]] with [i] in bracket [bi]
    and [j] in bracket [bj]. *)
Theorem get_aggregate_matrix_block_sums (N k : nat) (M : matrix)
    (abd : dict nat nat) :
  is_matrix N N M →
  (∀ i, i < N → i ∈ dict_keys abd) →
  (∀ b, b ∈ dict_values abd ↔ b < k) →
  ∃ M_agg, get_aggregate_matrix M abd = Ok M_agg
           ∧ is_matrix k k M_agg
           ∧ ∀ bi bj, bi < k → bj < k →
               cell bi bj M_agg = Some (block_sum M abd bi bj).
Proof.
  intros HM Hkeys Hvals.
  destruct (get_aggregate_matrix_value N k M abd HM Hvals Hkeys)
    as (M_agg & Hres & Hshape & Hcells).
  eauto.
Qed.

Lemma get_aggregate_matrix_block_sums_witness :
  let M : matrix :=
    [[qc 1; qc 2; qc 3]; [qc 2; qc 5; qc 6]; [qc 3; qc 6; qc 9]] in
  let abd : dict nat nat := [(0, 0); (1, 0); (2, 1)] in
  get_aggregate_matrix M abd = Ok [[qc 10; qc 9]; [qc 9; qc 9]]
  ∧ ∃ M_agg, get_aggregate_matrix M abd = Ok M_agg
             ∧ is_matrix 2 2 M_agg
             ∧ ∀ bi bj, bi < 2 → bj < 2 →
                 cell bi bj M_agg = Some (block_sum M abd bi bj).
Proof.
  intros M abd. split; [qc_eval|].
  apply (get_aggregate_matrix_block_sums 3 2 M abd).
  - split; [reflexivity|]. apply (bool_decide_unpack _). vm_compute.
    reflexivity.
  - intros i Hi. apply (bool_decide_unpack _).
    destruct i as [|[|[|i]]]; [vm_compute; reflexivity..|lia].
  - intros b. split.
    + intros Hb. apply (bool_decide_pack _) in Hb. vm_compute in Hb.
      destruct b as [|[|b]]; [lia..|]. simpl in Hb. done.
    + intros Hb. apply (bool_decide_unpack _).
      destruct b as [|[|b]]; [vm_compute; reflexivity..|lia].
Defined.

(** X10.  The aggregate of a symmetric matrix of counts is symmetric.
    The cells [(p, q)] and [(q, p)] of the aggregate add the same cells
    of the matrix in different orders; for counts whose total is below
    [2 ^ 53] every partial sum is a whole number that is added without
    rounding, and the two cells are equal. *)
Theorem get_aggregate_matrix_symmetric (N k : nat) (M : matrix)
    (abd : dict nat nat) :
  is_matrix N N M →
  Forall (Forall count) M →
  (matrix_sum M < qc (2 ^ 53))%Qc →
  (∀ i j, cell i j M = cell j i M) →
  (∀ i, i < N → i ∈ dict_keys abd) →
  (∀ b, b ∈ dict_values abd ↔ b < k) →
  ∃ M_agg, get_aggregate_matrix M abd = Ok M_agg
           ∧ ∀ p q, cell p q M_agg = cell q p M_agg.
Proof.
  intros HM _ _ Hsym Hkeys Hvals.
  destruct (get_aggregate_matrix_value N k M abd HM Hvals Hkeys)
    as (M_agg & Hres & Hshape & Hcells).
  exists M_agg. split; [done|]. intros p q.
  destruct (decide (p < k ∧ q < k)) as [[Hp Hq]|Hout].
  - rewrite (Hcells p q), (Hcells q p) by done.
    by rewrite (block_sum_symmetric M abd p q).
  - rewrite !(cell_outside k k) by (done || lia). done.
Qed.

Lemma get_aggregate_matrix_symmetric_witness :
  let M : matrix :=
    [[qc 1; qc 2; qc 3]; [qc 2; qc 5; qc 6]; [qc 3; qc 6; qc 9]] in
  let abd : dict nat nat := [(0, 0); (1, 0); (2, 1)] in
  ∃ M_agg, get_aggregate_matrix M abd = Ok M_agg
           ∧ ∀ p q, cell p q M_agg = cell q p M_agg.
Proof.
  intros M abd. apply (get_aggregate_matrix_symmetric 3 2 M abd).
  - split; [reflexivity|]. apply (bool_decide_unpack _). vm_compute.
    reflexivity.
  - repeat first [apply Forall_nil_2 | apply Forall_cons_2];
      (split; [reflexivity | vm_compute; discriminate]).
  - vm_compute. reflexivity.
  - intros i j.
    destruct i as [|[|[|i]]], j as [|[|[|j]]]; reflexivity.
  - intros i Hi. apply (bool_decide_unpack _).
    destruct i as [|[|[|i]]]; [vm_compute; reflexivity..|lia].
  - intros b. split.
    + intros Hb. apply (bool_decide_pack _) in Hb. vm_compute in Hb.
      destruct b as [|[|b]]; [lia..|]. simpl in Hb. done.
    + intros Hb. apply (bool_decide_unpack _).
      destruct b as [|[|b]]; [vm_compute; reflexivity..|lia].
Defined.

(** ** Exceptions of the matrix functions *)

Lemma for_in_ok_or_raise {A S} (I : S → Prop) (xs : list A)
    (body : A → S → result S) (s : S) (e : exn) :
  I s →
  (∀ x s, x ∈ xs → I s →
     (∃ s', body x s = Ok s' ∧ I s') ∨ body x s = Raise e) →
  (∃ s', for_in xs body s = Ok s' ∧ I s') ∨ for_in xs body s = Raise e.
Proof.
  revert s. induction xs as [|x xs IH]; intros s Hs Hbody; [left; eauto|].
  cbn [for_in].
  destruct (Hbody x s) as [(s' & Hs' & HI)|Hs']; [left | done | |];
    rewrite Hs'; cbn [mbind result_bind]; [|by right].
  apply IH; [done|]. intros z t Hz. apply Hbody. by right.
Qed.

Lemma seq_0_cons (n : nat) : 0 < n → seq 0 n = 0 :: seq 1 (n - 1).
Proof. destruct n; [lia|]. intros _. simpl. by rewrite Nat.sub_0_r. Qed.

Lemma for_in_head_raise {A S} (xs : list A) (x : A) (xs' : list A)
    (body : A → S → result S) (s : S) (e : exn) :
  xs = x :: xs' → body x s = Raise e → for_in xs body s = Raise e.
Proof. intros -> H. simpl. by rewrite H. Qed.

(** The inner loop of [get_aggregate_matrix] on a [k × k] aggregate: it
    raises nothing but [KeyError], and it does raise it when an index
    has no bracket. *)
Lemma aggregate_inner_loop_KeyError (N k : nat) (M : matrix)
    (abd : dict nat nat) (M_agg : matrix) (i bi a : nat) :
  is_matrix N N M → (∀ b, b ∈ dict_values abd ↔ b < k) →
  is_matrix k k M_agg → i < N → bi < k →
  a < N → a ∉ dict_keys abd →
  for_in (seq 0 N)
    (λ j M_agg,
       bj ← getitem j abd;
       old ← item2 bi bj M_agg;
       x ← item2 i j M;
       Ok (set_item2 bi bj (old + x)%Qc M_agg)) M_agg = Raise KeyError.
Proof.
  intros HM Hvals Hagg Hi Hbi Ha Hmiss.
  apply (for_in_first_raise_inv (is_matrix k k)); [done | |].
  - intros j M1 [_ Hj]%elem_of_seq HM1.
    destruct (getitem_cases j abd) as [(bj & -> & Hbj)|[-> _]]; [|by right].
    cbn [mbind result_bind]. left.
    destruct (bracket_of_index k abd Hvals j) as (bj' & Hbj' & Hlt).
    { apply dict_get_is_Some. eauto. }
    assert (bj' = bj) as -> by congruence.
    destruct (aggregate_step N k M HM M1 _ i j bi bj
                (cells_default k k M1 HM1)) as (M2 & -> & [HM2 _]);
      [lia.. | done | done |]. eauto.
  - exists a. split; [apply elem_of_seq; lia|]. intros M1 _.
    destruct (getitem_cases a abd) as [(bj & _ & Hbj)|[-> _]]; [|done].
    exfalso. apply Hmiss, dict_get_is_Some. eauto.
Qed.

(** X11.  An index of the matrix without a bracket makes
    [get_aggregate_matrix] raise [KeyError]. *)
Theorem get_aggregate_matrix_missing_index (N k : nat) (M : matrix)
    (abd : dict nat nat) (a : nat) :
  is_matrix N N M →
  (∀ b, b ∈ dict_values abd ↔ b < k) →
  a < N → a ∉ dict_keys abd →
  get_aggregate_matrix M abd = Raise KeyError.
Proof.
  intros HM Hvals Ha Hmiss. unfold get_aggregate_matrix.
  rewrite (size_value_set abd k) by done.
  pose proof HM as [HN _]. rewrite HN.
  apply (for_in_head_raise _ 0 (seq 1 (N - 1))); [apply seq_0_cons; lia|].
  destruct (getitem_cases 0 abd) as [(bi & -> & Hbi)|[-> _]]; [|done].
  cbn [mbind result_bind].
  destruct (bracket_of_index k abd Hvals 0) as (bi' & Hbi' & Hlt).
  { apply dict_get_is_Some. eauto. }
  assert (bi' = bi) as -> by congruence.
  apply (aggregate_inner_loop_KeyError N k M abd _ 0 bi a);
    [done | done | apply is_matrix_np_full | lia | done | done | done].
Qed.

Lemma get_aggregate_matrix_missing_index_witness :
  get_aggregate_matrix [[qc 1; qc 2]; [qc 2; qc 1]] [(0, 0)] = Raise KeyError.
Proof.
  apply (get_aggregate_matrix_missing_index 2 1 _ _ 1).
  - split; [reflexivity|]. apply (bool_decide_unpack _). vm_compute.
    reflexivity.
  - intros b. split.
    + intros Hb. apply (bool_decide_pack _) in Hb. vm_compute in Hb.
      destruct b as [|b]; [lia|]. simpl in Hb. done.
    + intros Hb. apply (bool_decide_unpack _).
      destruct b as [|b]; [vm_compute; reflexivity|lia].
  - lia.
  - apply (bool_decide_unpack _). vm_compute. reflexivity.
Defined.

Lemma item2_Raise (i j : nat) (M : matrix) :
  cell i j M = None → item2 i j M = Raise IndexError.
Proof.
  unfold cell, item2, item. destruct (M !! i) as [row|]; [|done]. simpl.
  by intros ->.
Qed.

(** The inner loop of [get_aggregate_matrix] for a row of the aggregate
    that does not exist. *)
Lemma aggregate_inner_loop_no_row (N k : nat) (M : matrix)
    (abd : dict nat nat) (M_agg : matrix) (i bi : nat) :
  (∀ j, j < N → j ∈ dict_keys abd) →
  is_matrix k k M_agg → 0 < N → k ≤ bi →
  for_in (seq 0 N)
    (λ j M_agg,
       bj ← getitem j abd;
       old ← item2 bi bj M_agg;
       x ← item2 i j M;
       Ok (set_item2 bi bj (old + x)%Qc M_agg)) M_agg = Raise IndexError.
Proof.
  intros Hkeys Hagg HN Hbi.
  apply (for_in_head_raise _ 0 (seq 1 (N - 1))); [by apply seq_0_cons|].
  destruct (proj2 (dict_get_is_Some abd 0) (Hkeys 0 HN)) as [bj Hbj].
  rewrite (proj2 (getitem_Ok abd 0 bj) Hbj). cbn [mbind result_bind].
  rewrite (item2_Raise bi bj M_agg); [reflexivity|].
  apply (cell_outside k k); [done | by left].
Qed.

(** X12.  A bracket identifier that is not below the number of distinct
    identifiers makes [get_aggregate_matrix] raise [IndexError]: the
    identifiers have to be [0 .. k-1]. *)
Theorem get_aggregate_matrix_bracket_out_of_range (N : nat) (M : matrix)
    (abd : dict nat nat) (a b : nat) :
  is_matrix N N M →
  (∀ i, i < N → i ∈ dict_keys abd) →
  a < N → dict_get a abd = Some b →
  size (value_set abd) ≤ b →
  get_aggregate_matrix M abd = Raise IndexError.
Proof.
  intros HM Hkeys Ha Hb Hbig. unfold get_aggregate_matrix.
  set (k := size (value_set abd)) in *.
  pose proof HM as [HN _]. rewrite HN.
  apply (for_in_first_raise_inv (is_matrix k k));
    [apply is_matrix_np_full | |].
  - intros i M1 [_ Hi]%elem_of_seq HM1.
    destruct (proj2 (dict_get_is_Some abd i)) as [bi Hbi];
      [apply Hkeys; lia|].
    rewrite (proj2 (getitem_Ok abd i bi) Hbi). cbn [mbind result_bind].
    destruct (decide (bi < k)) as [Hlt|Hge].
    + apply (for_in_ok_or_raise (is_matrix k k)); [done|].
      intros j M2 [_ Hj]%elem_of_seq HM2.
      destruct (proj2 (dict_get_is_Some abd j)) as [bj Hbj];
        [apply Hkeys; lia|].
      rewrite (proj2 (getitem_Ok abd j bj) Hbj). cbn [mbind result_bind].
      destruct (decide (bj < k)) as [Hltj|Hgej].
      * left.
        destruct (is_matrix_cell k k M2 bi bj HM2 Hlt Hltj) as [old Hold].
        rewrite (item2_Ok bi bj M2 old Hold). cbn [mbind result_bind].
        destruct (is_matrix_cell N N M i j HM) as [x Hx]; [lia..|].
        rewrite (item2_Ok i j M x Hx). cbn [mbind result_bind].
        eexists; split; [done|].
        by apply (set_item2_spec k k M2 bi bj old).
      * right. rewrite (item2_Raise bi bj M2); [reflexivity|].
        apply (cell_outside k k); [done | right; lia].
    + right. apply (aggregate_inner_loop_no_row N k); [done.. | lia | lia].
  - exists a. split; [apply elem_of_seq; lia|]. intros M1 HM1.
    rewrite (proj2 (getitem_Ok abd a b) Hb). cbn [mbind result_bind].
    apply (aggregate_inner_loop_no_row N k); [done.. | lia | done].
Qed.

Lemma get_aggregate_matrix_bracket_out_of_range_witness :
  get_aggregate_matrix [[qc 1; qc 2]; [qc 2; qc 1]] [(0, 1); (1, 2)]
  = Raise IndexError.
Proof.
  apply (get_aggregate_matrix_bracket_out_of_range 2 _ _ 1 2).
  - split; [reflexivity|]. apply (bool_decide_unpack _). vm_compute.
    reflexivity.
  - intros i Hi. apply (bool_decide_unpack _).
    destruct i as [|[|i]]; [vm_compute; reflexivity..|lia].
  - lia.
  - reflexivity.
  - vm_compute. lia.
Defined.

(** X13.  A key of the sizes that is not a row index of the matrix makes
    [get_asymmetric_matrix] raise [IndexError]. *)
Theorem get_asymmetric_matrix_index_error (N : nat) (h : heap)
    (symmetric_matrix : nat) (Sym : ndarray) (aggregate_ages : dict nat Qc)
    (a : nat) :
  h !! symmetric_matrix = Some Sym →
  is_matrix N N (data Sym) →
  a ∈ dict_keys aggregate_ages → N ≤ a →
  get_asymmetric_matrix symmetric_matrix aggregate_ages h = Raise IndexError.
Proof.
  intros Hsym HS Ha Hge. unfold get_asymmetric_matrix, deepcopy.
  assert (deref symmetric_matrix h = Sym) as ->
    by (by apply list_lookup_total_correct).
  rewrite (for_in_first_raise_inv
             (λ h1, ∃ A, h1 !! length h = Some A ∧ is_matrix N N (data A))
             _ _ _ IndexError); [done | | |].
  - exists Sym. split; [by apply list_lookup_middle | done].
  - intros x h1 Hx (A & HA & HAshape).
    assert (deref (length h) h1 = A) as ->
      by (by apply list_lookup_total_correct).
    destruct (decide (x < N)) as [Hlt|Hnlt].
    + left.
      destruct (proj2 (dict_get_is_Some aggregate_ages x) Hx) as [n Hn].
      destruct (cells_divide_row N N (data A) _ x n (cast (dtype_of A))
                  (cells_default N N (data A) HAshape) Hlt)
        as (row & -> & [HA' _]).
      cbn [mbind result_bind].
      rewrite (proj2 (getitem_Ok aggregate_ages x n) Hn).
      cbn [mbind result_bind]. eexists; split; [done|].
      exists (set_row x (divide row n) A). split; [|exact HA'].
      apply list_lookup_insert_eq. by eapply lookup_lt_Some.
    + right. unfold item. rewrite (proj2 (lookup_ge_None (data A) x)); [done|].
      destruct HAshape as [-> _]. lia.
  - exists a. split; [done|]. intros h1 (A & HA & HAshape).
    assert (deref (length h) h1 = A) as ->
      by (by apply list_lookup_total_correct).
    unfold item. rewrite (proj2 (lookup_ge_None (data A) a)); [done|].
    destruct HAshape as [-> _]. lia.
Qed.

Lemma get_asymmetric_matrix_index_error_witness :
  get_asymmetric_matrix 0 [(0, qc 2); (2, qc 2)]
    [{| dtype_of := Float64; data := [[qc 1; qc 2]; [qc 2; qc 1]] |}]
  = Raise IndexError.
Proof.
  apply (get_asymmetric_matrix_index_error 2 _ 0
           {| dtype_of := Float64; data := [[qc 1; qc 2]; [qc 2; qc 1]] |}
           _ 2).
  - reflexivity.
  - split; [reflexivity|]. apply (bool_decide_unpack _). vm_compute.
    reflexivity.
  - apply (bool_decide_unpack _). vm_compute. reflexivity.
  - lia.
Defined.

(** ** The rows of [get_asymmetric_matrix] *)

(** X22.  For an [N × N] array, of either element type, and sizes that
    are not zero and whose keys are row indices, the function returns a
    fresh array of the element type of its argument and leaves every
    array of the heap, the argument among them, as it was.  Row [a] of
    the result holds, for every key [a] of the sizes, the cells of row
    [a] of the argument divided by the size of cohort [a] and converted
    to the element type: the quotient itself in an array of floats, the
    quotient without its fraction in an array of integers (for whole
    numbers that a float holds exactly).  The other
    rows are those of the argument.  For an array of floats whose rows
    all have the size [k], the result is the argument divided by [k]. *)
Theorem get_asymmetric_matrix_rows (N : nat) (h : heap)
    (symmetric_matrix : nat) (Sym : ndarray) (aggregate_ages : dict nat Qc) :
  h !! symmetric_matrix = Some Sym →
  is_matrix N N (data Sym) →
  NoDup (dict_keys aggregate_ages) →
  Forall (λ n, n ≠ 0%Qc) (dict_values aggregate_ages) →
  (∀ a, a ∈ dict_keys aggregate_ages → a < N) →
  ∃ M h' A,
    get_asymmetric_matrix symmetric_matrix aggregate_ages h = Ok (M, h')
    ∧ (∀ r, r < length h → h' !! r = h !! r)
    ∧ h' !! symmetric_matrix = Some Sym
    ∧ M ≠ symmetric_matrix
    ∧ h' !! M = Some A
    ∧ dtype_of A = dtype_of Sym
    ∧ is_matrix N N (data A)
    ∧ (∀ a n j x,
         dict_get a aggregate_ages = Some n →
         cell a j (data Sym) = Some x →
         converts (dtype_of Sym) x n →
         cell a j (data A) = Some (cast (dtype_of Sym) (x / n)%Qc))
    ∧ (∀ a j, a ∉ dict_keys aggregate_ages →
              cell a j (data A) = cell a j (data Sym))
    ∧ (dtype_of Sym = Float64 →
       ∀ k, (∀ a, a < N → dict_get a aggregate_ages = Some k) →
            data A = divide_all (data Sym) k).
Proof.
  intros Hsym HS Hnd Hnz Hrange. unfold get_asymmetric_matrix, deepcopy.
  assert (symmetric_matrix < length h) as Hlt by (by eapply lookup_lt_Some).
  assert (deref symmetric_matrix h = Sym) as ->
    by (by apply list_lookup_total_correct).
  set (t := dtype_of Sym).
  set (g := λ i j, default 0%Qc (cell i j (data Sym))).
  set (size := λ a, default 0%Qc (dict_get a aggregate_ages)).
  destruct (for_in_invariant
    (λ done h1,
       length h1 = S (length h)
       ∧ (∀ r, r < length h → h1 !! r = h !! r)
       ∧ ∃ A, h1 !! length h = Some A
              ∧ dtype_of A = t
              ∧ cells N N (data A)
                  (λ i j, if decide (i ∈ done)
                          then cast t (g i j / size i)%Qc
                          else g i j))
    (dict_keys aggregate_ages)
    (λ a h1,
       row ← item a (data (deref (length h) h1));
       n ← getitem a aggregate_ages;
       Ok (<[length h := set_row a (divide row n) (deref (length h) h1)]> h1))
    (h ++ [Sym])) as (h' & Hres & Hlen & Hold & A & HA & Ht & Hcells).
  - split; [rewrite length_app; simpl; lia|]. split.
    + intros r Hr. by rewrite lookup_app_l.
    + exists Sym. split; [by apply list_lookup_middle|]. split; [done|].
      eapply cells_ext; [by apply cells_default|]. intros i j _ _.
      rewrite decide_False; [done | apply not_elem_of_nil].
  - intros done a rest h1 Hsplit (Hlen & Hold & A & HA & Ht & Hcells).
    assert (a ∈ dict_keys aggregate_ages) as Ha
      by (rewrite Hsplit; apply elem_of_app; right; left).
    assert (a ∉ done) as Hfresh.
    { rewrite Hsplit in Hnd. apply NoDup_app in Hnd as (_ & Hnd & _).
      intros Hin. apply (Hnd a Hin). left. }
    assert (deref (length h) h1 = A) as ->
      by (by apply list_lookup_total_correct).
    destruct (cells_divide_row N N (data A) _ a (size a) (cast t)
                Hcells (Hrange a Ha)) as (row & -> & HA').
    cbn [mbind result_bind].
    assert (getitem a aggregate_ages = Ok (size a)) as ->.
    { apply getitem_Ok. unfold size.
      by destruct (proj2 (dict_get_is_Some aggregate_ages a) Ha) as [n ->]. }
    cbn [mbind result_bind]. eexists; split; [done|].
    split; [by rewrite length_insert|]. split.
    + intros r Hr. rewrite list_lookup_insert_ne by lia. by apply Hold.
    + eexists. split; [apply list_lookup_insert_eq; lia|].
      split; [done|]. unfold set_row. cbn [data]. rewrite Ht.
      eapply cells_ext; [exact HA'|]. intros i j _ _.
      cbv beta.
      assert (i ∈ done ++ [a] ↔ i ∈ done ∨ i = a) as Hiff
        by (by rewrite elem_of_app, list_elem_of_singleton).
      destruct (decide (i = a)) as [Heq|Hne];
        destruct (decide (i ∈ done)) as [Hin|Hin];
        destruct (decide (i ∈ done ++ [a])) as [Hin'|Hin'];
        subst; try done; exfalso; intuition congruence.
  - destruct Hcells as [HAshape Hcell].
    exists (length h), h', A. split; [by rewrite Hres|].
    split; [done|]. split; [by rewrite Hold|]. split; [lia|].
    split; [done|]. split; [done|]. split; [done|]. split; [|split].
    + intros a n j x Hn Hx _.
      assert (a < N ∧ j < N) as [Ha Hj].
      { destruct (decide (a < N)), (decide (j < N)); try done;
          rewrite (cell_outside N N) in Hx by (done || lia); done. }
      rewrite (Hcell a j Ha Hj). unfold g, size. rewrite Hn, Hx. simpl.
      rewrite decide_True; [done|]. apply dict_get_is_Some. eauto.
    + intros a j Ha. destruct (decide (a < N ∧ j < N)) as [[Hi Hj]|Hout].
      * rewrite (Hcell a j Hi Hj), decide_False by done. unfold g.
        by destruct (is_matrix_cell N N (data Sym) a j HS Hi Hj) as [x ->].
      * rewrite !(cell_outside N N) by (done || lia). done.
    + intros Hfloat k Hk.
      pose proof (cells_divide_all N N (data Sym) g k
                    (cells_default N N (data Sym) HS)) as [HD Hdiv].
      apply (matrix_ext N N); [done..|]. intros i j Hi Hj.
      rewrite (Hcell i j Hi Hj), (Hdiv i j Hi Hj). unfold size.
      rewrite (Hk i Hi), Hfloat. simpl. rewrite decide_True; [done|].
      apply dict_get_is_Some. rewrite (Hk i Hi). eauto.
Qed.

Lemma get_asymmetric_matrix_rows_witness :
  let Sym := {| dtype_of := Float64; data := [[qc 1; qc 2]; [qc 2; qc 1]] |} in
  let aggregate_ages : dict nat Qc := [(0, qc 2); (1, qc 2)] in
  ∃ M h' A,
    get_asymmetric_matrix 0 aggregate_ages [Sym] = Ok (M, h')
    ∧ (∀ r, r < 1 → h' !! r = [Sym] !! r)
    ∧ h' !! 0 = Some Sym
    ∧ M ≠ 0
    ∧ h' !! M = Some A
    ∧ dtype_of A = Float64
    ∧ is_matrix 2 2 (data A)
    ∧ (∀ a n j x,
         dict_get a aggregate_ages = Some n →
         cell a j (data Sym) = Some x →
         converts Float64 x n →
         cell a j (data A) = Some (cast Float64 (x / n)%Qc))
    ∧ (∀ a j, a ∉ dict_keys aggregate_ages →
              cell a j (data A) = cell a j (data Sym))
    ∧ (Float64 = Float64 →
       ∀ k, (∀ a, a < 2 → dict_get a aggregate_ages = Some k) →
            data A = divide_all (data Sym) k).
Proof.
  intros Sym sizes.
  apply (get_asymmetric_matrix_rows 2 [Sym] 0 Sym sizes).
  - reflexivity.
  - split; [reflexivity|]. apply (bool_decide_unpack _). vm_compute.
    reflexivity.
  - apply (bool_decide_unpack _). vm_compute. reflexivity.
  - repeat constructor; vm_compute; discriminate.
  - apply Forall_forall. apply (bool_decide_unpack _). vm_compute.
    reflexivity.
Defined.

(** ** Exceptions of [get_symmetric_community_matrix] *)

(** X14.  When the keys of [ages] are not [0 .. N-1], an index below
    [N = len(ages)] being no key, [get_symmetric_community_matrix] raises
    [KeyError]. *)
Theorem get_symmetric_community_matrix_missing_key (ages : dict nat Qc)
    (a : nat) :
  a < length ages → a ∉ dict_keys ages →
  get_symmetric_community_matrix ages = Raise KeyError.
Proof.
  intros Ha Hmiss. unfold get_symmetric_community_matrix. cbv zeta.
  set (N := length ages) in *.
  rewrite (for_in_first_raise_inv (is_matrix N N) _ _ _ KeyError);
    [done | apply is_matrix_np_full | |].
  - intros x M [_ Hx]%elem_of_seq HM.
    destruct (cells_scale_row N N M _ x
                (default 0%Qc (dict_get x ages))
                (cells_default N N M HM)) as (row & -> & HM1); [lia|].
    cbn [mbind result_bind].
    destruct (getitem_cases x ages) as [(n & -> & Hn)|[-> _]]; [|by right].
    cbn [mbind result_bind]. rewrite Hn in HM1. simpl in HM1.
    destruct (cells_scale_column N N _ _ x n HM1) as (col & -> & [HM2 _]);
      [lia|].
    cbn [mbind result_bind]. left. eauto.
  - exists a. split; [apply elem_of_seq; lia|]. intros M HM.
    destruct (cells_scale_row N N M _ a 0%Qc (cells_default N N M HM))
      as (row & -> & _); [lia|].
    cbn [mbind result_bind].
    destruct (getitem_cases a ages) as [(n & _ & Hn)|[-> _]]; [|done].
    exfalso. apply Hmiss, dict_get_is_Some. eauto.
Qed.

Lemma get_symmetric_community_matrix_missing_key_witness :
  get_symmetric_community_matrix [(0, qc 2); (5, qc 3)] = Raise KeyError.
Proof.
  apply (get_symmetric_community_matrix_missing_key _ 1).
  - simpl. lia.
  - apply (bool_decide_unpack _). vm_compute. reflexivity.
Defined.

(** ** Exceptions of [combine_matrices] *)

(** X15.  A weighted setting without a matrix makes [combine_matrices]
    raise [KeyError], the matrices of the weighted settings being
    [n × n]. *)
Theorem combine_matrices_missing_matrix {S : Type} `{!EqDecision S}
    (md : dict S matrix) (wd : dict S Qc) (n : nat) (s : S) :
  s ∈ dict_keys wd → s ∉ dict_keys md →
  (∀ s' A, s' ∈ dict_keys wd → dict_get s' md = Some A → is_matrix n n A) →
  combine_matrices md wd n = Raise KeyError.
Proof.
  intros Hs Hmiss Hshape. unfold combine_matrices.
  apply (for_in_first_raise_inv (is_matrix n n)); [apply is_matrix_np_full | |].
  - intros x M Hx HM.
    destruct (getitem_cases x md) as [(A & -> & HA)|[-> _]]; [|by right].
    cbn [mbind result_bind].
    destruct (proj2 (dict_get_is_Some wd x) Hx) as [w Hw].
    rewrite (proj2 (getitem_Ok wd x w) Hw). cbn [mbind result_bind].
    destruct (iadd_cells n M (scale_all A w) _ _ (cells_default n n M HM)
                (cells_scale_all n n A _ w
                   (cells_default n n A (Hshape x A Hx HA))))
      as (M' & -> & [HM' _]).
    left. eauto.
  - exists s. split; [done|]. intros M _.
    destruct (getitem_cases s md) as [(A & _ & HA)|[-> _]]; [|done].
    exfalso. apply Hmiss, dict_get_is_Some. eauto.
Qed.

Lemma combine_matrices_missing_matrix_witness :
  combine_matrices [("a", [[qc 1; qc 2]; [qc 2; qc 1]])]
    [("a", (1 / 2)%Qc); ("b", (1 / 2)%Qc)] 2
  = Raise KeyError.
Proof.
  apply (combine_matrices_missing_matrix _ _ 2 "b").
  - apply (bool_decide_unpack _). vm_compute. reflexivity.
  - apply (bool_decide_unpack _). vm_compute. reflexivity.
  - intros s' A _ HA. simpl in HA.
    destruct (decide (s' = "a")); [|done]. injection HA as <-.
    split; [reflexivity|]. by repeat constructor.
Defined.

(** ** [normalize_dictionary] of a normalized dictionary *)



(** ** [get_uids_by_age_dictionary] *)

Lemma first_seen_snoc {A} `{!EqDecision A} (l : list A) (a : A) :
  first_seen (l ++ [a])
  = if decide (a ∈ first_seen l) then first_seen l else first_seen l ++ [a].
Proof. unfold first_seen. by rewrite foldl_snoc. Qed.

Lemma first_seen_elem {A} `{!EqDecision A} (l : list A) (a : A) :
  a ∈ first_seen l ↔ a ∈ l.
Proof.
  induction l as [|x l IH] using rev_ind; [done|].
  rewrite first_seen_snoc, elem_of_app, list_elem_of_singleton.
  destruct (decide (x ∈ first_seen l)) as [Hx|Hx].
  - rewrite IH. split; [by left|]. intros [Hin | Heq]; [done|].
    subst. by apply IH.
  - by rewrite elem_of_app, list_elem_of_singleton, IH.
Qed.

Lemma first_seen_NoDup {A} `{!EqDecision A} (l : list A) :
  NoDup (first_seen l).
Proof.
  induction l as [|x l IH] using rev_ind; [constructor|].
  rewrite first_seen_snoc. destruct (decide (x ∈ first_seen l)); [done|].
  apply NoDup_app. split; [done|]. split; [|apply NoDup_singleton].
  intros y Hy Heq%list_elem_of_singleton. by subst.
Qed.

Section uids_by_age_facts.
Context {Id : Type} `{!EqDecision Id} {V : Type} `{!EqDecision V}.
Implicit Types popdict : dict Id (dict string V).

Lemma age_of_getitem popdict (uid : Id) (a : V) :
  age_of popdict uid = Some a →
  (person ← getitem uid popdict; getitem "age" person) = Ok a.
Proof.
  unfold age_of, getitem. destruct (dict_get uid popdict) as [person|];
    [|done]. simpl. by intros ->.
Qed.

Lemma age_of_getitem_None popdict (uid : Id) :
  age_of popdict uid = None →
  (person ← getitem uid popdict; getitem "age" person) = Raise KeyError.
Proof.
  unfold age_of, getitem. destruct (dict_get uid popdict) as [person|];
    [|done]. simpl. by intros ->.
Qed.

(** One person filed under the age [a]. *)
Lemma uids_step (s : dict V (list Id)) (a : V) (uid : Id) :
  ∃ s', (uids ← getitem a (setdefault a [] s);
         Ok (dict_set a (uids ++ [uid]) (setdefault a [] s))) = Ok s'
        ∧ dict_keys s'
          = (if decide (a ∈ dict_keys s) then dict_keys s
             else dict_keys s ++ [a])
        ∧ ∀ a', dict_get a' s'
                = if decide (a' = a)
                  then Some (default [] (dict_get a s) ++ [uid])
                  else dict_get a' s.
Proof.
  unfold setdefault. destruct (dict_get a s) as [l|] eqn:Hl.
  - rewrite (proj2 (getitem_Ok s a l) Hl). cbn [mbind result_bind].
    eexists; split; [done|].
    assert (a ∈ dict_keys s) as Hin by (apply dict_get_is_Some; eauto).
    split.
    + rewrite decide_True by done. by apply dict_set_keys.
    + intros a'. by rewrite dict_get_set.
  - assert (a ∉ dict_keys s) as Hout by (by apply dict_get_None).
    assert (dict_get a (dict_set a [] s) = Some []) as Hget
      by (rewrite dict_get_set; by rewrite decide_True).
    rewrite (proj2 (getitem_Ok _ a _) Hget). cbn [mbind result_bind].
    eexists; split; [done|]. split.
    + rewrite decide_False by done.
      rewrite dict_set_keys by (apply dict_get_is_Some; eauto).
      rewrite dict_set_fresh by done. unfold dict_keys.
      by rewrite fmap_app.
    + intros a'. rewrite !dict_get_set.
      destruct (decide (a' = a)); done.
Qed.

Lemma get_uids_by_age_dictionary_value popdict :
  (∀ uid, uid ∈ dict_keys popdict → is_Some (age_of popdict uid)) →
  ∃ r, get_uids_by_age_dictionary popdict = Ok r
       ∧ dict_keys r = first_seen (omap (age_of popdict) (dict_keys popdict))
       ∧ ∀ a, a ∈ dict_keys r →
              dict_get a r = Some (uids_of_age a popdict).
Proof.
  intros Hages. unfold get_uids_by_age_dictionary, uids_of_age. cbv zeta.
  apply (for_in_invariant
    (λ done s,
       dict_keys s = first_seen (omap (age_of popdict) done)
       ∧ ∀ a, a ∈ dict_keys s →
              dict_get a s
              = Some (filter (λ uid, age_of popdict uid = Some a) done))).
  - split; [done|]. by intros a ?%elem_of_nil.
  - intros done uid rest s Hsplit [Hkeys Hget].
    destruct (Hages uid) as [a Ha];
      [rewrite Hsplit; apply elem_of_app; right; left|].
    pose proof (age_of_getitem popdict uid a Ha) as Hage.
    destruct (getitem uid popdict) as [person|]; [|done].
    cbn [mbind result_bind] in *. rewrite Hage. cbn [mbind result_bind].
    destruct (uids_step s a uid) as (s' & -> & Hkeys' & Hget').
    eexists; split; [done|].
    assert (omap (age_of popdict) (done ++ [uid])
            = omap (age_of popdict) done ++ [a]) as Homap
      by (rewrite omap_app; simpl; by rewrite Ha).
    split.
    + rewrite Hkeys', Homap, first_seen_snoc, Hkeys. done.
    + intros a' Ha'. rewrite Hget', filter_app.
      destruct (decide (a' = a)) as [->|Hne].
      * rewrite filter_cons_True, filter_nil by done. do 2 f_equal.
        destruct (decide (a ∈ dict_keys s)) as [Hin|Hout].
        -- by rewrite Hget.
        -- rewrite (proj2 (dict_get_None s a) Hout). simpl. symmetry.
           apply filter_nil_intro. intros u Hu Hua. apply Hout.
           rewrite Hkeys. apply first_seen_elem, list_elem_of_omap. eauto.
      * rewrite filter_cons_False, filter_nil, app_nil_r by congruence.
        apply Hget. rewrite Hkeys' in Ha'.
        destruct (decide (a ∈ dict_keys s)); [done|].
        apply elem_of_app in Ha' as [?|?%list_elem_of_singleton]; done.
Qed.

(** X17.  When every person has an age, the index has the ages that
    occur as keys, each once, in the order in which they are first seen,
    and the list of an age holds the identifiers of the persons of that
    age in iteration order; no other age gets a bucket. *)
Theorem get_uids_by_age_dictionary_spec popdict :
  (∀ uid, uid ∈ dict_keys popdict → is_Some (age_of popdict uid)) →
  ∃ r, get_uids_by_age_dictionary popdict = Ok r
       ∧ dict_keys r = first_seen (omap (age_of popdict) (dict_keys popdict))
       ∧ NoDup (dict_keys r)
       ∧ (∀ a, a ∈ dict_keys r
               ↔ ∃ uid, uid ∈ dict_keys popdict ∧ age_of popdict uid = Some a)
       ∧ ∀ a, a ∈ dict_keys r →
              dict_get a r = Some (uids_of_age a popdict).
Proof.
  intros Hages.
  destruct (get_uids_by_age_dictionary_value popdict Hages)
    as (r & Hr & Hkeys & Hget).
  exists r. split; [done|]. split; [done|]. rewrite Hkeys.
  split; [apply first_seen_NoDup|]. split; [|by rewrite <-Hkeys].
  intros a. rewrite first_seen_elem, list_elem_of_omap. done.
Qed.

(** X18.  A person without an age makes [get_uids_by_age_dictionary]
    raise [KeyError]. *)
Theorem get_uids_by_age_dictionary_missing_age popdict (uid : Id) :
  uid ∈ dict_keys popdict → age_of popdict uid = None →
  get_uids_by_age_dictionary popdict = Raise KeyError.
Proof.
  intros Huid Hnone. unfold get_uids_by_age_dictionary. cbv zeta.
  apply for_in_first_raise.
  - intros x s _. destruct (age_of popdict x) as [a|] eqn:Ha.
    + pose proof (age_of_getitem popdict x a Ha) as Hage.
      destruct (getitem x popdict) as [person|]; [|done].
      cbn [mbind result_bind] in *. rewrite Hage. cbn [mbind result_bind].
      destruct (uids_step s a x) as (s' & -> & _). left. eauto.
    + pose proof (age_of_getitem_None popdict x Ha) as Hage.
      destruct (getitem x popdict) as [person|];
        cbn [mbind result_bind] in *;
        [|right; by injection Hage as ->].
      rewrite Hage. right. reflexivity.
  - exists uid. split; [done|]. intros s.
    pose proof (age_of_getitem_None popdict uid Hnone) as Hage.
    destruct (getitem uid popdict) as [person|];
      cbn [mbind result_bind] in *; [|by injection Hage as ->].
    by rewrite Hage.
Qed.
End uids_by_age_facts.

Lemma get_uids_by_age_dictionary_spec_witness :
  let popdict : dict nat (dict string nat) :=
    [(7, [("age", 30); ("sex", 1)]); (3, [("age", 5)]); (9, [("age", 30)])] in
  get_uids_by_age_dictionary popdict = Ok [(30, [7; 9]); (5, [3])]
  ∧ ∃ r, get_uids_by_age_dictionary popdict = Ok r
         ∧ dict_keys r
           = first_seen (omap (age_of popdict) (dict_keys popdict))
         ∧ NoDup (dict_keys r)
         ∧ (∀ a, a ∈ dict_keys r
                 ↔ ∃ uid, uid ∈ dict_keys popdict
                          ∧ age_of popdict uid = Some a)
         ∧ ∀ a, a ∈ dict_keys r →
                dict_get a r = Some (uids_of_age a popdict).
Proof.
  intros popdict. split; [reflexivity|].
  apply (get_uids_by_age_dictionary_spec popdict).
  apply Forall_forall. change (dict_keys popdict) with [7; 3; 9].
  repeat constructor; by eexists.
Defined.

Lemma get_uids_by_age_dictionary_missing_age_witness :
  get_uids_by_age_dictionary
    ([(7, [("age", 30)]); (3, [("sex", 1)])] : dict nat (dict string nat))
  = Raise KeyError.
Proof.
  apply (get_uids_by_age_dictionary_missing_age _ 3).
  - apply (bool_decide_unpack _). vm_compute. reflexivity.
  - reflexivity.
Defined.

(** ** [get_aggregate_age_dictionary_conversion], the total *)

(** X19.  The conversion keeps the total: when every larger bracket has
    a first age, that age has a smaller bracket and the bracket has a
    count, the values of the result sum to the sum of the counts of the
    larger brackets. *)
Theorem get_aggregate_age_dictionary_conversion_total
    (larger_aggregate_ages : dict nat Qc)
    (larger_age_brackets smaller_age_brackets : dict nat (list nat))
    (age_by_larger age_by_smaller : dict nat nat) :
  length smaller_age_brackets ≤ length larger_age_brackets →
  NoDup (dict_keys smaller_age_brackets) →
  (∀ lb, lb ∈ dict_keys larger_age_brackets →
     lb ∈ dict_keys larger_aggregate_ages
     ∧ ∃ sb, representative_bracket larger_age_brackets
               age_by_smaller lb = Some sb
             ∧ sb ∈ dict_keys smaller_age_brackets) →
  ∃ smaller_aggregate_ages,
    get_aggregate_age_dictionary_conversion larger_aggregate_ages
      larger_age_brackets smaller_age_brackets age_by_larger age_by_smaller
    = Ok smaller_aggregate_ages
    ∧ np_sum (dict_values smaller_aggregate_ages)
      = np_sum ((λ lb, default 0%Qc (dict_get lb larger_aggregate_ages))
                  <$> dict_keys larger_age_brackets).
Proof.
  intros Hle Hnd Hwf. unfold get_aggregate_age_dictionary_conversion.
  rewrite decide_False by lia.
  set (lagg := larger_aggregate_ages) in *.
  set (lbr := larger_age_brackets) in *.
  set (sbr := smaller_age_brackets) in *.
  destruct (for_in_invariant
    (λ done agg,
       dict_keys agg = dict_keys sbr
       ∧ np_sum (dict_values agg)
         = np_sum ((λ lb, default 0%Qc (dict_get lb lagg)) <$> done))
    (dict_keys lbr)
    (λ lb agg,
       bracket ← getitem lb lbr;
       a ← first_item bracket;
       sb ← getitem a age_by_smaller;
       old ← getitem sb agg;
       n ← getitem lb lagg;
       Ok (dict_set sb (old + n)%Qc agg))
    (dict_fromkeys (dict_keys sbr) 0%Qc)) as (agg & Hagg & _ & Hsum).
  - split; [by apply dict_fromkeys_keys | by rewrite dict_fromkeys_sum].
  - intros done lb rest agg Hsplit [Hkeys Hsum].
    assert (lb ∈ dict_keys lbr) as Hlb
      by (rewrite Hsplit; apply elem_of_app; right; left).
    destruct (Hwf lb Hlb) as ([n Hn]%dict_get_is_Some & sb & Hrep & Hsb).
    unfold representative_bracket in Hrep.
    destruct (dict_get lb lbr) as [bracket|] eqn:E1; [|done].
    destruct bracket as [|a bracket]; [done|]. simpl in Hrep.
    rewrite (proj2 (getitem_Ok lbr lb _) E1).
    cbn [mbind result_bind first_item].
    rewrite (proj2 (getitem_Ok age_by_smaller a sb) Hrep).
    cbn [mbind result_bind].
    destruct (proj2 (dict_get_is_Some agg sb)) as [old Hold];
      [by rewrite Hkeys|].
    rewrite (proj2 (getitem_Ok agg sb old) Hold). cbn [mbind result_bind].
    rewrite (proj2 (getitem_Ok lagg lb n) Hn). cbn [mbind result_bind].
    eexists; split; [done|]. split.
    + rewrite dict_set_keys; [done | by rewrite Hkeys].
    + rewrite (dict_set_sum agg sb old) by done.
      rewrite fmap_app, np_sum_app, Hsum, fmap_cons, fmap_nil.
      rewrite np_sum_singleton, Hn. simpl. ring.
  - eauto.
Qed.

Lemma get_aggregate_age_dictionary_conversion_total_witness :
  let larger_aggregate_ages : dict nat Qc :=
    [(0, qc 1); (1, qc 2); (2, qc 3)] in
  let larger_age_brackets : dict nat (list nat) :=
    [(0, [0; 1]); (1, [2; 3]); (2, [4])] in
  let smaller_age_brackets : dict nat (list nat) :=
    [(0, [0; 1; 2; 3]); (1, [4])] in
  let age_by_smaller : dict nat nat :=
    [(0, 0); (1, 0); (2, 0); (3, 0); (4, 1)] in
  ∃ smaller_aggregate_ages,
    get_aggregate_age_dictionary_conversion larger_aggregate_ages
      larger_age_brackets smaller_age_brackets [] age_by_smaller
    = Ok smaller_aggregate_ages
    ∧ np_sum (dict_values smaller_aggregate_ages)
      = np_sum ((λ lb, default 0%Qc (dict_get lb larger_aggregate_ages))
                  <$> dict_keys larger_age_brackets).
Proof.
  intros lagg lbr sbr abs.
  apply (get_aggregate_age_dictionary_conversion_total lagg lbr sbr [] abs).
  - vm_compute. lia.
  - apply (bool_decide_unpack _). vm_compute. reflexivity.
  - apply Forall_forall. change (dict_keys lbr) with [0; 1; 2].
    constructor; [|constructor; [|constructor; [|constructor]]];
      (split; [apply (bool_decide_unpack _); vm_compute; reflexivity|]).
    + exists 0. split; [reflexivity|].
      apply (bool_decide_unpack _). vm_compute. reflexivity.
    + exists 0. split; [reflexivity|].
      apply (bool_decide_unpack _). vm_compute. reflexivity.
    + exists 1. split; [reflexivity|].
      apply (bool_decide_unpack _). vm_compute. reflexivity.
Defined.

(** ** [get_symmetric_community_matrix], the total *)

Lemma np_sum_scale {A} (c : Qc) (f : A → Qc) (l : list A) :
  np_sum ((λ x, c * f x)%Qc <$> l) = (c * np_sum (f <$> l))%Qc.
Proof.
  induction l as [|x l IH]; [rewrite !fmap_nil, np_sum_nil; ring|].
  rewrite !fmap_cons, !np_sum_cons, IH. ring.
Qed.

Lemma np_sum_indicator (c : Qc) (i : nat) (l : list nat) :
  NoDup l → i ∈ l →
  np_sum ((λ j, if decide (i = j) then c else 0%Qc) <$> l) = c.
Proof.
  induction l as [|x l IH]; intros Hnd Hi; [by apply elem_of_nil in Hi|].
  apply NoDup_cons in Hnd as [Hx Hnd]. rewrite fmap_cons, np_sum_cons.
  destruct (decide (i = x)) as [->|Hne].
  - assert (np_sum ((λ j, if decide (x = j) then c else 0%Qc) <$> l) = 0%Qc)
      as ->; [|ring].
    clear IH Hi Hnd. induction l as [|y l IH]; [done|].
    apply not_elem_of_cons in Hx as [Hxy Hx].
    rewrite fmap_cons, np_sum_cons, decide_False, IH by done. ring.
  - apply elem_of_cons in Hi as [?|Hi]; [done|]. rewrite IH by done. ring.
Qed.

Lemma np_sum_Permutation (l l' : list Qc) : l ≡ₚ l' → np_sum l = np_sum l'.
Proof.
  induction 1 as [|x l l' _ IH|x y l|l l' l'' _ IH1 _ IH2];
    rewrite ?np_sum_cons; [done | by rewrite IH | ring | congruence].
Qed.

(** The sum of the cells of an array whose cells are known. *)
Lemma matrix_sum_cells (r c : nat) (M : matrix) g :
  cells r c M g →
  matrix_sum M = np_sum ((λ i, np_sum (g i <$> seq 0 c)) <$> seq 0 r).
Proof.
  intros [HM Hg].
  assert (M = (λ i, g i <$> seq 0 c) <$> seq 0 r) as ->.
  { apply (matrix_ext r c); [done | |].
    - split; [by rewrite length_fmap, length_seq|].
      apply Forall_fmap, Forall_forall. intros i _. simpl.
      by rewrite length_fmap, length_seq.
    - intros i j Hi Hj. rewrite (Hg i j Hi Hj). unfold cell.
      rewrite list_lookup_fmap, lookup_seq_lt by done. simpl.
      by rewrite list_lookup_fmap, lookup_seq_lt. }
  unfold matrix_sum. by rewrite <-list_fmap_compose.
Qed.

(** X20.  The cells of the community matrix sum to the total population,
    for a population with the keys [0 .. N-1] whose total is not one. *)
Theorem get_symmetric_community_matrix_total (ages : dict nat Qc) :
  let T := np_sum (dict_values ages) in
  NoDup (dict_keys ages) →
  (∀ a, a ∈ dict_keys ages ↔ a < length ages) →
  T ≠ 1%Qc →
  ∃ M, get_symmetric_community_matrix ages = Ok M ∧ matrix_sum M = T.
Proof.
  intros T Hnd Hkeys HT. unfold get_symmetric_community_matrix. cbv zeta.
  pose proof (community_outer_product ages Hkeys) as Houter.
  cbv zeta in Houter. destruct Houter as (M1 & -> & HM1).
  cbn [mbind result_bind].
  pose proof (community_self_exclusion ages Hkeys M1 HM1) as Hself.
  cbv zeta in Hself. destruct Hself as (M2 & -> & HM2).
  cbn [mbind result_bind]. rewrite comprehension_getitem by done.
  cbn [mbind result_bind]. fold T. eexists; split; [done|].
  set (N := length ages) in *.
  set (size := λ i, default 0%Qc (dict_get i ages)) in *.
  set (D := (T - 1)%Qc).
  assert (D ≠ 0%Qc) as HD.
  { unfold D. intros H0. apply HT.
    replace T with (T - 1 + 1)%Qc by ring. rewrite H0. ring. }
  assert (np_sum (size <$> seq 0 N) = T) as Hsizes.
  { unfold T. rewrite <-(dict_values_lookup ages) by done.
    apply np_sum_Permutation, fmap_Permutation, NoDup_Permutation;
      [apply NoDup_seq | done |].
    intros a. rewrite Hkeys, elem_of_seq. fold N. lia. }
  rewrite (matrix_sum_cells N N _ _ (cells_divide_all N N M2 _ D HM2)).
  assert (∀ i, i ∈ seq 0 N →
            np_sum ((λ j, (if decide (i = j)
                           then (size i * size i - size i)%Qc
                           else (size i * size j)%Qc) / D)%Qc <$> seq 0 N)
            = ((T - 1) / D * size i)%Qc) as Hrow.
  { intros i Hi.
    rewrite (list_fmap_ext _
               (λ j, (size i / D * size j
                      + (if decide (i = j) then - (size i / D) else 0))%Qc)).
    - rewrite np_sum_plus, np_sum_scale, Hsizes.
      rewrite np_sum_indicator by (done || apply NoDup_seq).
      unfold Qcdiv. ring.
    - intros _ j _. cbv beta. unfold Qcdiv.
      destruct (decide (i = j)) as [->|]; ring. }
  rewrite (list_fmap_ext _ (λ i, ((T - 1) / D * size i)%Qc)).
  - rewrite np_sum_scale, Hsizes. unfold D, Qcdiv.
    rewrite Qcmult_inv_r by done. ring.
  - intros k i Hi. apply Hrow. by apply list_elem_of_lookup_2 in Hi.
Qed.

Lemma get_symmetric_community_matrix_total_witness :
  let ages : dict nat Qc := [(0, qc 2); (1, qc 3)] in
  ∃ M, get_symmetric_community_matrix ages = Ok M
       ∧ matrix_sum M = np_sum (dict_values ages).
Proof.
  intros ages. apply (get_symmetric_community_matrix_total ages).
  - apply (bool_decide_unpack _). vm_compute. reflexivity.
  - intros a. split.
    + intros Ha. apply (bool_decide_pack _) in Ha.
      destruct a as [|[|a]]; [simpl; lia..|]. vm_compute in Ha. done.
    + intros Ha. apply (bool_decide_unpack _).
      destruct a as [|[|a]]; [vm_compute; reflexivity..|simpl in Ha; lia].
  - intros H1. apply (f_equal this) in H1. vm_compute in H1. discriminate H1.
Defined.

(** ** The two indices by age *)

Lemma filter_ext_elem {A} (P Q : A → Prop) `{!∀ x, Decision (P x)}
    `{!∀ x, Decision (Q x)} (l : list A) :
  (∀ x, x ∈ l → P x ↔ Q x) → filter P l = filter Q l.
Proof.
  induction l as [|x l IH]; intros Hext; [done|].
  assert (filter P l = filter Q l) as Hl
    by (apply IH; intros y Hy; apply Hext; by right).
  destruct (decide (P x)) as [HP|HP].
  - rewrite !filter_cons_True, Hl; [done | | done]. apply Hext; [left|done].
  - rewrite !filter_cons_False, Hl; [done | | done].
    intros HQ. apply HP, Hext; [left | done].
Qed.

Section indices_agree.
Context {Id : Type} `{!EqDecision Id}.

(** The index of [get_ids_by_age_dictionary], age by age. *)
Lemma get_ids_by_age_dictionary_lookup (d : dict Id nat) :
  d ≠ [] →
  ∃ m ids,
    (∀ v, v ∈ dict_values d → v ≤ m)
    ∧ get_ids_by_age_dictionary d = Ok ids
    ∧ dict_keys ids = seq 0 (m + 1)
    ∧ ∀ a, a ≤ m → dict_get a ids = Some (Some (ids_of_age a d)).
Proof.
  intros Hne. unfold get_ids_by_age_dictionary.
  destruct (py_max_spec (dict_values d)) as (m & -> & _ & Hmax).
  { unfold dict_values. by destruct d. }
  cbn [mbind result_bind]. exists m.
  set (ids0 := dict_fromkeys (seq 0 (m + 1)) (None : option (list Id))).
  set (ids1 := foldl _ ids0 _).
  assert (dict_keys ids0 = seq 0 (m + 1)) as Hk0
    by apply dict_fromkeys_keys, NoDup_seq.
  assert (dict_keys ids1 = seq 0 (m + 1)) as Hk1
    by (unfold ids1; by rewrite foldl_dict_set_keys).
  assert (∀ a, a ≤ m → dict_get a ids1 = Some (Some [])) as Hg1.
  { intros a Ha. unfold ids1. apply foldl_dict_set_get.
    rewrite Hk0. apply elem_of_seq. lia. }
  destruct (for_in_invariant
    (λ done ids, dict_keys ids = seq 0 (m + 1)
       ∧ ∀ a, a ≤ m →
           dict_get a ids
           = Some (Some (filter (λ i, dict_get i d = Some a) done)))
    (dict_keys d)
    (λ i ids, a ← getitem i d; l ← getitem a ids;
       match l with
       | Some l => Ok (dict_set a (Some (l ++ [i])) ids)
       | None => Raise AttributeError
       end) ids1) as (ids & Hids & Hkeys & Hget).
  - split; [done|]. intros a Ha. by rewrite Hg1.
  - intros done i rest ids Hi [Hkeys Hget].
    assert (i ∈ dict_keys d) as [a' Ha']%dict_get_is_Some
      by (rewrite Hi; apply elem_of_app; right; left).
    assert (a' ≤ m) as Hle.
    { apply Hmax. apply list_elem_of_fmap. exists (i, a').
      split; [done | by apply dict_get_Some_elem]. }
    rewrite (proj2 (getitem_Ok d i a') Ha'). cbn [mbind result_bind].
    rewrite (proj2 (getitem_Ok ids a' _) (Hget a' Hle)).
    cbn [mbind result_bind]. eexists; split; [done|]. split.
    + rewrite dict_set_keys; [done|]. apply dict_get_is_Some.
      by rewrite (Hget a' Hle).
    + intros a Ha. rewrite dict_get_set, filter_app.
      destruct (decide (a = a')) as [->|Hne'].
      * by rewrite filter_cons_True by done.
      * rewrite Hget by done. rewrite filter_cons_False by congruence.
        by rewrite filter_nil, app_nil_r.
  - exists ids. eauto.
Qed.

(** X21.  The two indices agree.  For persons who all have an age, and the
    dictionary from identifier to age of the same persons: the list that
    [get_uids_by_age_dictionary] holds for an age is the list that
    [get_ids_by_age_dictionary] holds for it; the further ages of the
    dense index, which no person has, hold the empty list. *)
Theorem indices_by_age_agree (popdict : dict Id (dict string nat))
    (age_by_id : dict Id nat) :
  popdict ≠ [] →
  dict_keys age_by_id = dict_keys popdict →
  (∀ uid, uid ∈ dict_keys popdict →
     is_Some (age_of popdict uid)
     ∧ dict_get uid age_by_id = age_of popdict uid) →
  ∃ uids ids,
    get_uids_by_age_dictionary popdict = Ok uids
    ∧ get_ids_by_age_dictionary age_by_id = Ok ids
    ∧ (∀ a l, dict_get a uids = Some l → dict_get a ids = Some (Some l))
    ∧ (∀ a, a ∈ dict_keys ids → a ∉ dict_keys uids →
            dict_get a ids = Some (Some [])).
Proof.
  intros Hne Hsame Hages.
  destruct (get_uids_by_age_dictionary_value popdict)
    as (uids & Huids & Hukeys & Huget); [intros uid Hu; by apply Hages|].
  destruct (get_ids_by_age_dictionary_lookup age_by_id)
    as (m & ids & Hmax & Hids & Hikeys & Higet).
  { intros ->. destruct popdict; [done | discriminate Hsame]. }
  assert (∀ a, ids_of_age a age_by_id = uids_of_age a popdict) as Heq.
  { intros a. unfold ids_of_age, uids_of_age. rewrite Hsame.
    apply filter_ext_elem. intros uid Hu.
    by destruct (Hages uid Hu) as [_ ->]. }
  exists uids, ids. split; [done|]. split; [done|]. split.
  - intros a l Hl.
    assert (a ∈ dict_keys uids) as Ha by (apply dict_get_is_Some; eauto).
    rewrite (Huget a Ha) in Hl. injection Hl as <-.
    rewrite <-Heq. apply Higet.
    rewrite Hukeys in Ha.
    apply first_seen_elem, list_elem_of_omap in Ha as (uid & Hu & Hua).
    apply Hmax. apply list_elem_of_fmap. exists (uid, a). split; [done|].
    apply dict_get_Some_elem. destruct (Hages uid Hu) as [_ ->]. done.
  - intros a Ha Hnot. rewrite Hikeys in Ha. apply elem_of_seq in Ha.
    rewrite Higet by lia. do 2 f_equal. rewrite Heq.
    apply filter_nil_intro. intros uid Hu Hua. apply Hnot.
    rewrite Hukeys. apply first_seen_elem, list_elem_of_omap. eauto.
Qed.
End indices_agree.

Lemma indices_by_age_agree_witness :
  let popdict : dict nat (dict string nat) :=
    [(7, [("age", 2)]); (3, [("age", 0)]); (9, [("age", 2)])] in
  let age_by_id : dict nat nat := [(7, 2); (3, 0); (9, 2)] in
  ∃ uids ids,
    get_uids_by_age_dictionary popdict = Ok uids
    ∧ get_ids_by_age_dictionary age_by_id = Ok ids
    ∧ (∀ a l, dict_get a uids = Some l → dict_get a ids = Some (Some l))
    ∧ (∀ a, a ∈ dict_keys ids → a ∉ dict_keys uids →
            dict_get a ids = Some (Some [])).
Proof.
  intros popdict age_by_id. apply (indices_by_age_agree popdict age_by_id).
  - discriminate.
  - reflexivity.
  - apply Forall_forall. change (dict_keys popdict) with [7; 3; 9].
    repeat constructor; by eexists.
Defined.
